(** * Real-time medication checker (static/js/med-checker.js)

    A shallow embedding of the client-side checking pipeline: the debounce
    closure, the form snapshot readers, the asynchronous check with its
    response handler, the warning renderer and the row styling, together
    with a small event loop (timers, in-flight requests) on which the
    temporal properties are stated. *)

From Stdlib Require Import ZArith Ascii String.
From stdpp Require Import base option list strings.

Local Open Scope string_scope.
Local Open Scope list_scope.
Local Open Scope nat_scope.

(** ** Strings as the script sees them

    Strings are sequences of one-byte characters (code units 0 to 255).
    Whitespace is what [String.prototype.trim] and [parseInt] strip among
    them: TAB, LF, VT, FF, CR, SP and the no-break space U+00A0.
    [toLowerCase] maps A-Z and the capital letters U+00C0 to U+00DE (all but
    the multiplication sign U+00D7) 32 places up, as the script's strings do.
    [toUpperCase] is ASCII letter case: the capital of a letter above U+007F
    may have no one-byte form, so statements about [toUpperCase] are for
    ASCII text ([ascii_only]). *)

Module JsString.

Definition is_ws (c : ascii) : bool :=
  let n := nat_of_ascii c in
  ((9 <=? n)%nat && (n <=? 13)%nat) || (n =? 32)%nat || (n =? 160)%nat.

Fixpoint trim_start (s : string) : string :=
  match s with
  | EmptyString => EmptyString
  | String c r => if is_ws c then trim_start r else s
  end.

Fixpoint trim_end (s : string) : string :=
  match s with
  | EmptyString => EmptyString
  | String c r =>
      match trim_end r with
      | EmptyString => if is_ws c then EmptyString else String c EmptyString
      | r' => String c r'
      end
  end.

Definition trim (s : string) : string := trim_end (trim_start s).

Definition lower_char (c : ascii) : ascii :=
  let n := nat_of_ascii c in
  if ((65 <=? n)%nat && (n <=? 90)%nat)
     || ((192 <=? n)%nat && (n <=? 222)%nat && negb (n =? 215)%nat)
  then ascii_of_nat (n + 32) else c.

Definition upper_char (c : ascii) : ascii :=
  let n := nat_of_ascii c in
  if (97 <=? n)%nat && (n <=? 122)%nat then ascii_of_nat (n - 32) else c.

Fixpoint map_chars (f : ascii -> ascii) (s : string) : string :=
  match s with
  | EmptyString => EmptyString
  | String c r => String (f c) (map_chars f r)
  end.

Definition toLowerCase : string -> string := map_chars lower_char.
Definition toUpperCase : string -> string := map_chars upper_char.

(** A string is truthy exactly when it is not empty. *)
Definition nonempty (s : string) : bool :=
  match s with EmptyString => false | String _ _ => true end.

(** Text of ASCII characters only (code units below 128). *)
Fixpoint ascii_only (s : string) : bool :=
  match s with
  | EmptyString => true
  | String c r => (nat_of_ascii c <? 128)%nat && ascii_only r
  end.

End JsString.

(** ** Numbers and [parseInt]

    A number is [NaN] or an integer.  Digit strings denote the integer they
    spell; the rounding of integers beyond 2^53 to a double, and the sign of
    zero, are not represented. *)

Module JsNumber.
Import JsString.

Inductive JSNumber := NaN | Num (z : Z).

Inductive JSValue := VUndefined | VStr (s : string) | VNum (n : JSNumber).

Definition truthy (v : JSValue) : bool :=
  match v with
  | VUndefined => false
  | VStr s => nonempty s
  | VNum NaN => false
  | VNum (Num z) => negb (z =? 0)%Z
  end.

(** [a || b] *)
Definition js_or (a b : JSValue) : JSValue := if truthy a then a else b.

Definition digit_value (c : ascii) : option Z :=
  let n := nat_of_ascii c in
  if (48 <=? n)%nat && (n <=? 57)%nat then Some (Z.of_nat (n - 48))
  else if (97 <=? n)%nat && (n <=? 122)%nat then Some (Z.of_nat (n - 87))
  else if (65 <=? n)%nat && (n <=? 90)%nat then Some (Z.of_nat (n - 55))
  else None.

(** The longest prefix of radix digits, as an integer; [acc] is [None]
    until a first digit has been read. *)
Fixpoint parse_digits (radix : Z) (s : string) (acc : option Z) : option Z :=
  match s with
  | EmptyString => acc
  | String c r =>
      match digit_value c with
      | Some d =>
          if (d <? radix)%Z
          then parse_digits radix r (Some (radix * default 0 acc + d))%Z
          else acc
      | None => acc
      end
  end.

Definition strip_sign (s : string) : Z * string :=
  match s with
  | String "-" r => ((-1)%Z, r)
  | String "+" r => (1%Z, r)
  | _ => (1%Z, s)
  end.

Definition strip_radix (s : string) : Z * string :=
  match s with
  | String "0" (String "x" r) => (16%Z, r)
  | String "0" (String "X" r) => (16%Z, r)
  | _ => (10%Z, s)
  end.

(** [parseInt(string)] with no radix argument. *)
Definition parseInt_string (s : string) : JSNumber :=
  let '(sign, s1) := strip_sign (trim_start s) in
  let '(radix, s2) := strip_radix s1 in
  match parse_digits radix s2 None with
  | None => NaN
  | Some n => Num (sign * n)
  end.

(** [parseInt(v)]: the argument is converted to a string first, which for
    an integer is its decimal spelling and parses back to itself. *)
Definition parseInt (v : JSValue) : JSNumber :=
  match v with
  | VStr s => parseInt_string s
  | VNum n => n
  | VUndefined => NaN
  end.

Definition is_integer (n : JSNumber) : bool :=
  match n with NaN => false | Num _ => true end.

End JsNumber.

Export JsString JsNumber.

(** ** The page *)

(** One rendered warning card of the warning surface. *)
Record Block := {
  block_class : string;
  block_icon : string;
  block_title : string;
  block_badge : string;
  block_message : string;
  block_recommendation : option string;
  block_category : option string;
  block_animation : option nat
}.

(** What a warning surface holds ([innerHTML]). *)
Inductive Content :=
| Empty
| Loader
| SafeNotice
| ErrorNotice (msg : string)
| Cards (bs : list Block).

(** The [.live-warning-container] of a row. *)
Record Container := {
  innerHTML : Content;
  display : string
}.

(** A [.medication-row]: the value of its name input and of its doses input
    ([None] when the row has no such input), its warning surface once
    created, and its class list. *)
Record Row := {
  nameInput : option string;
  dosesInput : option string;
  warningContainer : option Container;
  classList : list string
}.

(** The document: its medication rows in document order, and the age input
    as found by id and as found by name. *)
Record Page := {
  rows : list Row;
  ageById : option string;
  ageByName : option string
}.

Definition set_container (c : option Container) (r : Row) : Row :=
  {| nameInput := nameInput r; dosesInput := dosesInput r;
     warningContainer := c; classList := classList r |}.

Definition set_classList (cl : list string) (r : Row) : Row :=
  {| nameInput := nameInput r; dosesInput := dosesInput r;
     warningContainer := warningContainer r; classList := cl |}.

Definition set_nameInput (v : option string) (r : Row) : Row :=
  {| nameInput := v; dosesInput := dosesInput r;
     warningContainer := warningContainer r; classList := classList r |}.

Definition set_innerHTML (h : Content) (c : Container) : Container :=
  {| innerHTML := h; display := display c |}.

Definition set_display (d : string) (c : Container) : Container :=
  {| innerHTML := innerHTML c; display := d |}.

Definition set_rows (rs : list Row) (p : Page) : Page :=
  {| rows := rs; ageById := ageById p; ageByName := ageByName p |}.

(** Update of row [i] in place; nothing happens when there is no row [i]. *)
Definition update_row (i : nat) (f : Row -> Row) (p : Page) : Page :=
  set_rows (alter f i (rows p)) p.

(** [el?.value] *)
Definition opt_value (el : option string) : JSValue :=
  match el with
  | Some v => VStr v
  | None => VUndefined
  end.

(** ** Snapshot readers *)

Record Medication := {
  name : string;
  doses_per_day : JSNumber
}.

Definition row_medication (r : Row) : option Medication :=
  match nameInput r with
  | Some v =>
      if nonempty (trim v)
      then Some {| name := trim v;
                   doses_per_day :=
                     parseInt (js_or (opt_value (dosesInput r)) (VNum (Num 1))) |}
      else None
  | None => None
  end.

Definition getCurrentMedications (p : Page) : list Medication :=
  omap row_medication (rows p).

Definition getPatientAge (p : Page) : JSNumber :=
  let ageInput :=
    match ageById p with
    | Some v => Some v
    | None => ageByName p
    end in
  parseInt (js_or (opt_value ageInput) (VNum (Num 65))).

(** ** The service's answer *)

(** A warning as delivered.  [severity] is [None] when the field is not a
    string, in which case [warning.severity.toUpperCase()] raises. *)
Record Warning := {
  severity : option string;
  icon : string;
  title : string;
  message : string;
  recommendation : option string;
  category : option string
}.

(** The parsed body: [success] and [safe] by truthiness, [warnings] absent
    ([None]) or an array. *)
Record Data := {
  success : bool;
  warnings : option (list Warning);
  safe : bool
}.

(** How the two awaits of a check end: [fetch] rejects, reading the body
    raises ([response.json()] rejects, or the body is [null]), or a body is
    obtained. *)
Inductive Outcome :=
| FetchRejected
| BodyUnreadable
| Body (d : Data).

(** The POST body of [/api/check-medication]. *)
Record Request := {
  medication_name : string;
  existing_medications : list Medication;
  age : JSNumber
}.

(** ** Exceptions *)

Inductive Res (A : Type) :=
| Ok (a : A)
| Throw.
Arguments Ok {A} a.
Arguments Throw {A}.

Definition res_bind {A B} (m : Res A) (k : A -> Res B) : Res B :=
  match m with
  | Ok a => k a
  | Throw => Throw
  end.

Notation "'do' x <- m ; k" := (res_bind m (fun x => k))
  (at level 10, x pattern, m at level 100, k at level 200).

(** ** Rendering *)

(** [x ? tpl(x) : empty] on an optional string. *)
Definition if_truthy (o : option string) : option string :=
  match o with
  | Some s => if nonempty s then Some s else None
  | None => None
  end.

(** The template of one warning card. *)
Definition renderWarning (w : Warning) : Res Block :=
  match severity w with
  | Some sev =>
      Ok {| block_class := "warning-" +:+ sev;
            block_icon := icon w;
            block_title := title w;
            block_badge := toUpperCase sev;
            block_message := message w;
            block_recommendation := if_truthy (recommendation w);
            block_category := if_truthy (category w);
            block_animation := None |}
  | None => Throw
  end.

(** [warnings.map(...)] *)
Fixpoint renderWarnings (ws : list Warning) : Res (list Block) :=
  match ws with
  | [] => Ok []
  | w :: ws' =>
      do b <- renderWarning w;
      do bs <- renderWarnings ws';
      Ok (b :: bs)
  end.

Definition set_animation (i : nat) (b : Block) : Block :=
  {| block_class := block_class b; block_icon := block_icon b;
     block_title := block_title b; block_badge := block_badge b;
     block_message := block_message b;
     block_recommendation := block_recommendation b;
     block_category := block_category b;
     block_animation := Some i |}.

(** The [forEach] that staggers the slide-in by the card's index. *)
Definition animate (bs : list Block) : list Block := imap set_animation bs.

(** [displayWarnings(container, warnings, isSafe)].  The boolean of the
    result tells whether the two-second hide timer was armed. *)
Definition displayWarnings (container : Container)
    (warnings : option (list Warning)) (isSafe : bool) : Res (Container * bool) :=
  match warnings with
  | None | Some [] =>
      if isSafe
      then Ok (set_innerHTML SafeNotice container, true)
      else Ok (set_display "none" container, false)
  | Some ws =>
      do bs <- renderWarnings ws;
      Ok (set_display "block" (set_innerHTML (Cards (animate bs)) container), false)
  end.

(** ** Row styling *)

Definition tier_classes : list string :=
  ["has-high-warning"; "has-moderate-warning"; "has-low-warning"; "is-safe"].

Definition classList_remove (names : list string) (cl : list string) : list string :=
  filter (fun c => c ∉ names) cl.

Definition classList_add (c : string) (cl : list string) : list string :=
  if decide (c ∈ cl) then cl else cl ++ [c].

(** [warnings.some(w => w.severity === sev)] *)
Definition some_severity (sev : string) (ws : list Warning) : bool :=
  existsb (fun w => bool_decide (severity w = Some sev)) ws.

Definition updateRowStyling (row : Row) (warnings : option (list Warning)) : Row :=
  let cl := classList_remove tier_classes (classList row) in
  match warnings with
  | None | Some [] => set_classList (classList_add "is-safe" cl) row
  | Some ws =>
      let hasHigh := some_severity "high" ws in
      let hasModerate := some_severity "moderate" ws in
      if hasHigh then set_classList (classList_add "has-high-warning" cl) row
      else if hasModerate then set_classList (classList_add "has-moderate-warning" cl) row
      else set_classList (classList_add "has-low-warning" cl) row
  end.

(** ** The check *)

Definition new_container : Container := {| innerHTML := Empty; display := "" |}.

(** The row's surface is looked up, and created when the row has none. *)
Definition ensure_container (r : Row) : Row :=
  match warningContainer r with
  | Some _ => r
  | None => set_container (Some new_container) r
  end.

Definition map_container (f : Container -> Container) (r : Row) : Row :=
  set_container (f <$> warningContainer r) r.

(** The surface a running check holds: the row's own. *)
Definition row_surface (r : Row) : Container :=
  default new_container (warningContainer r).

(** [checkMedicationRealtime(inputElement)] up to its first [await], for the
    name input of row [i]: the page it leaves and the request it sends, if
    any.  A row [i] without a name input offers nothing to call it on. *)
Definition checkMedicationRealtime (i : nat) (p : Page) : Page * option Request :=
  match rows p !! i ≫= nameInput with
  | None => (p, None)
  | Some v =>
      let medicationName := trim v in
      let p1 := update_row i ensure_container p in
      if nonempty medicationName
      then
        let p2 :=
          update_row i
            (map_container (fun c => set_display "block" (set_innerHTML Loader c))) p1 in
        let allMeds := getCurrentMedications p2 in
        let existingMeds :=
          filter (fun med => toLowerCase (name med) ≠ toLowerCase medicationName)
                 allMeds in
        (p2, Some {| medication_name := medicationName;
                     existing_medications := existingMeds;
                     age := getPatientAge p2 |})
      else
        (update_row i
           (map_container (fun c => set_display "none" (set_innerHTML Empty c))) p1,
         None)
  end.

(** The body of the [try] from the first [await] on, for a row: the row it
    leaves, and whether the hide timer was armed. *)
Definition resume_try (o : Outcome) (r : Row) : Res (Row * bool) :=
  match o with
  | FetchRejected => Throw
  | BodyUnreadable => Throw
  | Body data =>
      if success data
      then
        do (c, armed) <- displayWarnings (row_surface r) (warnings data) (safe data);
        Ok (updateRowStyling (map_container (fun _ => c) r) (warnings data), armed)
      else
        Ok (map_container
              (set_innerHTML (ErrorNotice "Error checking medication")) r,
            false)
  end.

(** The rest of [checkMedicationRealtime] once the answer is in: the [try]
    body, and the [catch] clause when it raised. *)
Definition resume_row (o : Outcome) (r : Row) : Row * bool :=
  match resume_try o r with
  | Ok res => res
  | Throw =>
      (map_container (set_innerHTML (ErrorNotice "Unable to check medication")) r,
       false)
  end.

(** ** The event loop

    Time is in milliseconds.  A pending timer carries what it will run: the
    [later] closure of the debounced check for the input of a row, or the
    closure of [displayWarnings] that hides a row's surface. *)

Inductive Action :=
| Later (i : nat)
| Hide (i : nat).

Record Timer := {
  timer_id : nat;
  deadline : N;
  action : Action
}.

(** The page, the clock, the pending timers in the order they were armed,
    the next timer id, the [timeout] variable of the one closure made by
    [debounce(checkMedicationRealtime, 800)] when the script initialises,
    the checks awaiting their answer (number of the request, row), and two
    logs: the requests sent and the rows the check was called on, oldest
    first. *)
Record State := {
  page : Page;
  now : N;
  timers : list Timer;
  next_timer : nat;
  timeout : option nat;
  inflight : list (nat * nat);
  sent : list Request;
  calls : list nat
}.

Definition set_page (p : Page) (s : State) : State :=
  {| page := p; now := now s; timers := timers s; next_timer := next_timer s;
     timeout := timeout s; inflight := inflight s; sent := sent s;
     calls := calls s |}.

Definition set_now (t : N) (s : State) : State :=
  {| page := page s; now := t; timers := timers s; next_timer := next_timer s;
     timeout := timeout s; inflight := inflight s; sent := sent s;
     calls := calls s |}.

Definition set_timers (ts : list Timer) (s : State) : State :=
  {| page := page s; now := now s; timers := ts; next_timer := next_timer s;
     timeout := timeout s; inflight := inflight s; sent := sent s;
     calls := calls s |}.

Definition set_timeout (o : option nat) (s : State) : State :=
  {| page := page s; now := now s; timers := timers s;
     next_timer := next_timer s; timeout := o; inflight := inflight s;
     sent := sent s; calls := calls s |}.

Definition set_inflight (l : list (nat * nat)) (s : State) : State :=
  {| page := page s; now := now s; timers := timers s;
     next_timer := next_timer s; timeout := timeout s; inflight := l;
     sent := sent s; calls := calls s |}.

(** [setTimeout(a, wait)]: a fresh id, returned. *)
Definition setTimeout (a : Action) (wait : N) (s : State) : nat * State :=
  (next_timer s,
   {| page := page s; now := now s;
      timers := timers s ++
                [{| timer_id := next_timer s; deadline := (now s + wait)%N;
                    action := a |}];
      next_timer := S (next_timer s); timeout := timeout s;
      inflight := inflight s; sent := sent s; calls := calls s |}).

(** [clearTimeout(id)]: no effect for [undefined] or an id no longer
    pending. *)
Definition clearTimeout (id : option nat) (s : State) : State :=
  match id with
  | None => s
  | Some n => set_timers (filter (fun tm => timer_id tm ≠ n) (timers s)) s
  end.

(** A call of [checkMedicationRealtime] on the input of row [i]: the call is
    logged, and a request, when one is made, is logged and awaited. *)
Definition call_check (i : nat) (s : State) : State :=
  let '(p, req) := checkMedicationRealtime i (page s) in
  {| page := p; now := now s; timers := timers s; next_timer := next_timer s;
     timeout := timeout s;
     inflight := match req with
                 | Some _ => inflight s ++ [(length (sent s), i)]
                 | None => inflight s
                 end;
     sent := match req with
             | Some r => sent s ++ [r]
             | None => sent s
             end;
     calls := calls s ++ [i] |}.

(** [debouncedCheck(input)], the [executedFunction] of [debounce]. *)
Definition debouncedCheck (i : nat) (s : State) : State :=
  let s1 := clearTimeout (timeout s) s in
  let '(id, s2) := setTimeout (Later i) 800 s1 in
  set_timeout (Some id) s2.

(** The [later] closure of [debounce]. *)
Definition later (i : nat) (s : State) : State :=
  call_check i (clearTimeout (timeout s) s).

(** A timer fires: it is no longer pending, and its closure runs. *)
Definition fire (tm : Timer) (s : State) : State :=
  let s1 :=
    set_now (N.max (now s) (deadline tm))
      (set_timers (filter (fun x => timer_id x ≠ timer_id tm) (timers s)) s) in
  match action tm with
  | Later i => later i s1
  | Hide i =>
      set_page (update_row i (map_container (set_display "none")) (page s1)) s1
  end.

Definition earlier (a b : Timer) : Timer :=
  if (deadline b <? deadline a)%N then b else a.

(** The timer to fire next among those due by [t]: the least deadline, the
    one armed first among equals. *)
Definition next_due (t : N) (ts : list Timer) : option Timer :=
  match filter (fun tm => (deadline tm <=? t)%N = true) ts with
  | [] => None
  | tm :: rest => Some (foldl earlier tm rest)
  end.

Fixpoint fire_due (fuel : nat) (t : N) (s : State) : State :=
  match fuel with
  | O => s
  | S fuel' =>
      match next_due t (timers s) with
      | Some tm => fire_due fuel' t (fire tm s)
      | None => s
      end
  end.

(** Time passes until [t]: every timer due by then fires, in order.  No
    closure arms a timer, so one round per pending timer is enough. *)
Definition advance (t : N) (s : State) : State :=
  let s1 := fire_due (length (timers s)) t s in
  set_now (N.max (now s1) t) s1.

(** The answer [o] of request number [k] arrives. *)
Definition respond (k : nat) (o : Outcome) (s : State) : State :=
  match list_find (fun c => c.1 = k) (inflight s) with
  | None => s
  | Some (_, (_, i)) =>
      let s1 := set_inflight (filter (fun c => c.1 ≠ k) (inflight s)) s in
      match rows (page s) !! i with
      | None => s1
      | Some r =>
          let s2 :=
            set_page (update_row i (fun r => (resume_row o r).1) (page s1)) s1 in
          if (resume_row o r).2 then (setTimeout (Hide i) 2000 s2).2 else s2
      end
  end.

Definition has_input (i : nat) (p : Page) : bool :=
  bool_decide (is_Some (rows p !! i ≫= nameInput)).

(** What happens to the page: the user edits the name input of a row (an
    [input] event), leaves it (a [blur] event), an answer arrives, or
    nothing but the passing of time. *)
Inductive Event :=
| UserInput (i : nat) (v : string)
| Blur (i : nat)
| Respond (k : nat) (o : Outcome)
| Wait.

Definition handle (e : Event) (s : State) : State :=
  match e with
  | UserInput i v =>
      if has_input i (page s)
      then debouncedCheck i
             (set_page (update_row i (set_nameInput (Some v)) (page s)) s)
      else s
  | Blur i => if has_input i (page s) then call_check i s else s
  | Respond k o => respond k o s
  | Wait => s
  end.

(** An event at time [t]: the timers due by then have fired first. *)
Definition step (te : N * Event) (s : State) : State :=
  handle te.2 (advance te.1 s).

Definition run (tr : list (N * Event)) (s : State) : State :=
  foldl (fun s te => step te s) s tr.

(** The state once the script has loaded on page [p] and
    [initializeMedicationChecker] has run, attaching the blur handler and
    the one debounced handler to every name input.  The rows of the page
    stay the same rows from then on, so [reinitializeMedicationChecker],
    meant for rows added later, is never called; the part on listeners and
    closures has the form with rows added and the checker initialised
    again. *)
Definition boot (p : Page) : State :=
  {| page := p; now := 0; timers := []; next_timer := 0; timeout := None;
     inflight := []; sent := []; calls := [] |}.

(** What the user sees of a row: its surface and its classes. *)
Definition rendered (r : Row) : option Container * list string :=
  (warningContainer r, classList r).

Definition rendered_at (i : nat) (s : State) : option (option Container * list string) :=
  rendered <$> rows (page s) !! i.

(** ** What the specification says of the rendering order

    The specification has the cards in severity order, high before moderate
    before low, equal severities in the order delivered.  These definitions
    follow its words; they are compared with [displayWarnings] below. *)

Definition severity_position (sev : option string) : nat :=
  match sev with
  | Some s =>
      if decide (s = "high") then 0
      else if decide (s = "moderate") then 1
      else if decide (s = "low") then 2
      else 3
  | None => 3
  end.

Fixpoint insert_by_severity (w : Warning) (l : list Warning) : list Warning :=
  match l with
  | [] => [w]
  | x :: l' =>
      if decide (severity_position (severity w) ≤ severity_position (severity x))%nat
      then w :: l
      else x :: insert_by_severity w l'
  end.

Definition sort_by_severity (ws : list Warning) : list Warning :=
  foldr insert_by_severity [] ws.

(** The specification's rendering: the cards of the sorted list. *)
Definition rendering_is_severity_sorted : Prop :=
  ∀ (c : Container) (ws : list Warning) (sf : bool),
    ws ≠ [] →
    displayWarnings c (Some ws) sf =
    displayWarnings c (Some (sort_by_severity ws)) sf.

(** The card [b] shows the warning [w]. *)
Definition card_of (w : Warning) (b : Block) : Prop :=
  Some (block_class b) = (λ sev, "warning-" +:+ sev) <$> severity w ∧
  Some (block_badge b) = toUpperCase <$> severity w ∧
  block_icon b = icon w ∧
  block_title b = title w ∧
  block_message b = message w ∧
  block_recommendation b = if_truthy (recommendation w) ∧
  block_category b = if_truthy (category w).

(** ** What the specification says of failures

    A failed check, in the specification's taxonomy: the transport failed,
    the body could not be read, the answer is a non-success, or the answer
    lacks the warnings it should carry. *)
Definition failed_check (o : Outcome) : Prop :=
  match o with
  | FetchRejected => True
  | BodyUnreadable => True
  | Body d => success d = false ∨ warnings d = None
  end.

Definition is_error_notice (c : Content) : Prop :=
  ∃ msg, c = ErrorNotice msg.

(** The specification's handling of a failed check: one error notice on the
    surface, the row's classes as they were. *)
Definition failure_shows_notice_only : Prop :=
  ∀ (o : Outcome) (r : Row) (c : Container),
    warningContainer r = Some c →
    failed_check o →
    ∃ c', warningContainer (resume_row o r).1 = Some c' ∧
          is_error_notice (innerHTML c') ∧
          classList (resume_row o r).1 = classList r.

(** The failures the handler reports as such: those that end in its [catch]
    clause (no answer, no readable body, or a warning that cannot be
    rendered), and the answers without the success flag. *)
Definition unrenderable (d : Data) : bool :=
  match warnings d with
  | Some ws => existsb (fun w => bool_decide (severity w = None)) ws
  | None => false
  end.

Definition caught (o : Outcome) : bool :=
  match o with
  | FetchRejected => true
  | BodyUnreadable => true
  | Body d => success d && unrenderable d
  end.

Definition non_success (o : Outcome) : bool :=
  match o with
  | Body d => negb (success d)
  | _ => false
  end.

(** ** Views of the state *)

Definition is_later (tm : Timer) : bool :=
  match action tm with
  | Later _ => true
  | Hide _ => false
  end.

(** The debounced checks still to fire. *)
Definition pending_checks (s : State) : list Timer :=
  filter (λ tm, is_later tm = true) (timers s).

(** The values of the name inputs, row by row. *)
Definition names (p : Page) : list (option string) := nameInput <$> rows p.

(** What holds of every state the page can be in: timer ids are distinct and
    below the next id, a pending debounced check is the one [timeout] names,
    and each awaited check has a number of its own, below the number of
    requests sent, and a row with a surface. *)
Record wf (s : State) : Prop := {
  wf_ids : NoDup (timer_id <$> timers s);
  wf_fresh : ∀ tm, tm ∈ timers s → timer_id tm < next_timer s;
  wf_later : ∀ tm, tm ∈ timers s → is_later tm = true →
             timeout s = Some (timer_id tm);
  wf_inflight_ids : NoDup (inflight s).*1;
  wf_inflight_sent : ∀ c, c ∈ inflight s → c.1 < length (sent s);
  wf_inflight_row : ∀ c, c ∈ inflight s →
                    ∃ r, rows (page s) !! c.2 = Some r ∧ is_Some (warningContainer r)
}.

(** A change of a row that leaves it its surface. *)
Definition keeps_surface (f : Row → Row) : Prop :=
  ∀ r, is_Some (warningContainer r) → is_Some (warningContainer (f r)).

(** ** Bursts of input *)

(** The [input] events of one field, at the given times with the given
    values. *)
Definition inputs_on (i : nat) (b : list (N * string)) : list (N * Event) :=
  (λ tv, (tv.1, UserInput i tv.2)) <$> b.

(** Each event comes less than 800ms after the one before, starting from
    time [t]. *)
Fixpoint rapid (t : N) (b : list (N * string)) : Prop :=
  match b with
  | [] => True
  | tv :: b' => (t ≤ tv.1)%N ∧ (tv.1 < t + 800)%N ∧ rapid tv.1 b'
  end.

(** The debounced check of the input of row [i] is pending, armed at time
    [t] with the field holding [v]. *)
Definition armed (i : nat) (t : N) (v : string) (s : State) : Prop :=
  now s = t ∧
  rows (page s) !! i ≫= nameInput = Some v ∧
  ∃ tm, pending_checks s = [tm] ∧ action tm = Later i ∧
        deadline tm = (t + 800)%N.

(** What one check on a field holding [v] adds to the requests sent: one
    request for the trimmed value, or nothing when that is empty. *)
Definition request_for (v : string) (before after : list Request) : Prop :=
  if nonempty (trim v)
  then ∃ req, after = before ++ [req] ∧ medication_name req = trim v
  else after = before.

(** The last event of the burst that starts with [tv0]. *)
Definition final_input (tv0 : N * string) (b : list (N * string)) : N * string :=
  default tv0 (last b).

(** ** What the specification says of timing

    A burst of rapid inputs on one field, followed by quiet, yields exactly
    one request, for the field's final value. *)
Definition burst_sends_one_request : Prop :=
  ∀ (p : Page) (tr : list (N * Event)) (i : nat) (tv0 : N * string)
    (b : list (N * string)) (T : N),
    let s := run tr (boot p) in
    has_input i (page s) = true →
    (now s ≤ tv0.1)%N →
    rapid tv0.1 b →
    ((final_input tv0 b).1 + 800 ≤ T)%N →
    ∃ req,
      sent (run (inputs_on i (tv0 :: b) ++ [(T, Wait)]) s) =
        sent (advance tv0.1 s) ++ [req] ∧
      medication_name req = trim (final_input tv0 b).2.

(** The answer of a check that a later check on the same row has superseded
    changes nothing of what the row shows: it is as if only time had
    passed. *)
Definition stale_answers_discarded : Prop :=
  ∀ (p : Page) (tr : list (N * Event)) (k1 k2 i : nat) (t t' : N)
    (o1 o2 : Outcome),
    let s := run tr (boot p) in
    (k1, i) ∈ inflight s →
    (k2, i) ∈ inflight s →
    k1 < k2 →
    rendered_at i (run [(t, Respond k2 o2); (t', Respond k1 o1)] s) =
    rendered_at i (run [(t, Respond k2 o2); (t', Wait)] s).

(** ** Sample data *)

Definition warn_high : Warning :=
  {| severity := Some "high"; icon := "!"; title := "Anticholinergic effects";
     message := "Avoid in older adults"; recommendation := Some "Consider an alternative";
     category := Some "Beers criteria" |}.

Definition warn_moderate : Warning :=
  {| severity := Some "moderate"; icon := "?"; title := "Fall risk";
     message := "Adds to fall risk"; recommendation := None; category := Some "" |}.

Definition warn_low : Warning :=
  {| severity := Some "low"; icon := "i"; title := "Pill burden";
     message := "Many daily doses"; recommendation := None; category := None |}.

Definition loading : Container := {| innerHTML := Loader; display := "block" |}.

Definition row_of (v doses : string) : Row :=
  {| nameInput := Some v; dosesInput := Some doses; warningContainer := None;
     classList := ["medication-row"] |}.

Definition checking_row (v : string) : Row :=
  {| nameInput := Some v; dosesInput := Some "1"; warningContainer := Some loading;
     classList := ["medication-row"; "has-low-warning"] |}.

Definition sample_page : Page :=
  {| rows := [row_of "warfarin" "1"; row_of "Aspirin " "2"; row_of "  " "1"];
     ageById := Some "70"; ageByName := None |}.

(** A form whose doses and age fields hold text that is not a number. *)
Definition garbled_page : Page :=
  {| rows := [row_of "aspirin" "abc"]; ageById := Some "abc"; ageByName := None |}.

Definition answer (ws : list Warning) (sf : bool) : Outcome :=
  Body {| success := true; warnings := Some ws; safe := sf |}.

(** The class the styling adds. *)
Definition tier_of (warnings : option (list Warning)) : string :=
  match warnings with
  | None | Some [] => "is-safe"
  | Some ws =>
      if some_severity "high" ws then "has-high-warning"
      else if some_severity "moderate" ws then "has-moderate-warning"
      else "has-low-warning"
  end.

(** ** Listeners and closures ([debounce], [initializeMedicationChecker])

    The form with every run of [initializeMedicationChecker]: the one at
    load and those of [reinitializeMedicationChecker].  Each run makes one
    debounced check, a closure of [debounce] with a [timeout] variable of
    its own, and puts on every name input then in the document a [blur]
    listener, which calls the check, and an [input] listener, which calls
    the run's debounced check.  Listeners are never removed.  A call of the
    check is recorded with its caller, the input it is called on and the
    value the input holds then; what the check does from there is the
    subject of the parts above. *)

(** A name input: its value and, for each run that has put its listeners on
    it, oldest first, the number of the run's closure. *)
Record NameInput := {
  input_value : string;
  listeners : list nat
}.

(** A timer armed by a debounced check: the closure whose [later] it runs
    and the input [later] calls the check on. *)
Record LaterTimer := {
  later_id : nat;
  later_deadline : N;
  later_closure : nat;
  later_input : nat
}.

Inductive Caller := FromBlur | FromLater (c : nat).

Record CheckCall := {
  call_from : Caller;
  call_input : nat;
  call_value : string
}.

(** The clock, the name inputs in document order, the [timeout] variable of
    every closure made so far, the pending timers in the order they were
    armed, the next timer id and the calls of the check, oldest first. *)
Record Form := {
  form_now : N;
  name_inputs : list NameInput;
  closure_timeouts : list (option nat);
  later_timers : list LaterTimer;
  next_later_id : nat;
  check_calls : list CheckCall
}.

Definition add_listener (c : nat) (nm : NameInput) : NameInput :=
  {| input_value := input_value nm; listeners := listeners nm ++ [c] |}.

Definition set_input_value (v : string) (nm : NameInput) : NameInput :=
  {| input_value := v; listeners := listeners nm |}.

(** [initializeMedicationChecker()]: a new closure, its [timeout] not yet
    set, and its listeners on every name input of the document. *)
Definition form_initialize (s : Form) : Form :=
  {| form_now := form_now s;
     name_inputs := add_listener (length (closure_timeouts s)) <$> name_inputs s;
     closure_timeouts := closure_timeouts s ++ [None];
     later_timers := later_timers s;
     next_later_id := next_later_id s;
     check_calls := check_calls s |}.

(** A medication row is added to the document: its name input holds [v] and
    has no listener yet. *)
Definition add_row (v : string) (s : Form) : Form :=
  {| form_now := form_now s;
     name_inputs := name_inputs s ++ [{| input_value := v; listeners := [] |}];
     closure_timeouts := closure_timeouts s;
     later_timers := later_timers s;
     next_later_id := next_later_id s;
     check_calls := check_calls s |}.

(** [clearTimeout(id)] on the pending timers. *)
Definition clear_later (id : option nat) (ts : list LaterTimer) : list LaterTimer :=
  match id with
  | None => ts
  | Some n => filter (λ tm, later_id tm ≠ n) ts
  end.

(** [executedFunction] of closure [c], called with input [i]:
    [clearTimeout(timeout); timeout = setTimeout(later, 800)]. *)
Definition executedFunction (c i : nat) (s : Form) : Form :=
  match closure_timeouts s !! c with
  | None => s
  | Some id =>
      {| form_now := form_now s;
         name_inputs := name_inputs s;
         closure_timeouts := <[c := Some (next_later_id s)]> (closure_timeouts s);
         later_timers :=
           clear_later id (later_timers s) ++
           [{| later_id := next_later_id s;
               later_deadline := (form_now s + 800)%N;
               later_closure := c;
               later_input := i |}];
         next_later_id := S (next_later_id s);
         check_calls := check_calls s |}
  end.

(** The check is called on input [i]. *)
Definition record_check (from : Caller) (i : nat) (s : Form) : Form :=
  match name_inputs s !! i with
  | None => s
  | Some nm =>
      {| form_now := form_now s;
         name_inputs := name_inputs s;
         closure_timeouts := closure_timeouts s;
         later_timers := later_timers s;
         next_later_id := next_later_id s;
         check_calls := check_calls s ++
           [{| call_from := from; call_input := i; call_value := input_value nm |}] |}
  end.

(** A timer fires, running [later] of its closure:
    [clearTimeout(timeout); func(...args)]. *)
Definition run_later (tm : LaterTimer) (s : Form) : Form :=
  let rest := filter (λ x, later_id x ≠ later_id tm) (later_timers s) in
  record_check (FromLater (later_closure tm)) (later_input tm)
    {| form_now := N.max (form_now s) (later_deadline tm);
       name_inputs := name_inputs s;
       closure_timeouts := closure_timeouts s;
       later_timers := match closure_timeouts s !! later_closure tm with
                       | Some id => clear_later id rest
                       | None => rest
                       end;
       next_later_id := next_later_id s;
       check_calls := check_calls s |}.

Definition sooner_later (a b : LaterTimer) : LaterTimer :=
  if (later_deadline b <? later_deadline a)%N then b else a.

(** The timer to fire next among those due by [t]: the least deadline, the
    one armed first among equals. *)
Definition next_later (t : N) (ts : list LaterTimer) : option LaterTimer :=
  match filter (λ tm, (later_deadline tm <=? t)%N = true) ts with
  | [] => None
  | tm :: rest => Some (foldl sooner_later tm rest)
  end.

Fixpoint fire_laters (fuel : nat) (t : N) (s : Form) : Form :=
  match fuel with
  | O => s
  | S fuel' =>
      match next_later t (later_timers s) with
      | Some tm => fire_laters fuel' t (run_later tm s)
      | None => s
      end
  end.

(** Time passes until [t]: every timer due by then fires, in order.  No
    [later] arms a timer, so one round per pending timer is enough. *)
Definition form_advance (t : N) (s : Form) : Form :=
  let s1 := fire_laters (length (later_timers s)) t s in
  {| form_now := N.max (form_now s1) t;
     name_inputs := name_inputs s1;
     closure_timeouts := closure_timeouts s1;
     later_timers := later_timers s1;
     next_later_id := next_later_id s1;
     check_calls := check_calls s1 |}.

(** An [input] event on input [i], which now holds [v]: its [input]
    listeners run in the order they were added, each calling the debounced
    check of its run. *)
Definition input_event (i : nat) (v : string) (s : Form) : Form :=
  match name_inputs s !! i with
  | None => s
  | Some nm =>
      foldl (λ s c, executedFunction c i s)
            {| form_now := form_now s;
               name_inputs := <[i := set_input_value v nm]> (name_inputs s);
               closure_timeouts := closure_timeouts s;
               later_timers := later_timers s;
               next_later_id := next_later_id s;
               check_calls := check_calls s |}
            (listeners nm)
  end.

(** A [blur] event on input [i]: its [blur] listeners run, each calling the
    check. *)
Definition blur_event (i : nat) (s : Form) : Form :=
  match name_inputs s !! i with
  | None => s
  | Some nm => foldl (λ s _, record_check FromBlur i s) s (listeners nm)
  end.

Inductive FormEvent :=
| Reinitialized
| RowAdded (v : string)
| Edited (i : nat) (v : string)
| Blurred (i : nat)
| Elapsed.

Definition form_handle (e : FormEvent) (s : Form) : Form :=
  match e with
  | Reinitialized => form_initialize s
  | RowAdded v => add_row v s
  | Edited i v => input_event i v s
  | Blurred i => blur_event i s
  | Elapsed => s
  end.

Definition form_step (te : N * FormEvent) (s : Form) : Form :=
  form_handle te.2 (form_advance te.1 s).

Definition form_run (tr : list (N * FormEvent)) (s : Form) : Form :=
  foldl (λ s te, form_step te s) s tr.

(** The form once the script has loaded: [initializeMedicationChecker] has
    run once over the name inputs of the document, holding [values]. *)
Definition form_load (values : list string) : Form :=
  form_initialize
    {| form_now := 0;
       name_inputs := (λ v, {| input_value := v; listeners := [] |}) <$> values;
       closure_timeouts := [];
       later_timers := [];
       next_later_id := 0;
       check_calls := [] |}.

(** The pending timers of closure [c]. *)
Definition laters_of (c : nat) (s : Form) : list LaterTimer :=
  filter (λ tm, later_closure tm = c) (later_timers s).

Definition by_later (c : nat) (x : CheckCall) : bool :=
  match call_from x with
  | FromLater c' => bool_decide (c' = c)
  | FromBlur => false
  end.

(** The calls of the check made by [later] of closure [c]. *)
Definition calls_by_later (c : nat) (s : Form) : list CheckCall :=
  filter (λ x, by_later c x = true) (check_calls s).

Definition is_reinitialized (e : FormEvent) : bool :=
  match e with Reinitialized => true | _ => false end.

(** The number of runs of [reinitializeMedicationChecker] in a trace. *)
Definition reinitializations (tr : list (N * FormEvent)) : nat :=
  length (filter (λ te, is_reinitialized te.2 = true) tr).

(** What holds of every state of the form: timer ids are distinct and
    below the next id, a pending timer is the one its closure's [timeout]
    names, no two closures hold the same id, a pending timer is for an
    input of the document, and listeners call closures that exist. *)
Record form_wf (s : Form) : Prop := {
  fwf_ids : NoDup (later_id <$> later_timers s);
  fwf_fresh : ∀ tm, tm ∈ later_timers s → later_id tm < next_later_id s;
  fwf_owner : ∀ tm, tm ∈ later_timers s →
              closure_timeouts s !! later_closure tm = Some (Some (later_id tm));
  fwf_held : ∀ c n, closure_timeouts s !! c = Some (Some n) → n < next_later_id s;
  fwf_apart : ∀ c1 c2 n, closure_timeouts s !! c1 = Some (Some n) →
              closure_timeouts s !! c2 = Some (Some n) → c1 = c2;
  fwf_input : ∀ tm, tm ∈ later_timers s → is_Some (name_inputs s !! later_input tm);
  fwf_listeners : ∀ i nm c, name_inputs s !! i = Some nm → c ∈ listeners nm →
                  c < length (closure_timeouts s)
}.

(** ** One timer for the whole form

    The reading of the shared timer that counts the form as a whole: at
    most one debounced check is pending across the whole form at any time,
    whatever rows were added and however often the checker was initialised
    again. *)
Definition one_check_pending_form_wide : Prop :=
  ∀ (values : list string) (tr : list (N * FormEvent)),
    length (later_timers (form_run tr (form_load values))) ≤ 1.

(** ** Digits *)




(** ** The suggestion widget (static/js/autocomplete.js)

    One [DrugAutocomplete] per name input: a dropdown under the input, a
    search 300ms after the last keystroke, and a click handler on every
    suggestion shown. *)

(** A suggestion as delivered by [/api/drug-suggest]; the type is optional. *)
Record Suggestion := {
  suggestion_name : string;
  suggestion_type : option string
}.

(** An [.autocomplete-item]: its text, its [data-value], which is also the
    name its click handler writes into the input, and the text of its
    [.autocomplete-type] tag when it has one. *)
Record Item := {
  item_text : string;
  item_value : string;
  item_type : option string
}.

(** [this.container]: its class and its children. *)
Record Dropdown := {
  className : string;
  items : list Item
}.

(** The container the constructor creates. *)
Definition new_dropdown : Dropdown :=
  {| className := "autocomplete-container"; items := [] |}.

(** [hide()] *)
Definition hide (d : Dropdown) : Dropdown :=
  {| className := "autocomplete-container"; items := [] |}.

Definition suggestion_item (sg : Suggestion) : Item :=
  {| item_text := suggestion_name sg;
     item_value := suggestion_name sg;
     item_type := if_truthy (suggestion_type sg) |}.

(** [show(suggestions)] *)
Definition show (suggestions : list Suggestion) (d : Dropdown) : Dropdown :=
  {| className := "autocomplete-container active";
     items := suggestion_item <$> suggestions |}.

(** How the two awaits of a search end: [fetch] rejects, reading the body
    raises, or a body is obtained, with its [success] flag by truthiness and
    its [suggestions] absent ([None]) or an array. *)
Inductive SuggestOutcome :=
| SuggestRejected
| SuggestUnreadable
| SuggestBody (ok : bool) (suggestions : option (list Suggestion)).

(** [search(query)] up to its first [await]: the dropdown it leaves, and the
    query it asks the service about, if any. *)
Definition search (query : string) (d : Dropdown) : Dropdown * option string :=
  if (String.length query <? 2)%nat then (hide d, None) else (d, Some query).

(** The body of the [try] of [search] once the answer is in; reading
    [data.suggestions.length] of an absent list raises. *)
Definition search_try (o : SuggestOutcome) (d : Dropdown) : Res Dropdown :=
  match o with
  | SuggestRejected => Throw
  | SuggestUnreadable => Throw
  | SuggestBody ok suggestions =>
      if ok
      then match suggestions with
           | Some l => if (0 <? length l)%nat then Ok (show l d) else Ok (hide d)
           | None => Throw
           end
      else Ok (hide d)
  end.

(** The rest of [search]: the [try] body, and the [catch] clause when it
    raised. *)
Definition search_resume (o : SuggestOutcome) (d : Dropdown) : Dropdown :=
  match search_try o d with
  | Ok d' => d'
  | Throw => hide d
  end.

(** The click handler of an item of the widget on the name input of row
    [i], the checker being loaded: the name is written into the input, the
    dropdown is closed and [MedChecker.check] is called on the input.  (The
    call of [focus()] runs no handler of these scripts.) *)
Definition select_item (i : nat) (it : Item) (ds : Dropdown * State) : Dropdown * State :=
  if has_input i (page ds.2)
  then (hide ds.1,
        call_check i
          (set_page (update_row i (set_nameInput (Some (item_value it))) (page ds.2))
                    ds.2))
  else ds.

(** A click on an item at time [t]. *)
Definition select_step (t : N) (i : nat) (it : Item) (ds : Dropdown * State)
    : Dropdown * State :=
  select_item i it (ds.1, advance t ds.2).

(** *** The widgets' own timers

    Each widget keeps its own [timeout] variable, in the closure of its
    [bindEvents]. *)

Record Widget := {
  field_value : string;
  dropdown : Dropdown;
  widget_timeout : option nat
}.

(** A pending search timer: the widget whose input it will read. *)
Record SearchTimer := {
  search_id : nat;
  search_deadline : N;
  search_widget : nat
}.

(** The widgets of the page, the clock, the pending search timers in the
    order they were armed, the next timer id, the searches awaiting their
    answer (number of the request, widget), and two logs: the queries sent
    and the calls of [search] (widget, query), oldest first. *)
Record Suggester := {
  clock : N;
  widgets : list Widget;
  search_timers : list SearchTimer;
  next_search_id : nat;
  awaited : list (nat * nat);
  queries : list string;
  searches : list (nat * string)
}.

Definition set_widgets (ws : list Widget) (s : Suggester) : Suggester :=
  {| clock := clock s; widgets := ws; search_timers := search_timers s;
     next_search_id := next_search_id s; awaited := awaited s;
     queries := queries s; searches := searches s |}.

Definition set_field_value (v : string) (w : Widget) : Widget :=
  {| field_value := v; dropdown := dropdown w; widget_timeout := widget_timeout w |}.

Definition set_dropdown (d : Dropdown) (w : Widget) : Widget :=
  {| field_value := field_value w; dropdown := d; widget_timeout := widget_timeout w |}.

Definition set_widget_timeout (o : option nat) (w : Widget) : Widget :=
  {| field_value := field_value w; dropdown := dropdown w; widget_timeout := o |}.

(** [clearTimeout(id)] on the search timers. *)
Definition clear_search (id : option nat) (ts : list SearchTimer) : list SearchTimer :=
  match id with
  | None => ts
  | Some n => filter (λ tm, search_id tm ≠ n) ts
  end.

(** The [input] listener of widget [w], the field now holding [v]: the
    widget's pending timer is cleared and a new one armed for 300ms later. *)
Definition typed (w : nat) (v : string) (s : Suggester) : Suggester :=
  match widgets s !! w with
  | None => s
  | Some wd =>
      {| clock := clock s;
         widgets := <[w := set_widget_timeout (Some (next_search_id s))
                              (set_field_value v wd)]> (widgets s);
         search_timers :=
           clear_search (widget_timeout wd) (search_timers s) ++
           [{| search_id := next_search_id s;
               search_deadline := (clock s + 300)%N;
               search_widget := w |}];
         next_search_id := S (next_search_id s);
         awaited := awaited s; queries := queries s; searches := searches s |}
  end.

(** A search timer fires: [search] is called with the value the input of
    its widget holds then. *)
Definition fire_search (tm : SearchTimer) (s : Suggester) : Suggester :=
  let w := search_widget tm in
  let rest := filter (λ x, search_id x ≠ search_id tm) (search_timers s) in
  match widgets s !! w with
  | None =>
      {| clock := N.max (clock s) (search_deadline tm); widgets := widgets s;
         search_timers := rest; next_search_id := next_search_id s;
         awaited := awaited s; queries := queries s; searches := searches s |}
  | Some wd =>
      let '(d, q) := search (field_value wd) (dropdown wd) in
      {| clock := N.max (clock s) (search_deadline tm);
         widgets := <[w := set_dropdown d wd]> (widgets s);
         search_timers := rest;
         next_search_id := next_search_id s;
         awaited := match q with
                    | Some _ => awaited s ++ [(length (queries s), w)]
                    | None => awaited s
                    end;
         queries := match q with
                    | Some x => queries s ++ [x]
                    | None => queries s
                    end;
         searches := searches s ++ [(w, field_value wd)] |}
  end.

Definition sooner (a b : SearchTimer) : SearchTimer :=
  if (search_deadline b <? search_deadline a)%N then b else a.

Definition next_search (t : N) (ts : list SearchTimer) : option SearchTimer :=
  match filter (λ tm, (search_deadline tm <=? t)%N = true) ts with
  | [] => None
  | tm :: rest => Some (foldl sooner tm rest)
  end.

Fixpoint fire_searches (fuel : nat) (t : N) (s : Suggester) : Suggester :=
  match fuel with
  | O => s
  | S fuel' =>
      match next_search t (search_timers s) with
      | Some tm => fire_searches fuel' t (fire_search tm s)
      | None => s
      end
  end.

(** Time passes until [t]: every search timer due by then fires, in order. *)
Definition pass (t : N) (s : Suggester) : Suggester :=
  let s1 := fire_searches (length (search_timers s)) t s in
  {| clock := N.max (clock s1) t; widgets := widgets s1;
     search_timers := search_timers s1; next_search_id := next_search_id s1;
     awaited := awaited s1; queries := queries s1; searches := searches s1 |}.

(** The answer [o] of search request number [k] arrives. *)
Definition answered (k : nat) (o : SuggestOutcome) (s : Suggester) : Suggester :=
  match list_find (λ c, c.1 = k) (awaited s) with
  | None => s
  | Some (_, (_, w)) =>
      {| clock := clock s;
         widgets := alter (λ wd, set_dropdown (search_resume o (dropdown wd)) wd) w
                      (widgets s);
         search_timers := search_timers s; next_search_id := next_search_id s;
         awaited := filter (λ c, c.1 ≠ k) (awaited s);
         queries := queries s; searches := searches s |}
  end.

(** The [click] listener each widget puts on the document: a click that is
    neither in a widget's dropdown nor on its input closes that dropdown.
    [target] is the widget clicked in or on, if any. *)
Definition clicked (target : option nat) (s : Suggester) : Suggester :=
  set_widgets
    (imap (λ w wd, if decide (target = Some w) then wd
                   else set_dropdown (hide (dropdown wd)) wd)
          (widgets s)) s.

Inductive SuggestEvent :=
| Typed (w : nat) (v : string)
| Answered (k : nat) (o : SuggestOutcome)
| Clicked (target : option nat)
| Idle.

Definition suggest_handle (e : SuggestEvent) (s : Suggester) : Suggester :=
  match e with
  | Typed w v => typed w v s
  | Answered k o => answered k o s
  | Clicked target => clicked target s
  | Idle => s
  end.

Definition suggest_step (te : N * SuggestEvent) (s : Suggester) : Suggester :=
  suggest_handle te.2 (pass te.1 s).

Definition suggest_run (tr : list (N * SuggestEvent)) (s : Suggester) : Suggester :=
  foldl (λ s te, suggest_step te s) s tr.

(** The state once [initializeAutocomplete] has made a widget for each of
    [n] inputs, holding the given values. *)
Definition suggest_boot (values : list string) : Suggester :=
  {| clock := 0;
     widgets := (λ v, {| field_value := v; dropdown := new_dropdown;
                         widget_timeout := None |}) <$> values;
     search_timers := []; next_search_id := 0; awaited := []; queries := [];
     searches := [] |}.

(** The calls of [search] made for widget [w]. *)
Definition searches_of (w : nat) (s : Suggester) : list string :=
  snd <$> filter (λ x, x.1 = w) (searches s).

(** The pending timers of widget [w]. *)
Definition timers_of (w : nat) (s : Suggester) : list SearchTimer :=
  filter (λ tm, search_widget tm = w) (search_timers s).

(** What holds of every state of the widgets: timer ids are distinct and
    below the next id, a pending timer is the one its widget's [timeout]
    names, and no two widgets hold the same id in their [timeout]. *)
Record suggest_wf (s : Suggester) : Prop := {
  swf_ids : NoDup (search_id <$> search_timers s);
  swf_fresh : ∀ tm, tm ∈ search_timers s → search_id tm < next_search_id s;
  swf_owner : ∀ tm, tm ∈ search_timers s →
              ∃ wd, widgets s !! search_widget tm = Some wd ∧
                    widget_timeout wd = Some (search_id tm);
  swf_held : ∀ w wd n, widgets s !! w = Some wd → widget_timeout wd = Some n →
             n < next_search_id s;
  swf_apart : ∀ w1 w2 wd1 wd2 n,
              widgets s !! w1 = Some wd1 → widgets s !! w2 = Some wd2 →
              widget_timeout wd1 = Some n → widget_timeout wd2 = Some n →
              w1 = w2
}.

(** The search of widget [w] is pending, armed at time [t] with the field
    holding [v]. *)
Definition search_armed (w : nat) (t : N) (v : string) (s : Suggester) : Prop :=
  clock s = t ∧
  (∃ wd, widgets s !! w = Some wd ∧ field_value wd = v) ∧
  ∃ tm, timers_of w s = [tm] ∧ search_deadline tm = (t + 300)%N.

(** The numbers of the requests awaited for widget [w]. *)
Definition awaited_of (w : nat) (s : Suggester) : list nat :=
  fst <$> filter (λ c, c.2 = w) (awaited s).

(** What holds of the searches awaited: each has a number of its own, below
    the number of queries sent, and a widget. *)
Definition awaited_wf (s : Suggester) : Prop :=
  NoDup (awaited s).*1 ∧
  ∀ c, c ∈ awaited s → c.1 < length (queries s) ∧ c.2 < length (widgets s).

(** The [input] events of one widget. *)
Definition typed_on (w : nat) (b : list (N * string)) : list (N * SuggestEvent) :=
  (λ tv, (tv.1, Typed w tv.2)) <$> b.

(** Each event comes less than 300ms after the one before, starting from
    time [t]. *)
Fixpoint brisk (t : N) (b : list (N * string)) : Prop :=
  match b with
  | [] => True
  | tv :: b' => (t ≤ tv.1)%N ∧ (tv.1 < t + 300)%N ∧ brisk tv.1 b'
  end.

(** * Properties *)

(** ** Strings and class lists *)

Lemma classList_remove_not_elem names cl c :
  c ∈ names → c ∉ classList_remove names cl.
Proof.
  intros Hc Hin. apply list_elem_of_filter in Hin as [Hn _]. by apply Hn.
Qed.

Lemma classList_add_fresh names cl c :
  c ∈ names →
  classList_add c (classList_remove names cl) = classList_remove names cl ++ [c].
Proof.
  intros Hc. unfold classList_add.
  destruct (decide (c ∈ classList_remove names cl)) as [Hin|]; [|done].
  by apply (classList_remove_not_elem names cl) in Hin.
Qed.

Lemma classList_remove_idemp names cl :
  classList_remove names (classList_remove names cl) = classList_remove names cl.
Proof.
  unfold classList_remove. induction cl as [|c cl IH]; [done|].
  rewrite filter_cons. destruct (decide (c ∉ names)) as [Hc|Hc].
  - rewrite filter_cons. destruct (decide (c ∉ names)); [|done]. by rewrite IH.
  - done.
Qed.

Lemma classList_remove_add names cl c :
  c ∈ names →
  classList_remove names (classList_remove names cl ++ [c]) =
  classList_remove names cl.
Proof.
  intros Hc. unfold classList_remove at 1. rewrite filter_app.
  fold (classList_remove names (classList_remove names cl)).
  rewrite classList_remove_idemp, filter_cons.
  destruct (decide (c ∉ names)); [done|]. by rewrite filter_nil, app_nil_r.
Qed.

Lemma tier_filter_add names cl c :
  c ∈ names →
  filter (λ x, x ∈ names) (classList_remove names cl ++ [c]) = [c].
Proof.
  intros Hc. rewrite filter_app, filter_cons.
  destruct (decide (c ∈ names)); [|done]. rewrite filter_nil.
  assert (filter (λ x, x ∈ names) (classList_remove names cl) = []) as ->; [|done].
  unfold classList_remove. induction cl as [|x cl IH]; [done|].
  rewrite filter_cons. destruct (decide (x ∉ names)) as [Hx|Hx]; [|done].
  rewrite filter_cons. destruct (decide (x ∈ names)); [done|exact IH].
Qed.

Lemma rest_filter_add names cl c :
  c ∈ names →
  filter (λ x, x ∉ names) (classList_remove names cl ++ [c]) =
  filter (λ x, x ∉ names) cl.
Proof. intros Hc. by apply classList_remove_add. Qed.

Lemma tier_of_elem warnings : tier_of warnings ∈ tier_classes.
Proof.
  unfold tier_of, tier_classes.
  destruct warnings as [[|w ws]|]; repeat case_match; repeat constructor.
Qed.

Lemma updateRowStyling_classList r warnings :
  classList (updateRowStyling r warnings) =
  classList_remove tier_classes (classList r) ++ [tier_of warnings].
Proof.
  rewrite <- (classList_add_fresh _ _ _ (tier_of_elem warnings)).
  unfold updateRowStyling, tier_of.
  destruct warnings as [[|w ws]|]; repeat case_match; done.
Qed.

Lemma updateRowStyling_container r warnings :
  warningContainer (updateRowStyling r warnings) = warningContainer r.
Proof.
  unfold updateRowStyling. destruct warnings as [[|w ws]|]; repeat case_match; done.
Qed.

Lemma some_severity_spec sev ws :
  some_severity sev ws = true ↔ ∃ w, w ∈ ws ∧ severity w = Some sev.
Proof.
  unfold some_severity. rewrite existsb_exists. split.
  - intros (w & Hin & Hw). exists w. split; [by apply list_elem_of_In|].
    by apply bool_decide_eq_true in Hw.
  - intros (w & Hin & Hw). exists w. split; [by apply list_elem_of_In|].
    by apply bool_decide_eq_true.
Qed.

(** ** Rendering *)

Lemma renderWarnings_Ok ws :
  Forall (λ w, is_Some (severity w)) ws →
  ∃ bs, renderWarnings ws = Ok bs ∧ Forall2 card_of ws bs ∧
        Forall (λ b, block_animation b = None) bs.
Proof.
  induction 1 as [|w ws [sev Hsev] _ (bs & Hbs & Hcards & Hanim)].
  - exists []. by repeat split; constructor.
  - simpl. unfold renderWarning at 1. rewrite Hsev. simpl. rewrite Hbs. simpl.
    eexists. split; [done|]. split; constructor; try done.
    unfold card_of. simpl. by rewrite Hsev.
Qed.

Lemma renderWarnings_Throw ws :
  renderWarnings ws = Throw ↔
  existsb (fun w => bool_decide (severity w = None)) ws = true.
Proof.
  induction ws as [|w ws IH]; simpl; [done|].
  unfold renderWarning at 1. destruct (severity w) as [sev|] eqn:Hsev; simpl.
  - rewrite <- IH. destruct (renderWarnings ws); simpl; [done|done].
  - done.
Qed.

Lemma animate_cards ws bs :
  Forall2 card_of ws bs → Forall2 card_of ws (animate bs).
Proof.
  intros H. apply Forall2_same_length_lookup. unfold animate. split.
  - rewrite length_imap. by eapply Forall2_length.
  - intros k w b Hw Hb. rewrite list_lookup_imap in Hb.
    destruct (bs !! k) as [b0|] eqn:Hb0; [|done]. simpl in Hb.
    injection Hb as <-. exact (Forall2_lookup_lr _ _ _ _ _ _ H Hw Hb0).
Qed.

Lemma animate_index bs k b :
  animate bs !! k = Some b → block_animation b = Some k.
Proof.
  unfold animate. rewrite list_lookup_imap.
  destruct (bs !! k); [|done]. simpl. by intros [= <-].
Qed.

Lemma displayWarnings_cards (c : Container) (ws : list Warning) (sf : bool) :
  ws ≠ [] →
  Forall (λ w, is_Some (severity w)) ws →
  ∃ bs, displayWarnings c (Some ws) sf =
          Ok ({| innerHTML := Cards bs; display := "block" |}, false) ∧
        Forall2 card_of ws bs ∧
        ∀ k b, bs !! k = Some b → block_animation b = Some k.
Proof.
  intros Hne Hsev. destruct (renderWarnings_Ok ws Hsev) as (bs & Hbs & Hcards & _).
  exists (animate bs). split; [|split].
  - unfold displayWarnings. destruct ws as [|w ws']; [done|].
    rewrite Hbs. reflexivity.
  - by apply animate_cards.
  - apply animate_index.
Qed.

(** C2 (as stated): the cards are not put in severity order.  A low warning
    delivered before a high one is rendered before it. *)
Lemma rendering_not_severity_sorted : ¬ rendering_is_severity_sorted.
Proof.
  intros H. specialize (H new_container [warn_low; warn_high] false).
  vm_compute in H. specialize (H ltac:(discriminate)). discriminate H.
Qed.

(** C2 (amended): a successful result with at least one warning is rendered
    card by card in the order the service delivered the warnings: the k-th
    card shows the k-th warning, and the surface is made visible.  Nothing
    is reordered. *)
Theorem displayWarnings_delivery_order (c : Container) (ws : list Warning) (sf : bool) :
  ws ≠ [] →
  Forall (λ w, is_Some (severity w)) ws →
  ∃ bs, displayWarnings c (Some ws) sf =
          Ok ({| innerHTML := Cards bs; display := "block" |}, false) ∧
        Forall2 card_of ws bs ∧
        ∀ k b, bs !! k = Some b → block_animation b = Some k.
Proof. apply displayWarnings_cards. Qed.

Lemma displayWarnings_delivery_order_witness :
  ∃ bs, displayWarnings loading (Some [warn_low; warn_high]) false =
          Ok ({| innerHTML := Cards bs; display := "block" |}, false) ∧
        Forall2 card_of [warn_low; warn_high] bs ∧
        ∀ k b, bs !! k = Some b → block_animation b = Some k.
Proof.
  apply (displayWarnings_delivery_order loading [warn_low; warn_high] false).
  - discriminate.
  - repeat constructor; by eexists.
Defined.

(** C3: an answer that succeeds with no warning and is not flagged safe
    hides the surface, shows no error, and yet marks the row [is-safe]:
    [updateRowStyling] is not told of the flag [displayWarnings] honours. *)
Theorem unknown_medication_marked_safe (r : Row) (ws : option (list Warning)) :
  ws = None ∨ ws = Some [] →
  let res := resume_row (Body {| success := true; warnings := ws; safe := false |}) r in
  warningContainer res.1 = set_display "none" <$> warningContainer r ∧
  classList res.1 = classList_remove tier_classes (classList r) ++ ["is-safe"] ∧
  "is-safe" ∈ classList res.1 ∧
  res.2 = false.
Proof.
  intros Hws. simpl.
  assert (resume_row (Body {| success := true; warnings := ws; safe := false |}) r
          = (updateRowStyling (map_container (λ _, set_display "none" (row_surface r)) r) ws,
             false)) as ->.
  { by destruct Hws as [-> | ->]. }
  simpl. rewrite updateRowStyling_container, updateRowStyling_classList.
  assert (tier_of ws = "is-safe") as -> by (by destruct Hws as [-> | ->]).
  repeat split.
  - unfold map_container, row_surface. simpl. by destruct (warningContainer r).
  - apply elem_of_app. right. constructor.
Qed.

Lemma unknown_medication_marked_safe_witness :
  let res := resume_row (Body {| success := true; warnings := Some []; safe := false |})
               (checking_row "asdfghjkl") in
  warningContainer res.1 = set_display "none" <$> warningContainer (checking_row "asdfghjkl") ∧
  classList res.1 =
    classList_remove tier_classes (classList (checking_row "asdfghjkl")) ++ ["is-safe"] ∧
  "is-safe" ∈ classList res.1 ∧
  res.2 = false.
Proof.
  apply (unknown_medication_marked_safe (checking_row "asdfghjkl") (Some [])).
  right. reflexivity.
Defined.

(** ** Snapshot readers *)

Lemma parse_default_missing d :
  parseInt (js_or (opt_value None) (VNum (Num d))) = Num d.
Proof. reflexivity. Qed.

Lemma parse_default_empty d :
  parseInt (js_or (opt_value (Some "")) (VNum (Num d))) = Num d.
Proof. reflexivity. Qed.


Lemma row_medication_default_doses r m :
  dosesInput r = None ∨ dosesInput r = Some "" →
  row_medication r = Some m → doses_per_day m = Num 1.
Proof.
  unfold row_medication. intros Hd Hm.
  destruct (nameInput r) as [v|]; [|done].
  destruct (nonempty (trim v)); [|done].
  injection Hm as <-. simpl. by destruct Hd as [-> | ->].
Qed.

Lemma getPatientAge_default p :
  (ageById p = None ∨ ageById p = Some "") →
  (ageById p = None → ageByName p = None ∨ ageByName p = Some "") →
  getPatientAge p = Num 65.
Proof.
  unfold getPatientAge. intros [H1 | H1] H2; rewrite H1; [|done].
  by destruct (H2 H1) as [-> | ->].
Qed.

(** C4: a doses field or an age field holding text that is not a number is
    read as [NaN], not as the default: the fallback sits inside [parseInt],
    where it only catches an absent or empty value. *)
Theorem snapshot_reads_NaN :
  getCurrentMedications garbled_page = [{| name := "aspirin"; doses_per_day := NaN |}] ∧
  getPatientAge garbled_page = NaN ∧
  is_integer (getPatientAge garbled_page) = false ∧
  (checkMedicationRealtime 0 garbled_page).2 =
    Some {| medication_name := "aspirin"; existing_medications := []; age := NaN |}.
Proof. by vm_compute. Qed.

(** ** The response handler *)

Lemma resume_row_caught o r :
  caught o = true →
  resume_row o r =
  (map_container (set_innerHTML (ErrorNotice "Unable to check medication")) r, false).
Proof.
  destruct o as [| |d]; [done|done|]. simpl. intros [Hs Hu]%andb_true_iff.
  unfold resume_row, resume_try. rewrite Hs.
  unfold unrenderable in Hu. destruct (warnings d) as [ws|] eqn:Hws; [|done].
  apply renderWarnings_Throw in Hu. unfold displayWarnings.
  destruct ws as [|w ws]; [done|]. by rewrite Hu.
Qed.

Lemma resume_row_non_success o r :
  non_success o = true →
  resume_row o r =
  (map_container (set_innerHTML (ErrorNotice "Error checking medication")) r, false).
Proof.
  destruct o as [| |d]; [done|done|]. simpl. intros Hs%negb_true_iff.
  unfold resume_row, resume_try. by rewrite Hs.
Qed.

(** A successful answer whose warnings can all be rendered. *)
Lemma resume_row_success d r :
  success d = true → unrenderable d = false →
  ∃ c armed,
    displayWarnings (row_surface r) (warnings d) (safe d) = Ok (c, armed) ∧
    resume_row (Body d) r =
    (updateRowStyling (map_container (λ _, c) r) (warnings d), armed).
Proof.
  intros Hs Hu. unfold resume_row, resume_try. rewrite Hs.
  destruct (displayWarnings (row_surface r) (warnings d) (safe d))
    as [[c armed]|] eqn:Hd.
  - by exists c, armed.
  - exfalso. unfold displayWarnings, unrenderable in *.
    destruct (warnings d) as [[|w ws]|]; try by destruct (safe d).
    destruct (renderWarnings (w :: ws)) eqn:Hr; [done|].
    apply renderWarnings_Throw in Hr. congruence.
Qed.

(** C7 (as stated): not every failed check ends in an error notice with the
    row's classes untouched.  An answer with the success flag but without
    its warnings hides the surface and marks the row [is-safe]. *)
Lemma failure_without_notice : ¬ failure_shows_notice_only.
Proof.
  intros H.
  destruct (H (Body {| success := true; warnings := None; safe := false |})
              (checking_row "warfarin") loading eq_refl (or_intror eq_refl))
    as (c' & Hc & [msg Hmsg] & _).
  vm_compute in Hc. injection Hc as <-. discriminate Hmsg.
Qed.

(** C7 (amended): when [fetch] rejects, the body cannot be read, or a
    warning of a successful answer cannot be rendered, the surface's content
    is replaced by the one notice "Unable to check medication"; when the
    answer lacks the success flag, by the one notice "Error checking
    medication".  In both cases the row's classes are left as they were, no
    timer is armed, and the handler returns normally. *)
Theorem failed_check_notice (o : Outcome) (r : Row) :
  caught o = true ∨ non_success o = true →
  let msg := if caught o then "Unable to check medication"
             else "Error checking medication" in
  resume_row o r = (map_container (set_innerHTML (ErrorNotice msg)) r, false) ∧
  warningContainer (resume_row o r).1 =
    set_innerHTML (ErrorNotice msg) <$> warningContainer r ∧
  classList (resume_row o r).1 = classList r.
Proof.
  intros [Hc | Hn]; simpl.
  - rewrite Hc. by rewrite (resume_row_caught o r Hc).
  - assert (caught o = false) as ->.
    { destruct o as [| |d]; try done. simpl in *.
      apply negb_true_iff in Hn. by rewrite Hn. }
    by rewrite (resume_row_non_success o r Hn).
Qed.

Lemma failed_check_notice_witness :
  resume_row FetchRejected (checking_row "warfarin") =
    (map_container (set_innerHTML (ErrorNotice "Unable to check medication"))
       (checking_row "warfarin"), false) ∧
  warningContainer (resume_row FetchRejected (checking_row "warfarin")).1 =
    set_innerHTML (ErrorNotice "Unable to check medication")
      <$> warningContainer (checking_row "warfarin") ∧
  classList (resume_row FetchRejected (checking_row "warfarin")).1 =
    classList (checking_row "warfarin").
Proof.
  apply (failed_check_notice FetchRejected (checking_row "warfarin")).
  left. reflexivity.
Defined.

Lemma tier_count_after_styling r warnings :
  filter (λ c, c ∈ tier_classes) (classList (updateRowStyling r warnings)) =
  [tier_of warnings].
Proof.
  rewrite updateRowStyling_classList. apply tier_filter_add, tier_of_elem.
Qed.

Lemma updateRowStyling_twice r c warnings :
  rendered (updateRowStyling
              (map_container (λ _, c) (updateRowStyling (map_container (λ _, c) r) warnings))
              warnings) =
  rendered (updateRowStyling (map_container (λ _, c) r) warnings).
Proof.
  unfold rendered. f_equal.
  - rewrite !updateRowStyling_container. simpl.
    rewrite updateRowStyling_container. simpl. by destruct (warningContainer r).
  - rewrite !updateRowStyling_classList. simpl.
    rewrite updateRowStyling_classList. simpl.
    by rewrite (classList_remove_add _ _ _ (tier_of_elem warnings)).
Qed.

Lemma displayWarnings_again c ws sf c' armed :
  displayWarnings c ws sf = Ok (c', armed) →
  displayWarnings c' ws sf = Ok (c', armed).
Proof.
  unfold displayWarnings. destruct ws as [[|w ws]|].
  - destruct sf; intros [= <- <-]; done.
  - destruct (renderWarnings (w :: ws)); simpl; [|done]. intros [= <- <-]. done.
  - destruct sf; intros [= <- <-]; done.
Qed.

(** C8: handing the same answer to a row a second time leaves what is
    rendered, surface and classes, as the first time left it; and an answer
    never leaves the row with more styling classes than one, or than it had. *)
Theorem apply_twice_same_rendering (o : Outcome) (r : Row) :
  rendered (resume_row o (resume_row o r).1).1 = rendered (resume_row o r).1 ∧
  (resume_row o (resume_row o r).1).2 = (resume_row o r).2 ∧
  length (filter (λ c, c ∈ tier_classes) (classList (resume_row o r).1)) ≤
    Nat.max 1 (length (filter (λ c, c ∈ tier_classes) (classList r))).
Proof.
  destruct (caught o) eqn:Hc; [|destruct (non_success o) eqn:Hn].
  - rewrite !(resume_row_caught o _ Hc). simpl. repeat split; [|lia].
    unfold rendered. simpl. by destruct (warningContainer r).
  - rewrite !(resume_row_non_success o _ Hn). simpl. repeat split; [|lia].
    unfold rendered. simpl. by destruct (warningContainer r).
  - destruct o as [| |d]; [done|done|]. simpl in Hc, Hn.
    apply negb_false_iff in Hn. rewrite Hn in Hc. simpl in Hc.
    destruct (resume_row_success d r Hn Hc) as (c & armed & Hd & ->). simpl.
    destruct (resume_row_success d
                (updateRowStyling (map_container (λ _, c) r) (warnings d)) Hn Hc)
      as (c2 & armed2 & Hd2 & ->). simpl.
    assert (armed2 = armed ∧
            rendered (updateRowStyling
              (map_container (λ _, c2)
                 (updateRowStyling (map_container (λ _, c) r) (warnings d)))
              (warnings d)) =
            rendered (updateRowStyling (map_container (λ _, c) r) (warnings d)))
      as [-> ->].
    { unfold row_surface in Hd2. rewrite updateRowStyling_container in Hd2.
      simpl in Hd2. destruct (warningContainer r) eqn:Hwc; simpl in Hd2.
      - apply displayWarnings_again in Hd. rewrite Hd in Hd2.
        injection Hd2 as <- <-. split; [done|]. apply updateRowStyling_twice.
      - unfold row_surface in Hd. rewrite Hwc in Hd. simpl in Hd.
        rewrite Hd in Hd2. injection Hd2 as <- <-. split; [done|].
        apply updateRowStyling_twice. }
    repeat split. rewrite tier_count_after_styling. simpl. lia.
Qed.

(** C10: a successful answer with at least one warning leaves the row with
    exactly one styling class, the one of the highest severity among the
    warnings, whatever styling classes it had; its other classes stay. *)
Theorem row_tier_is_highest_severity (r : Row) (ws : list Warning) (sf : bool) :
  ws ≠ [] →
  Forall (λ w, is_Some (severity w)) ws →
  let r' := (resume_row (answer ws sf) r).1 in
  ∃ tier,
    filter (λ c, c ∈ tier_classes) (classList r') = [tier] ∧
    filter (λ c, c ∉ tier_classes) (classList r') =
      filter (λ c, c ∉ tier_classes) (classList r) ∧
    ((∃ w, w ∈ ws ∧ severity w = Some "high") → tier = "has-high-warning") ∧
    (¬ (∃ w, w ∈ ws ∧ severity w = Some "high") →
     (∃ w, w ∈ ws ∧ severity w = Some "moderate") → tier = "has-moderate-warning") ∧
    (¬ (∃ w, w ∈ ws ∧ severity w = Some "high") →
     ¬ (∃ w, w ∈ ws ∧ severity w = Some "moderate") → tier = "has-low-warning").
Proof.
  intros Hne Hsev. simpl.
  set (d := {| success := true; warnings := Some ws; safe := sf |}).
  assert (unrenderable d = false) as Hu.
  { simpl. apply not_true_iff_false. intros Hex%renderWarnings_Throw.
    destruct (renderWarnings_Ok ws Hsev) as (bs & Hbs & _). congruence. }
  destruct (resume_row_success d r eq_refl Hu) as (c & armed & _ & Hres).
  unfold answer. fold d. rewrite Hres. cbn [fst].
  change (warnings d) with (Some ws).
  exists (tier_of (Some ws)). split; [apply tier_count_after_styling|].
  split.
  { rewrite updateRowStyling_classList. cbn [map_container set_container classList].
    apply rest_filter_add, tier_of_elem. }
  unfold tier_of. destruct ws as [|w ws']; [done|].
  destruct (some_severity "high" (w :: ws')) eqn:Hh.
  - apply some_severity_spec in Hh.
    split; [done|]. split; intros Hnh; by destruct Hnh.
  - assert (¬ ∃ w0, w0 ∈ w :: ws' ∧ severity w0 = Some "high") as Hnh.
    { intros Hex%some_severity_spec. congruence. }
    destruct (some_severity "moderate" (w :: ws')) eqn:Hm.
    + apply some_severity_spec in Hm.
      split; [done|]. split; [done|]. intros _ Hnm. by destruct Hnm.
    + assert (¬ ∃ w0, w0 ∈ w :: ws' ∧ severity w0 = Some "moderate") as Hnm.
      { intros Hex%some_severity_spec. congruence. }
      split; [done|]. split; done.
Qed.

Lemma row_tier_is_highest_severity_witness :
  let r' := (resume_row (answer [warn_low; warn_high; warn_moderate] false)
               (checking_row "diphenhydramine")).1 in
  ∃ tier,
    filter (λ c, c ∈ tier_classes) (classList r') = [tier] ∧
    filter (λ c, c ∉ tier_classes) (classList r') =
      filter (λ c, c ∉ tier_classes) (classList (checking_row "diphenhydramine")) ∧
    ((∃ w, w ∈ [warn_low; warn_high; warn_moderate] ∧ severity w = Some "high") →
     tier = "has-high-warning") ∧
    (¬ (∃ w, w ∈ [warn_low; warn_high; warn_moderate] ∧ severity w = Some "high") →
     (∃ w, w ∈ [warn_low; warn_high; warn_moderate] ∧ severity w = Some "moderate") →
     tier = "has-moderate-warning") ∧
    (¬ (∃ w, w ∈ [warn_low; warn_high; warn_moderate] ∧ severity w = Some "high") →
     ¬ (∃ w, w ∈ [warn_low; warn_high; warn_moderate] ∧ severity w = Some "moderate") →
     tier = "has-low-warning").
Proof.
  apply (row_tier_is_highest_severity (checking_row "diphenhydramine")
           [warn_low; warn_high; warn_moderate] false).
  - discriminate.
  - repeat constructor; by eexists.
Defined.

(** ** The first part of the check *)

Lemma update_row_lookup i f p :
  rows (update_row i f p) !! i = f <$> rows p !! i.
Proof. unfold update_row. simpl. apply list_lookup_alter_eq. Qed.

Lemma update_row_lookup_ne i j f p :
  i ≠ j → rows (update_row i f p) !! j = rows p !! j.
Proof. unfold update_row. simpl. by apply list_lookup_alter_ne. Qed.

Lemma checkMedicationRealtime_empty i p v :
  rows p !! i ≫= nameInput = Some v →
  nonempty (trim v) = false →
  checkMedicationRealtime i p =
  (update_row i (map_container (λ c, set_display "none" (set_innerHTML Empty c)))
     (update_row i ensure_container p), None).
Proof. intros Hv Hn. unfold checkMedicationRealtime. by rewrite Hv, Hn. Qed.

Lemma checkMedicationRealtime_request i p v :
  rows p !! i ≫= nameInput = Some v →
  nonempty (trim v) = true →
  ∃ p' req, checkMedicationRealtime i p = (p', Some req) ∧
            medication_name req = trim v.
Proof.
  intros Hv Hn. unfold checkMedicationRealtime. rewrite Hv, Hn.
  by eexists _, _.
Qed.

(** C9: a check on a field whose trimmed value is empty sends nothing, awaits
    nothing and arms no timer; it leaves the row's surface empty and hidden
    (never showing the loader), and the row's classes and fields as they
    were. *)
Theorem empty_input_clears_without_request (s : State) (i : nat) (r : Row) (v : string) :
  rows (page s) !! i = Some r →
  nameInput r = Some v →
  trim v = "" →
  (checkMedicationRealtime i (page s)).2 = None ∧
  sent (call_check i s) = sent s ∧
  inflight (call_check i s) = inflight s ∧
  timers (call_check i s) = timers s ∧
  rows (page (call_check i s)) !! i =
    Some (set_container (Some {| innerHTML := Empty; display := "none" |}) r).
Proof.
  intros Hr Hv Ht.
  assert (rows (page s) !! i ≫= nameInput = Some v) as Hin by (by rewrite Hr).
  assert (nonempty (trim v) = false) as Hn by (by rewrite Ht).
  unfold call_check. rewrite (checkMedicationRealtime_empty _ _ _ Hin Hn). simpl.
  repeat split. rewrite !list_lookup_alter_eq, Hr. clear.
  by destruct r as [n d [c|] cl].
Qed.

Lemma empty_input_clears_without_request_witness :
  (checkMedicationRealtime 2 (page (boot sample_page))).2 = None ∧
  sent (call_check 2 (boot sample_page)) = sent (boot sample_page) ∧
  inflight (call_check 2 (boot sample_page)) = inflight (boot sample_page) ∧
  timers (call_check 2 (boot sample_page)) = timers (boot sample_page) ∧
  rows (page (call_check 2 (boot sample_page))) !! 2 =
    Some (set_container (Some {| innerHTML := Empty; display := "none" |})
            (row_of "  " "1")).
Proof.
  apply (empty_input_clears_without_request (boot sample_page) 2 (row_of "  " "1") "  ");
    reflexivity.
Defined.

(** ** Timers *)

Lemma NoDup_fmap_filter {A B} (f : A → B) (P : A → Prop) `{!∀ x, Decision (P x)}
    (l : list A) :
  NoDup (f <$> l) → NoDup (f <$> filter P l).
Proof.
  induction l as [|a l IH]; [done|]. rewrite fmap_cons, NoDup_cons.
  intros [Ha Hnd]. rewrite filter_cons. destruct (decide (P a)); [|by apply IH].
  rewrite fmap_cons. apply NoDup_cons. split; [|by apply IH].
  intros (x & Hx & Hin%list_elem_of_filter)%list_elem_of_fmap. apply Ha.
  rewrite Hx. apply list_elem_of_fmap_2. by destruct Hin.
Qed.

Lemma NoDup_fmap_eq {A B} (f : A → B) (l : list A) x y :
  NoDup (f <$> l) → x ∈ l → y ∈ l → f x = f y → x = y.
Proof.
  induction l as [|a l IH]; intros Hnd Hx Hy Hf; [by apply elem_of_nil in Hx|].
  rewrite fmap_cons in Hnd. apply NoDup_cons in Hnd as [Ha Hnd].
  apply elem_of_cons in Hx as [->|Hx]; apply elem_of_cons in Hy as [->|Hy].
  - done.
  - exfalso. apply Ha. rewrite Hf. by apply list_elem_of_fmap_2.
  - exfalso. apply Ha. rewrite <- Hf. by apply list_elem_of_fmap_2.
  - by apply IH.
Qed.

Lemma earlier_cases a b : earlier a b = a ∨ earlier a b = b.
Proof. unfold earlier. destruct (deadline b <? deadline a)%N; auto. Qed.

Lemma foldl_earlier_elem tm rest : foldl earlier tm rest ∈ tm :: rest.
Proof.
  revert tm. induction rest as [|x rest IH]; intros tm; simpl; [constructor|].
  specialize (IH (earlier tm x)). apply elem_of_cons in IH as [->|IH].
  - destruct (earlier_cases tm x) as [-> | ->]; repeat constructor.
  - by do 2 constructor.
Qed.

Lemma next_due_Some t ts tm :
  next_due t ts = Some tm → tm ∈ ts ∧ (deadline tm ≤ t)%N.
Proof.
  unfold next_due.
  destruct (filter _ ts) as [|x rest] eqn:Hf; [done|]. intros [= <-].
  pose proof (foldl_earlier_elem x rest) as Hin. rewrite <- Hf in Hin.
  apply list_elem_of_filter in Hin as [Hd Hin]. split; [done|].
  by apply N.leb_le.
Qed.

Lemma next_due_None t ts tm :
  next_due t ts = None → tm ∈ ts → (t < deadline tm)%N.
Proof.
  unfold next_due. destruct (filter _ ts) as [|x rest] eqn:Hf; [|done].
  intros _ Hin. destruct (deadline tm <=? t)%N eqn:Hd.
  - assert (tm ∈ filter (λ tm, (deadline tm <=? t)%N = true) ts) as Hin'
      by (by apply list_elem_of_filter).
    rewrite Hf in Hin'. by apply elem_of_nil in Hin'.
  - by apply N.leb_gt.
Qed.

(** ** Rows keep their fields and their surface *)

Lemma names_update_row i f p :
  (∀ r, nameInput (f r) = nameInput r) →
  names (update_row i f p) = names p.
Proof.
  intros Hf. unfold names, update_row. simpl.
  apply list_eq. intros j. rewrite !list_lookup_fmap.
  destruct (decide (i = j)) as [->|Hij].
  - rewrite list_lookup_alter_eq. destruct (rows p !! j); simpl; [|done].
    by rewrite Hf.
  - by rewrite list_lookup_alter_ne.
Qed.

Lemma names_lookup p i : rows p !! i ≫= nameInput = names p !! i ≫= id.
Proof. unfold names. rewrite list_lookup_fmap. by destruct (rows p !! i). Qed.

Lemma has_input_names p p' i :
  names p = names p' → has_input i p = has_input i p'.
Proof. intros H. unfold has_input. by rewrite !names_lookup, H. Qed.

Lemma surface_update_row i j f p :
  keeps_surface f →
  (∃ r, rows p !! j = Some r ∧ is_Some (warningContainer r)) →
  ∃ r, rows (update_row i f p) !! j = Some r ∧ is_Some (warningContainer r).
Proof.
  intros Hf (r & Hr & Hc). destruct (decide (i = j)) as [->|Hij].
  - exists (f r). rewrite update_row_lookup, Hr. split; [done|]. by apply Hf.
  - exists r. by rewrite update_row_lookup_ne.
Qed.

Lemma keeps_surface_map_container f : keeps_surface (map_container f).
Proof. intros r [c Hc]. unfold map_container. simpl. rewrite Hc. by eexists. Qed.

Lemma keeps_surface_ensure : keeps_surface ensure_container.
Proof. intros r [c Hc]. unfold ensure_container. rewrite Hc. by eexists. Qed.

Lemma keeps_surface_set_nameInput v : keeps_surface (set_nameInput v).
Proof. by intros r Hc. Qed.

(** The first part of a check touches nothing but the surface of its row. *)
Lemma checkMedicationRealtime_page i p :
  ∃ f, (checkMedicationRealtime i p).1 = update_row i f p ∧
       keeps_surface f ∧
       (∀ r, nameInput (f r) = nameInput r) ∧
       (is_Some (checkMedicationRealtime i p).2 →
        ∃ r, rows p !! i = Some r ∧ is_Some (warningContainer (f r))).
Proof.
  unfold checkMedicationRealtime.
  destruct (rows p !! i ≫= nameInput) as [v|] eqn:Hv.
  - destruct (nonempty (trim v)); simpl.
    + eexists (λ r, map_container _ (ensure_container r)). split; [|split; [|split]].
      * unfold update_row. simpl. by rewrite list_alter_alter_eq.
      * intros r Hr. by apply keeps_surface_map_container, keeps_surface_ensure.
      * intros r. unfold ensure_container. by destruct (warningContainer r).
      * intros _. destruct (rows p !! i) as [r|]; [|done]. exists r.
        split; [done|]. unfold ensure_container, map_container.
        destruct (warningContainer r) eqn:Hc; simpl; rewrite ?Hc; by eexists.
    + eexists (λ r, map_container _ (ensure_container r)). split; [|split; [|split]].
      * unfold update_row. simpl. by rewrite list_alter_alter_eq.
      * intros r Hr. by apply keeps_surface_map_container, keeps_surface_ensure.
      * intros r. unfold ensure_container. by destruct (warningContainer r).
      * by intros [? ?].
  - exists id. simpl. split; [|split; [|split]]; try done.
    + unfold update_row. rewrite list_alter_id by done. by destruct p.
    + by intros [? ?].
Qed.

(** ** The invariant of the loop *)

Lemma wf_boot p : wf (boot p).
Proof.
  constructor; simpl; try constructor; intros ? Hin; by apply elem_of_nil in Hin.
Qed.

Lemma wf_set_now t s : wf s → wf (set_now t s).
Proof. intros []. by constructor. Qed.

Lemma wf_set_timers_filter (P : Timer → Prop) `{!∀ x, Decision (P x)} s :
  wf s → wf (set_timers (filter P (timers s)) s).
Proof.
  intros []. constructor; simpl; try done.
  - by apply NoDup_fmap_filter.
  - intros tm [_ Hin]%list_elem_of_filter. auto.
  - intros tm [_ Hin]%list_elem_of_filter. auto.
Qed.

Lemma wf_clearTimeout o s : wf s → wf (clearTimeout o s).
Proof. destruct o; simpl; [|done]. apply wf_set_timers_filter. Qed.

Lemma wf_set_page p s :
  (∀ c, c ∈ inflight s →
        ∃ r, rows p !! c.2 = Some r ∧ is_Some (warningContainer r)) →
  wf s → wf (set_page p s).
Proof. intros Hp []. by constructor. Qed.

Lemma wf_update_row i f s :
  keeps_surface f → wf s → wf (set_page (update_row i f (page s)) s).
Proof.
  intros Hf Hwf. apply wf_set_page; [|done].
  intros c Hc. apply surface_update_row; [done|]. by apply (wf_inflight_row s).
Qed.

Lemma wf_setTimeout_Hide i w s : wf s → wf (setTimeout (Hide i) w s).2.
Proof.
  intros []. constructor; simpl; try done.
  - rewrite fmap_app. apply NoDup_app. split; [done|]. split; [|apply NoDup_singleton].
    intros x (tm & -> & Hin)%list_elem_of_fmap Hx. simpl in Hx.
    apply list_elem_of_singleton in Hx. specialize (wf_fresh0 tm Hin). lia.
  - intros tm [Hin|Hin]%elem_of_app.
    + specialize (wf_fresh0 tm Hin). lia.
    + apply list_elem_of_singleton in Hin as ->. simpl. lia.
  - intros tm [Hin|Hin]%elem_of_app; [by auto|].
    by apply list_elem_of_singleton in Hin as ->.
Qed.

Lemma wf_call_check i s : wf s → wf (call_check i s).
Proof.
  intros Hwf. unfold call_check.
  destruct (checkMedicationRealtime_page i (page s)) as (f & Hp & Hf & _ & Hreq).
  destruct (checkMedicationRealtime i (page s)) as [p' req]. simpl in Hp, Hreq.
  subst p'. destruct Hwf. constructor; simpl; try done.
  - destruct req as [r|]; [|done].
    rewrite fmap_app. apply NoDup_app. split; [done|]. split; [|apply NoDup_singleton].
    intros x (c & -> & Hin)%list_elem_of_fmap Hx. simpl in Hx.
    apply list_elem_of_singleton in Hx. specialize (wf_inflight_sent0 c Hin). lia.
  - destruct req as [r|]; [|done]. rewrite length_app. simpl.
    intros c [Hin|Hin]%elem_of_app.
    + specialize (wf_inflight_sent0 c Hin). lia.
    + apply list_elem_of_singleton in Hin as ->. simpl. lia.
  - assert (∀ c, c ∈ inflight s →
              ∃ r, rows (update_row i f (page s)) !! c.2 = Some r ∧
                   is_Some (warningContainer r)) as Hold.
    { intros c Hc. apply surface_update_row; auto. }
    destruct req as [r|]; [|done].
    intros c [Hin|Hin]%elem_of_app; [by auto|].
    apply list_elem_of_singleton in Hin as ->. simpl.
    destruct Hreq as (r0 & Hr0 & Hs); [by eexists|].
    exists (f r0). split; [|done].
    pose proof (update_row_lookup i f (page s)) as Hl. rewrite Hr0 in Hl. exact Hl.
Qed.

Lemma filter_none {A} (P : A → Prop) `{!∀ x, Decision (P x)} (l : list A) :
  (∀ x, x ∈ l → ¬ P x) → filter P l = [].
Proof.
  intros Hl. apply elem_of_nil_inv. intros x [HP Hin]%list_elem_of_filter.
  by apply (Hl x).
Qed.

Lemma pending_clear s : wf s → pending_checks (clearTimeout (timeout s) s) = [].
Proof.
  intros Hwf. unfold pending_checks. apply filter_none. intros tm Hin Hl.
  destruct (timeout s) as [n|] eqn:Ht; simpl in Hin.
  - apply list_elem_of_filter in Hin as [Hn Hin].
    pose proof (wf_later s Hwf tm Hin Hl) as Heq. congruence.
  - pose proof (wf_later s Hwf tm Hin Hl) as Heq. congruence.
Qed.

Lemma debouncedCheck_pending i s :
  wf s →
  pending_checks (debouncedCheck i s) =
  [{| timer_id := next_timer s; deadline := (now s + 800)%N; action := Later i |}].
Proof.
  intros Hwf. unfold debouncedCheck, pending_checks. simpl.
  rewrite filter_app. fold (pending_checks (clearTimeout (timeout s) s)).
  rewrite (pending_clear s Hwf). simpl.
  by destruct (timeout s).
Qed.

Lemma debouncedCheck_fields i s :
  page (debouncedCheck i s) = page s ∧ calls (debouncedCheck i s) = calls s ∧
  sent (debouncedCheck i s) = sent s ∧ inflight (debouncedCheck i s) = inflight s ∧
  now (debouncedCheck i s) = now s.
Proof. unfold debouncedCheck. simpl. by destruct (timeout s). Qed.

Lemma wf_debouncedCheck i s : wf s → wf (debouncedCheck i s).
Proof.
  intros Hwf. pose proof (debouncedCheck_pending i s Hwf) as Hpend.
  pose proof (wf_clearTimeout (timeout s) s Hwf) as [].
  assert (next_timer (clearTimeout (timeout s) s) = next_timer s) as Hn
    by (by destruct (timeout s)).
  assert (inflight (clearTimeout (timeout s) s) = inflight s) as Hi
    by (by destruct (timeout s)).
  assert (sent (clearTimeout (timeout s) s) = sent s) as Hs
    by (by destruct (timeout s)).
  assert (page (clearTimeout (timeout s) s) = page s) as Hp
    by (by destruct (timeout s)).
  unfold debouncedCheck. constructor; simpl; rewrite ?Hn, ?Hi, ?Hs, ?Hp in *; try done.
  - rewrite fmap_app. apply NoDup_app. split; [done|]. split; [|apply NoDup_singleton].
    intros x (tm & -> & Hin)%list_elem_of_fmap Hx. simpl in Hx.
    apply list_elem_of_singleton in Hx. specialize (wf_fresh0 tm Hin). lia.
  - intros tm [Hin|Hin]%elem_of_app.
    + specialize (wf_fresh0 tm Hin). lia.
    + apply list_elem_of_singleton in Hin as ->. simpl. lia.
  - intros tm Hin Hl.
    assert (tm ∈ pending_checks (debouncedCheck i s)) as Htm.
    { unfold pending_checks, debouncedCheck. simpl. rewrite Hn.
      by apply list_elem_of_filter. }
    rewrite Hpend in Htm. by apply list_elem_of_singleton in Htm as ->.
Qed.

Lemma resume_row_keeps o r :
  nameInput (resume_row o r).1 = nameInput r ∧
  (is_Some (warningContainer r) → is_Some (warningContainer (resume_row o r).1)).
Proof.
  destruct (caught o) eqn:Hc; [|destruct (non_success o) eqn:Hn].
  - rewrite (resume_row_caught o r Hc). split; [done|].
    apply keeps_surface_map_container.
  - rewrite (resume_row_non_success o r Hn). split; [done|].
    apply keeps_surface_map_container.
  - destruct o as [| |d]; [done|done|]. simpl in Hc, Hn.
    apply negb_false_iff in Hn. rewrite Hn in Hc. simpl in Hc.
    destruct (resume_row_success d r Hn Hc) as (c & armed & _ & ->). cbn [fst].
    split.
    + unfold updateRowStyling. destruct (warnings d) as [[|w ws]|]; repeat case_match; done.
    + rewrite updateRowStyling_container. apply keeps_surface_map_container.
Qed.

Lemma wf_later_call i s : wf s → wf (later i s).
Proof. intros Hwf. by apply wf_call_check, wf_clearTimeout. Qed.

Lemma wf_fire tm s : wf s → wf (fire tm s).
Proof.
  intros Hwf. unfold fire.
  pose proof (wf_set_now (N.max (now s) (deadline tm)) _
                (wf_set_timers_filter (λ x, timer_id x ≠ timer_id tm) s Hwf)) as Hwf1.
  destruct (action tm) as [i|i].
  - by apply wf_later_call.
  - apply wf_update_row; [|done]. apply keeps_surface_map_container.
Qed.

Lemma fire_due_ind (P : State → Prop) t :
  (∀ s tm, P s → next_due t (timers s) = Some tm → P (fire tm s)) →
  ∀ n s, P s → P (fire_due n t s).
Proof.
  intros Hstep n. induction n as [|n IH]; intros s Hs; simpl; [done|].
  destruct (next_due t (timers s)) as [tm|] eqn:Hd; [|done].
  apply IH. by apply Hstep.
Qed.

Lemma advance_ind (P : State → Prop) t s :
  (∀ s tm, P s → next_due t (timers s) = Some tm → P (fire tm s)) →
  (∀ s t', P s → P (set_now t' s)) →
  P s → P (advance t s).
Proof.
  intros Hfire Hnow Hs. unfold advance. apply Hnow. by apply fire_due_ind.
Qed.

Lemma wf_advance t s : wf s → wf (advance t s).
Proof.
  apply advance_ind.
  - intros s' tm Hwf _. by apply wf_fire.
  - intros s' t' Hwf. by apply wf_set_now.
Qed.

Lemma wf_respond k o s : wf s → wf (respond k o s).
Proof.
  intros Hwf. unfold respond.
  destruct (list_find _ (inflight s)) as [[j [k' i]]|]; [|done].
  assert (wf (set_inflight (filter (λ c, c.1 ≠ k) (inflight s)) s)) as Hwf1.
  { destruct Hwf. constructor; simpl; try done.
    - by apply NoDup_fmap_filter.
    - intros c [_ Hin]%list_elem_of_filter. auto.
    - intros c [_ Hin]%list_elem_of_filter. auto. }
  destruct (rows (page s) !! i) as [r|]; [|done].
  assert (wf (set_page
                (update_row i (λ r, (resume_row o r).1)
                   (page (set_inflight (filter (λ c, c.1 ≠ k) (inflight s)) s)))
                (set_inflight (filter (λ c, c.1 ≠ k) (inflight s)) s))) as Hwf2.
  { apply wf_update_row; [|done]. intros r0. apply resume_row_keeps. }
  destruct (resume_row o r).2; [|done]. by apply wf_setTimeout_Hide.
Qed.

Lemma wf_handle e s : wf s → wf (handle e s).
Proof.
  intros Hwf. destruct e as [i v|i|k o|]; simpl; [| | |done].
  - destruct (has_input i (page s)); [|done].
    apply wf_debouncedCheck, wf_update_row; [|done]. apply keeps_surface_set_nameInput.
  - destruct (has_input i (page s)); [|done]. by apply wf_call_check.
  - by apply wf_respond.
Qed.

Lemma wf_step te s : wf s → wf (step te s).
Proof. intros Hwf. by apply wf_handle, wf_advance. Qed.

Lemma wf_run tr s : wf s → wf (run tr s).
Proof.
  revert s. induction tr as [|te tr IH]; intros s Hwf; [done|].
  simpl. by apply IH, wf_step.
Qed.

Lemma wf_reachable p tr : wf (run tr (boot p)).
Proof. apply wf_run, wf_boot. Qed.

(** ** Answers arrive in any order *)

Lemma call_check_inflight i s c : c ∈ inflight s → c ∈ inflight (call_check i s).
Proof.
  intros Hc. unfold call_check.
  destruct (checkMedicationRealtime i (page s)) as [p' [r|]]; simpl; [|done].
  apply elem_of_app. by left.
Qed.

Lemma fire_inflight tm s c : c ∈ inflight s → c ∈ inflight (fire tm s).
Proof.
  intros Hc. unfold fire. destruct (action tm) as [i|i]; [|done].
  apply call_check_inflight. simpl. by destruct (timeout s).
Qed.

Lemma advance_inflight t s c : c ∈ inflight s → c ∈ inflight (advance t s).
Proof.
  apply (advance_ind (λ s', c ∈ inflight s')).
  - intros s' tm Hc _. by apply fire_inflight.
  - done.
Qed.

Lemma respond_inflight_other k k' i o s :
  k ≠ k' → (k, i) ∈ inflight s → (k, i) ∈ inflight (respond k' o s).
Proof.
  intros Hk Hin. unfold respond.
  destruct (list_find _ (inflight s)) as [[j [k0 i0]]|]; [|done].
  assert ((k, i) ∈ filter (λ c, c.1 ≠ k') (inflight s)) as Hin'
    by (by apply list_elem_of_filter).
  destruct (rows (page s) !! i0) as [r|]; [|done].
  by destruct (resume_row o r).2.
Qed.

Lemma respond_row k i o r s :
  wf s → (k, i) ∈ inflight s → rows (page s) !! i = Some r →
  rows (page (respond k o s)) !! i = Some (resume_row o r).1.
Proof.
  intros Hwf Hin Hr. unfold respond.
  destruct (list_find_elem_of (λ c, c.1 = k) (inflight s) (k, i) Hin eq_refl)
    as [[j c] Hfind].
  rewrite Hfind. apply list_find_Some in Hfind as (Hj & Hck & _).
  apply list_elem_of_lookup_2 in Hj.
  assert (c = (k, i)) as ->.
  { apply (NoDup_fmap_eq fst (inflight s)); [apply Hwf|done|done|done]. }
  rewrite Hr.
  assert (rows (update_row i (λ r, (resume_row o r).1) (page s)) !! i =
          Some (resume_row o r).1) as Hrow.
  { by rewrite update_row_lookup, Hr. }
  by destruct (resume_row o r).2.
Qed.

(** C1 (as stated): the answer of a superseded check is not discarded.  With
    two checks awaited on a row, the answer of the first, arriving after the
    answer of the second, replaces what the second had the row show. *)
Lemma stale_answer_applied : ¬ stale_answers_discarded.
Proof.
  intros H.
  specialize (H sample_page [(0%N, Blur 0); (10%N, UserInput 0 "aspirin"); (20%N, Blur 0)]
                0 1 0 100%N 200%N (answer [warn_high] false) (answer [] true)).
  cbv zeta in H.
  assert (inflight (run [(0%N, Blur 0); (10%N, UserInput 0 "aspirin"); (20%N, Blur 0)]
                      (boot sample_page)) = [(0, 0); (1, 0)]) as Hin by (by vm_compute).
  rewrite Hin in H.
  specialize (H ltac:(repeat constructor) ltac:(repeat constructor) ltac:(lia)).
  vm_compute in H. discriminate H.
Qed.

(** C1 (amended): answers are applied in the order they arrive, with no
    check of which request is the newest.  With two checks awaited on a row,
    when the answer of the earlier one arrives after the answer of the later
    one and is a successful result with warnings, the row's surface shows the
    cards of the earlier check's warnings and the row carries their styling
    class. *)
Theorem late_answer_overwrites (p : Page) (tr : list (N * Event)) (k1 k2 i : nat)
    (t t' : N) (o2 : Outcome) (ws : list Warning) (sf : bool) :
  let s := run tr (boot p) in
  (k1, i) ∈ inflight s →
  (k2, i) ∈ inflight s →
  k1 < k2 →
  ws ≠ [] →
  Forall (λ w, is_Some (severity w)) ws →
  let s' := run [(t, Respond k2 o2); (t', Respond k1 (answer ws sf))] s in
  ∃ r' bs,
    rows (page s') !! i = Some r' ∧
    Forall2 card_of ws bs ∧
    warningContainer r' = Some {| innerHTML := Cards bs; display := "block" |} ∧
    filter (λ c, c ∈ tier_classes) (classList r') = [tier_of (Some ws)].
Proof.
  intros s H1 H2 Hlt Hne Hsev s'.
  set (s2 := step (t, Respond k2 o2) s).
  set (s3 := advance t' s2).
  assert (wf s3) as Hwf3 by (apply wf_advance, wf_step, wf_reachable).
  assert ((k1, i) ∈ inflight s3) as Hin3.
  { apply advance_inflight. unfold s2, step. simpl.
    apply respond_inflight_other; [lia|]. by apply advance_inflight. }
  destruct (wf_inflight_row s3 Hwf3 _ Hin3) as (r & Hr & [c Hc]). cbn [snd] in Hr.
  exists (resume_row (answer ws sf) r).1.
  destruct (displayWarnings_cards c ws sf Hne Hsev) as (bs & Hd & Hcards & _).
  exists bs. split; [|split; [done|]].
  { change s' with (respond k1 (answer ws sf) s3). by apply respond_row. }
  set (d := {| success := true; warnings := Some ws; safe := sf |}).
  assert (unrenderable d = false) as Hu.
  { simpl. apply not_true_iff_false. intros Hex%renderWarnings_Throw.
    destruct (renderWarnings_Ok ws Hsev) as (bs' & Hbs & _). congruence. }
  destruct (resume_row_success d r eq_refl Hu) as (c' & armed & Hd' & Hres).
  unfold answer. fold d. rewrite Hres. cbn [fst].
  unfold row_surface in Hd'. rewrite Hc in Hd'.
  change (displayWarnings c (Some ws) sf = Ok (c', armed)) in Hd'.
  rewrite Hd in Hd'. injection Hd' as <- <-.
  change (warnings d) with (Some ws).
  split; [|apply tier_count_after_styling].
  rewrite updateRowStyling_container. simpl. by rewrite Hc.
Qed.

Lemma late_answer_overwrites_witness :
  let s := run [(0%N, Blur 0); (10%N, UserInput 0 "aspirin"); (20%N, Blur 0)]
             (boot sample_page) in
  let s' := run [(100%N, Respond 1 (answer [] true));
                 (200%N, Respond 0 (answer [warn_high] false))] s in
  ∃ r' bs,
    rows (page s') !! 0 = Some r' ∧
    Forall2 card_of [warn_high] bs ∧
    warningContainer r' = Some {| innerHTML := Cards bs; display := "block" |} ∧
    filter (λ c, c ∈ tier_classes) (classList r') = [tier_of (Some [warn_high])].
Proof.
  apply (late_answer_overwrites sample_page
           [(0%N, Blur 0); (10%N, UserInput 0 "aspirin"); (20%N, Blur 0)]
           0 1 0 100%N 200%N (answer [] true) [warn_high] false).
  - vm_compute. repeat constructor.
  - vm_compute. repeat constructor.
  - lia.
  - discriminate.
  - repeat constructor; by eexists.
Defined.

(** ** Firing timers *)

Lemma filter_filter_absorb {A} (P Q : A → Prop)
    `{!∀ x, Decision (P x)} `{!∀ x, Decision (Q x)} (l : list A) :
  (∀ x, x ∈ l → P x → Q x) → filter P (filter Q l) = filter P l.
Proof.
  induction l as [|a l IH]; intros Hl; [done|].
  assert (filter P (filter Q l) = filter P l) as IH'.
  { apply IH. intros x Hx. apply Hl. by constructor. }
  rewrite (filter_cons Q). destruct (decide (Q a)) as [Hq|Hq].
  - rewrite !filter_cons. destruct (decide (P a)); by rewrite IH'.
  - rewrite IH', filter_cons. destruct (decide (P a)) as [Hp|]; [|done].
    exfalso. apply Hq, Hl; [constructor|done].
Qed.

Lemma call_check_fields i s :
  timers (call_check i s) = timers s ∧ timeout (call_check i s) = timeout s ∧
  now (call_check i s) = now s ∧ next_timer (call_check i s) = next_timer s ∧
  calls (call_check i s) = calls s ++ [i] ∧
  names (page (call_check i s)) = names (page s).
Proof.
  unfold call_check.
  destruct (checkMedicationRealtime_page i (page s)) as (f & Hp & _ & Hn & _).
  destruct (checkMedicationRealtime i (page s)) as [p' req]. simpl in *. subst p'.
  repeat split. by apply names_update_row.
Qed.

Lemma call_check_sent i s v :
  rows (page s) !! i ≫= nameInput = Some v →
  request_for v (sent s) (sent (call_check i s)).
Proof.
  intros Hv. unfold request_for, call_check.
  destruct (nonempty (trim v)) eqn:Hn.
  - destruct (checkMedicationRealtime_request i (page s) v Hv Hn) as (p' & req & -> & Hm).
    simpl. by exists req.
  - by rewrite (checkMedicationRealtime_empty i (page s) v Hv Hn).
Qed.

Lemma fire_hide x s j :
  wf s → x ∈ timers s → action x = Hide j →
  wf (fire x s) ∧ calls (fire x s) = calls s ∧ sent (fire x s) = sent s ∧
  timeout (fire x s) = timeout s ∧ next_timer (fire x s) = next_timer s ∧
  pending_checks (fire x s) = pending_checks s ∧
  names (page (fire x s)) = names (page s) ∧
  length (timers (fire x s)) < length (timers s).
Proof.
  intros Hwf Hx Ha. split; [by apply wf_fire|].
  unfold fire. rewrite Ha. simpl. repeat split.
  - unfold pending_checks. simpl. apply filter_filter_absorb.
    intros y Hy Hl Hid. assert (y = x) as ->.
    { by apply (NoDup_fmap_eq timer_id (timers s)); [apply Hwf|..]. }
    unfold is_later in Hl. by rewrite Ha in Hl.
  - by apply names_update_row.
  - apply (length_filter_lt _ _ x); [done|]. by intros H.
Qed.

Lemma fire_later x s i v :
  wf s → x ∈ timers s → action x = Later i →
  rows (page s) !! i ≫= nameInput = Some v →
  wf (fire x s) ∧ pending_checks (fire x s) = [] ∧
  calls (fire x s) = calls s ++ [i] ∧
  request_for v (sent s) (sent (fire x s)) ∧
  names (page (fire x s)) = names (page s).
Proof.
  intros Hwf Hx Ha Hv. split; [by apply wf_fire|].
  unfold fire. rewrite Ha.
  set (s1 := set_now _ _). unfold later.
  assert (wf s1) as Hwf1.
  { apply wf_set_now. by apply (wf_set_timers_filter (λ y, timer_id y ≠ timer_id x)). }
  set (s2 := clearTimeout (timeout s1) s1).
  assert (page s2 = page s ∧ calls s2 = calls s ∧ sent s2 = sent s) as (Hp & Hc & Hs).
  { unfold s2. by destruct (timeout s1). }
  destruct (call_check_fields i s2) as (Ht & _ & _ & _ & Hcalls & Hnames).
  repeat split.
  - unfold pending_checks. rewrite Ht. by apply pending_clear.
  - by rewrite Hcalls, Hc.
  - rewrite <- Hs. apply call_check_sent. by rewrite Hp.
  - by rewrite Hnames, Hp.
Qed.

Lemma is_later_cases x : (∃ i, action x = Later i ∧ is_later x = true) ∨
                         (∃ j, action x = Hide j ∧ is_later x = false).
Proof. unfold is_later. destruct (action x) as [i|j]; eauto. Qed.

(** While no debounced check is due, the passing of time calls no check and
    sends nothing. *)
Lemma fire_due_quiet n t s :
  wf s →
  (∀ tm, tm ∈ pending_checks s → (t < deadline tm)%N) →
  wf (fire_due n t s) ∧ calls (fire_due n t s) = calls s ∧
  sent (fire_due n t s) = sent s ∧ timeout (fire_due n t s) = timeout s ∧
  next_timer (fire_due n t s) = next_timer s ∧
  pending_checks (fire_due n t s) = pending_checks s ∧
  names (page (fire_due n t s)) = names (page s).
Proof.
  intros Hwf Hq.
  apply (fire_due_ind
           (λ s', wf s' ∧ calls s' = calls s ∧ sent s' = sent s ∧
                  timeout s' = timeout s ∧ next_timer s' = next_timer s ∧
                  pending_checks s' = pending_checks s ∧
                  names (page s') = names (page s))); [|done].
  intros s' x (Hwf' & Hc & Hs & Ht & Hn & Hp & Hnm) [Hx Hd]%next_due_Some.
  destruct (is_later_cases x) as [(i & Ha & Hl)|(j & Ha & Hl)].
  - exfalso. assert (x ∈ pending_checks s) as Hin.
    { rewrite <- Hp. by apply list_elem_of_filter. }
    specialize (Hq x Hin). lia.
  - destruct (fire_hide x s' j Hwf' Hx Ha) as (Hw1 & ? & ? & ? & ? & ? & ? & _).
    split; [done|]. repeat split; congruence.
Qed.

(** Once the one pending debounced check is due, the passing of time calls
    the check once, on the input it was armed for. *)
Lemma fire_due_later n t s tm i v :
  wf s →
  pending_checks s = [tm] → action tm = Later i → (deadline tm ≤ t)%N →
  rows (page s) !! i ≫= nameInput = Some v →
  length (timers s) ≤ n →
  wf (fire_due n t s) ∧ pending_checks (fire_due n t s) = [] ∧
  calls (fire_due n t s) = calls s ++ [i] ∧
  request_for v (sent s) (sent (fire_due n t s)).
Proof.
  revert s. induction n as [|n IH]; intros s Hwf Hp Ha Hd Hv Hlen.
  { assert (tm ∈ pending_checks s) as Hin by (rewrite Hp; constructor).
    apply list_elem_of_filter in Hin as [_ Hin].
    destruct (timers s); [by apply elem_of_nil in Hin|simpl in Hlen; lia]. }
  assert (tm ∈ timers s) as Htm.
  { assert (tm ∈ pending_checks s) as Hin by (rewrite Hp; constructor).
    by apply list_elem_of_filter in Hin as [_ Hin]. }
  simpl. destruct (next_due t (timers s)) as [x|] eqn:Hnext.
  2:{ pose proof (next_due_None t _ tm Hnext Htm). lia. }
  apply next_due_Some in Hnext as [Hx Hxd].
  destruct (is_later_cases x) as [(i' & Hxa & Hl)|(j & Hxa & Hl)].
  - assert (x = tm) as ->.
    { assert (x ∈ pending_checks s) as Hin by (by apply list_elem_of_filter).
      rewrite Hp in Hin. by apply list_elem_of_singleton in Hin. }
    assert (i' = i) as -> by congruence.
    destruct (fire_later tm s i v Hwf Hx Ha Hv) as (Hwf1 & Hp1 & Hc1 & Hs1 & _).
    destruct (fire_due_quiet n t (fire tm s) Hwf1) as (Hwf2 & Hc2 & Hs2 & _ & _ & Hp2 & _).
    { rewrite Hp1. intros y Hy. by apply elem_of_nil in Hy. }
    split; [done|]. split; [congruence|]. split; [congruence|]. by rewrite Hs2.
  - destruct (fire_hide x s j Hwf Hx Hxa) as (Hwf1 & Hc1 & Hs1 & _ & _ & Hp1 & Hn1 & Hlen1).
    destruct (IH (fire x s)) as (Hwf2 & Hp2 & Hc2 & Hs2); try done.
    + by rewrite Hp1.
    + by rewrite names_lookup, Hn1, <- names_lookup.
    + lia.
    + split; [done|]. split; [done|]. split; [congruence|]. by rewrite <- Hs1.
Qed.

Lemma fire_shrinks x s :
  x ∈ timers s → length (timers (fire x s)) < length (timers s).
Proof.
  intros Hx.
  assert (length (filter (λ y, timer_id y ≠ timer_id x) (timers s)) <
          length (timers s)) as Hlt.
  { apply (length_filter_lt _ _ x); [done|]. by intros Hne. }
  unfold fire. destruct (action x) as [i|j]; [|done].
  unfold later. destruct (call_check_fields i
      (clearTimeout
         (timeout (set_now (N.max (now s) (deadline x))
            (set_timers (filter (λ y, timer_id y ≠ timer_id x) (timers s)) s)))
         (set_now (N.max (now s) (deadline x))
            (set_timers (filter (λ y, timer_id y ≠ timer_id x) (timers s)) s))))
    as (-> & _).
  simpl. destruct (timeout s) as [n|]; simpl; [|done].
  eapply Nat.le_lt_trans; [apply length_filter|done].
Qed.

Lemma fire_due_complete n t s :
  length (timers s) ≤ n → next_due t (timers (fire_due n t s)) = None.
Proof.
  revert s. induction n as [|n IH]; intros s Hlen; simpl.
  - by destruct (timers s); [|simpl in Hlen; lia].
  - destruct (next_due t (timers s)) as [x|] eqn:Hnext; [|done].
    apply IH. apply next_due_Some in Hnext as [Hx _].
    pose proof (fire_shrinks x s Hx). lia.
Qed.

(** One round per pending timer is enough: once time has passed until [t],
    no timer due by [t] is left. *)
Lemma advance_complete t s tm :
  tm ∈ timers (advance t s) → (t < deadline tm)%N.
Proof.
  unfold advance. cbn [timers set_now]. apply next_due_None.
  by apply fire_due_complete.
Qed.

Lemma clearTimeout_fields o s :
  page (clearTimeout o s) = page s ∧ now (clearTimeout o s) = now s ∧
  calls (clearTimeout o s) = calls s ∧ sent (clearTimeout o s) = sent s.
Proof. by destruct o. Qed.

Lemma later_fields i s :
  now (later i s) = now s ∧ names (page (later i s)) = names (page s).
Proof.
  unfold later.
  destruct (call_check_fields i (clearTimeout (timeout s) s))
    as (_ & _ & -> & _ & _ & ->).
  destruct (clearTimeout_fields (timeout s) s) as (-> & -> & _). done.
Qed.

Lemma fire_names x s : names (page (fire x s)) = names (page s).
Proof.
  unfold fire. destruct (action x) as [i|j].
  - by destruct (later_fields i (set_now (N.max (now s) (deadline x))
         (set_timers (filter (λ y, timer_id y ≠ timer_id x) (timers s)) s)))
      as [_ ->].
  - simpl. by apply names_update_row.
Qed.

Lemma advance_names t s : names (page (advance t s)) = names (page s).
Proof.
  apply (advance_ind (λ s', names (page s') = names (page s))); [|done..].
  intros s' x Hn _. by rewrite fire_names.
Qed.

Lemma fire_now x s : now (fire x s) = N.max (now s) (deadline x).
Proof.
  unfold fire. destruct (action x) as [i|j]; [|done].
  by destruct (later_fields i (set_now (N.max (now s) (deadline x))
         (set_timers (filter (λ y, timer_id y ≠ timer_id x) (timers s)) s)))
      as [-> _].
Qed.

Lemma advance_now t s : (now s ≤ t)%N → now (advance t s) = t.
Proof.
  intros Hle. unfold advance. simpl.
  assert (now (fire_due (length (timers s)) t s) ≤ t)%N as Hn; [|lia].
  apply (fire_due_ind (λ s', (now s' ≤ t)%N)); [|done].
  intros s' x Hs' [_ Hd]%next_due_Some. rewrite fire_now. lia.
Qed.

Lemma advance_quiet t s :
  wf s →
  (∀ tm, tm ∈ pending_checks s → (t < deadline tm)%N) →
  calls (advance t s) = calls s ∧ sent (advance t s) = sent s ∧
  pending_checks (advance t s) = pending_checks s.
Proof.
  intros Hwf Hq.
  destruct (fire_due_quiet (length (timers s)) t s Hwf Hq)
    as (_ & Hc & Hs & _ & _ & Hp & _).
  by repeat split.
Qed.

Lemma advance_later t s tm i v :
  wf s →
  pending_checks s = [tm] → action tm = Later i → (deadline tm ≤ t)%N →
  rows (page s) !! i ≫= nameInput = Some v →
  pending_checks (advance t s) = [] ∧
  calls (advance t s) = calls s ++ [i] ∧
  request_for v (sent s) (sent (advance t s)).
Proof.
  intros Hwf Hp Ha Hd Hv.
  destruct (fire_due_later (length (timers s)) t s tm i v Hwf Hp Ha Hd Hv)
    as (_ & Hp' & Hc & Hs); [done|].
  by repeat split.
Qed.

(** ** The debounced check *)

Lemma has_input_row i p :
  has_input i p = true → ∃ r v, rows p !! i = Some r ∧ nameInput r = Some v.
Proof.
  unfold has_input. intros [v Hv]%bool_decide_eq_true.
  destruct (rows p !! i) as [r|]; [|done]. by exists r, v.
Qed.

Lemma has_input_of_value i p v :
  rows p !! i ≫= nameInput = Some v → has_input i p = true.
Proof. intros Hv. unfold has_input. apply bool_decide_eq_true. by eexists. Qed.

Lemma step_input_armed s i t v :
  wf s → has_input i (page s) = true → (now s ≤ t)%N →
  wf (step (t, UserInput i v) s) ∧
  armed i t v (step (t, UserInput i v) s) ∧
  calls (step (t, UserInput i v) s) = calls (advance t s) ∧
  sent (step (t, UserInput i v) s) = sent (advance t s).
Proof.
  intros Hwf Hin Hnow. split; [by apply wf_step|].
  unfold step. cbn [fst snd handle].
  set (sa := advance t s).
  assert (has_input i (page sa) = true) as Hin'.
  { rewrite <- Hin. apply has_input_names, advance_names. }
  rewrite Hin'.
  set (sb := set_page (update_row i (set_nameInput (Some v)) (page sa)) sa).
  assert (wf sb) as Hwfb.
  { apply wf_update_row; [apply keeps_surface_set_nameInput|by apply wf_advance]. }
  destruct (debouncedCheck_fields i sb) as (Hp & Hc & Hs & _ & Hn).
  assert (now sb = t) as Hnb by (by apply advance_now).
  split; [|by rewrite Hc, Hs].
  split; [by rewrite Hn|]. split.
  - rewrite Hp. unfold sb. cbn [page set_page].
    rewrite update_row_lookup.
    destruct (has_input_row i (page sa) Hin') as (r & v0 & -> & _). done.
  - eexists. split; [by apply debouncedCheck_pending|]. by rewrite Hnb.
Qed.

Lemma armed_next s i t v t' v' :
  wf s → armed i t v s → (t ≤ t')%N → (t' < t + 800)%N →
  wf (step (t', UserInput i v') s) ∧
  armed i t' v' (step (t', UserInput i v') s) ∧
  calls (step (t', UserInput i v') s) = calls s ∧
  sent (step (t', UserInput i v') s) = sent s.
Proof.
  intros Hwf (Hn & Hv & tm & Hp & Ha & Hd) Hle Hlt.
  destruct (step_input_armed s i t' v' Hwf) as (Hwf1 & Harm & Hc & Hs).
  { by eapply has_input_of_value. }
  { lia. }
  destruct (advance_quiet t' s Hwf) as (Hc' & Hs' & _).
  { intros x Hx. rewrite Hp in Hx. apply list_elem_of_singleton in Hx as ->. lia. }
  split; [done|]. split; [done|]. by rewrite Hc, Hs.
Qed.

Lemma armed_fire s i t v T :
  wf s → armed i t v s → (t + 800 ≤ T)%N →
  calls (step (T, Wait) s) = calls s ++ [i] ∧
  pending_checks (step (T, Wait) s) = [] ∧
  request_for v (sent s) (sent (step (T, Wait) s)).
Proof.
  intros Hwf (Hn & Hv & tm & Hp & Ha & Hd) Hle.
  unfold step. cbn [fst snd handle].
  destruct (advance_later T s tm i v Hwf Hp Ha) as (Hp' & Hc & Hs); [lia|done|].
  done.
Qed.

Lemma final_input_cons tv0 tv b : final_input tv0 (tv :: b) = final_input tv b.
Proof.
  unfold final_input. rewrite last_cons. by destruct (last b).
Qed.

Lemma burst_from_armed i b :
  ∀ s t v T,
    wf s → armed i t v s → rapid t b →
    ((final_input (t, v) b).1 + 800 ≤ T)%N →
    calls (run (inputs_on i b ++ [(T, Wait)]) s) = calls s ++ [i] ∧
    request_for (final_input (t, v) b).2 (sent s)
      (sent (run (inputs_on i b ++ [(T, Wait)]) s)).
Proof.
  induction b as [|[t1 v1] b IH]; intros s t v T Hwf Harm Hr HT.
  - simpl in *. destruct (armed_fire s i t v T Hwf Harm HT) as (Hc & _ & Hs). done.
  - destruct Hr as (Hle & Hlt & Hr). simpl in Hle, Hlt, Hr.
    rewrite final_input_cons in *.
    destruct (armed_next s i t v t1 v1 Hwf Harm Hle Hlt) as (Hwf1 & Harm1 & Hc1 & Hs1).
    destruct (IH _ t1 v1 T Hwf1 Harm1 Hr HT) as (Hc & Hs).
    simpl. by rewrite <- Hc1, <- Hs1.
Qed.

Lemma pending_at_most_one s : wf s → length (pending_checks s) ≤ 1.
Proof.
  intros Hwf.
  assert (NoDup (timer_id <$> pending_checks s)) as Hnd.
  { apply NoDup_fmap_filter, Hwf. }
  assert (∀ x, x ∈ pending_checks s → timeout s = Some (timer_id x)) as Hid.
  { intros x [Hl Hx]%list_elem_of_filter. by apply (wf_later s Hwf). }
  destruct (pending_checks s) as [|a [|b l]]; simpl; [lia|lia|].
  exfalso. rewrite !fmap_cons in Hnd. apply NoDup_cons in Hnd as [Hab _].
  apply Hab. assert (timer_id a = timer_id b) as ->; [|constructor].
  pose proof (Hid a ltac:(constructor)) as Ha.
  pose proof (Hid b ltac:(do 2 constructor)) as Hb. congruence.
Qed.

(** The closure made at load, with the rows of the page fixed: its one
    timer serves the debounced checks of all the name inputs.  At most one
    of its checks is pending at any time; an [input] event on any name
    input leaves as the only pending one the check of that input, due 800ms
    later, whichever input a pending check was for; and when that time has
    passed the check has been called once, on that input.  The closures of
    later runs of [initializeMedicationChecker] are in the part on
    listeners and closures. *)
Theorem one_debounced_check_pending (p : Page) (tr : list (N * Event))
    (i : nat) (v : string) (t T : N) :
  let s := run tr (boot p) in
  let s1 := step (t, UserInput i v) s in
  has_input i (page s) = true →
  (now s ≤ t)%N →
  (t + 800 ≤ T)%N →
  length (pending_checks s) ≤ 1 ∧
  (∃ tm, pending_checks s1 = [tm] ∧ action tm = Later i ∧
         deadline tm = (t + 800)%N) ∧
  calls (step (T, Wait) s1) = calls s1 ++ [i] ∧
  pending_checks (step (T, Wait) s1) = [].
Proof.
  intros s s1 Hin Hnow HT.
  assert (wf s) as Hwf by apply wf_reachable.
  split; [by apply pending_at_most_one|].
  destruct (step_input_armed s i t v Hwf Hin Hnow) as (Hwf1 & Harm & _).
  fold s1 in Hwf1, Harm.
  split; [apply Harm|].
  destruct (armed_fire s1 i t v T Hwf1 Harm HT) as (Hc & Hp & _). done.
Qed.

Lemma one_debounced_check_pending_witness :
  let s := run [(0%N, UserInput 0 "warf")] (boot sample_page) in
  let s1 := step (100%N, UserInput 1 "asp") s in
  length (pending_checks s) ≤ 1 ∧
  (∃ tm, pending_checks s1 = [tm] ∧ action tm = Later 1 ∧
         deadline tm = (100 + 800)%N) ∧
  calls (step (900%N, Wait) s1) = calls s1 ++ [1] ∧
  pending_checks (step (900%N, Wait) s1) = [].
Proof.
  apply (one_debounced_check_pending sample_page [(0%N, UserInput 0 "warf")]
           1 "asp" 100%N 900%N).
  - reflexivity.
  - by vm_compute.
  - by vm_compute.
Defined.

(** C6 (as stated): a burst of rapid inputs on a field does not always end
    in a request.  When the field is left empty, the one debounced call
    clears the surface and sends nothing. *)
Lemma burst_may_send_nothing : ¬ burst_sends_one_request.
Proof.
  intros H.
  destruct (H sample_page [] 0 (0%N, "a") [(100%N, "")] 1000%N)
    as (req & Hs & _).
  - reflexivity.
  - by vm_compute.
  - repeat split; by vm_compute.
  - by vm_compute.
  - vm_compute in Hs. discriminate Hs.
Qed.

(** C6 (amended): after a burst of inputs on one field, each less than 800ms
    after the one before, followed by 800ms of quiet, the debounced check
    has been called exactly once, on that field; that call sends exactly one
    request, carrying the field's final value trimmed, when that value is
    not empty after trimming, and no request when it is. *)
Theorem burst_one_check (p : Page) (tr : list (N * Event)) (i : nat)
    (tv0 : N * string) (b : list (N * string)) (T : N) :
  let s := run tr (boot p) in
  let s' := run (inputs_on i (tv0 :: b) ++ [(T, Wait)]) s in
  has_input i (page s) = true →
  (now s ≤ tv0.1)%N →
  rapid tv0.1 b →
  ((final_input tv0 b).1 + 800 ≤ T)%N →
  calls s' = calls (advance tv0.1 s) ++ [i] ∧
  request_for (final_input tv0 b).2 (sent (advance tv0.1 s)) (sent s').
Proof.
  intros s s' Hin Hnow Hr HT. destruct tv0 as [t0 v0]. cbn [fst] in *.
  assert (wf s) as Hwf by apply wf_reachable.
  destruct (step_input_armed s i t0 v0 Hwf Hin Hnow) as (Hwf1 & Harm & Hc & Hs).
  destruct (burst_from_armed i b _ t0 v0 T Hwf1 Harm Hr HT) as (Hc' & Hs').
  rewrite Hc in Hc'. rewrite Hs in Hs'. exact (conj Hc' Hs').
Qed.

Lemma burst_one_check_witness :
  let s := run [(0%N, Blur 1)] (boot sample_page) in
  let s' := run (inputs_on 0 ((10%N, "as") :: [(200%N, "asp"); (900%N, " aspirin ")])
                 ++ [(1700%N, Wait)]) s in
  calls s' = calls (advance 10 s) ++ [0] ∧
  request_for (final_input (10%N, "as") [(200%N, "asp"); (900%N, " aspirin ")]).2
    (sent (advance 10 s)) (sent s').
Proof.
  apply (burst_one_check sample_page [(0%N, Blur 1)] 0 (10%N, "as")
           [(200%N, "asp"); (900%N, " aspirin ")] 1700%N).
  - reflexivity.
  - by vm_compute.
  - repeat split; by vm_compute.
  - by vm_compute.
Defined.

(** * Further properties of the checker *)

(** ** Trimming and letter case *)

Lemma trim_start_head s :
  trim_start s = "" ∨ ∃ c r, trim_start s = String c r ∧ is_ws c = false.
Proof.
  induction s as [|c r IH]; simpl; [by left|].
  destruct (is_ws c) eqn:Hc; [done|]. right. by exists c, r.
Qed.

Lemma trim_end_idemp s : trim_end (trim_end s) = trim_end s.
Proof.
  induction s as [|c r IH]; simpl; [done|].
  destruct (trim_end r) as [|c' r'] eqn:Hr.
  - destruct (is_ws c) eqn:Hc; simpl; [done|]. by rewrite Hc.
  - simpl. simpl in IH. by rewrite IH.
Qed.

Lemma trim_end_head c r :
  is_ws c = false → ∃ r', trim_end (String c r) = String c r'.
Proof.
  intros Hc. simpl. destruct (trim_end r); [rewrite Hc|]; by eexists.
Qed.

Lemma trim_idemp s : trim (trim s) = trim s.
Proof.
  unfold trim. destruct (trim_start_head s) as [-> | (c & r & -> & Hc)]; [done|].
  destruct (trim_end_head c r Hc) as [r' Hr]. rewrite Hr.
  simpl trim_start. rewrite Hc, <- Hr. apply trim_end_idemp.
Qed.

Lemma lower_upper_char c : lower_char (upper_char c) = lower_char c.
Proof. by destruct c as [[] [] [] [] [] [] [] []]. Qed.

Lemma toLowerCase_toUpperCase s : toLowerCase (toUpperCase s) = toLowerCase s.
Proof.
  unfold toLowerCase, toUpperCase. induction s as [|c r IH]; simpl; [done|].
  by rewrite lower_upper_char, IH.
Qed.

(** ** The snapshot *)

Lemma row_medication_name r m :
  row_medication r = Some m →
  ∃ v, nameInput r = Some v ∧ name m = trim v ∧ nonempty (trim v) = true.
Proof.
  unfold row_medication. destruct (nameInput r) as [v|]; [|done].
  destruct (nonempty (trim v)) eqn:Hn; [|done]. intros [= <-]. by exists v.
Qed.

(** X1: every medication of the snapshot has a name that is not empty and
    carries no whitespace at either end: trimming it again changes nothing. *)
Theorem snapshot_names_trimmed (p : Page) (m : Medication) :
  m ∈ getCurrentMedications p →
  nonempty (name m) = true ∧ trim (name m) = name m.
Proof.
  unfold getCurrentMedications. intros (r & _ & Hm)%list_elem_of_omap.
  destruct (row_medication_name r m Hm) as (v & _ & -> & Hn).
  split; [done|apply trim_idemp].
Qed.

Lemma snapshot_names_trimmed_witness :
  nonempty (name {| name := "Aspirin"; doses_per_day := Num 2 |}) = true ∧
  trim (name {| name := "Aspirin"; doses_per_day := Num 2 |}) =
    name {| name := "Aspirin"; doses_per_day := Num 2 |}.
Proof.
  apply (snapshot_names_trimmed sample_page).
  vm_compute. repeat constructor.
Defined.

(** X2: the names of the snapshot are the trimmed values of the name inputs,
    in document order, the blank ones left out; rows without a name input
    count for nothing. *)
Theorem snapshot_names_in_order (p : Page) :
  name <$> getCurrentMedications p =
  filter (λ v, nonempty v = true) (trim <$> omap nameInput (rows p)).
Proof.
  unfold getCurrentMedications. induction (rows p) as [|r rs IH]; [done|].
  simpl in *. unfold row_medication at 1.
  destruct (nameInput r) as [v|]; simpl; [|exact IH].
  rewrite filter_cons. destruct (nonempty (trim v)) eqn:Hn.
  - destruct (decide (true = true)); [|done]. simpl. f_equal. exact IH.
  - destruct (decide (false = true)); [done|]. exact IH.
Qed.

Lemma getCurrentMedications_update_row i f p :
  (∀ r, nameInput (f r) = nameInput r ∧ dosesInput (f r) = dosesInput r) →
  getCurrentMedications (update_row i f p) = getCurrentMedications p.
Proof.
  intros Hf. unfold getCurrentMedications, update_row. simpl.
  generalize (rows p). intros l. revert i.
  induction l as [|r rs IH]; intros i; [done|].
  assert (row_medication (f r) = row_medication r) as Hr.
  { unfold row_medication. by destruct (Hf r) as [-> ->]. }
  assert (∀ x l, omap row_medication (x :: l) =
                 from_option (λ y, [y]) [] (row_medication x) ++ omap row_medication l)
    as Hcons.
  { intros x l. change (omap row_medication (x :: l)) with
      (match row_medication x with
       | Some y => y :: omap row_medication l
       | None => omap row_medication l
       end). by destruct (row_medication x). }
  destruct i as [|i].
  - change (alter f 0 (r :: rs)) with (f r :: rs). by rewrite !Hcons, Hr.
  - change (alter f (S i) (r :: rs)) with (r :: alter f i rs).
    by rewrite !Hcons, (IH i).
Qed.

Lemma getPatientAge_update_row i f p :
  getPatientAge (update_row i f p) = getPatientAge p.
Proof. reflexivity. Qed.

(** The request of a check, in terms of the form as it was. *)
Lemma checkMedicationRealtime_sends i p p' req :
  checkMedicationRealtime i p = (p', Some req) →
  ∃ v, rows p !! i ≫= nameInput = Some v ∧ nonempty (trim v) = true ∧
       medication_name req = trim v ∧
       existing_medications req =
         filter (λ med, toLowerCase (name med) ≠ toLowerCase (trim v))
                (getCurrentMedications p) ∧
       age req = getPatientAge p.
Proof.
  unfold checkMedicationRealtime.
  destruct (rows p !! i ≫= nameInput) as [v|] eqn:Hv; [|done].
  destruct (nonempty (trim v)) eqn:Hn; [|done].
  intros [= <- <-]. exists v. simpl.
  rewrite !getCurrentMedications_update_row; [done|..].
  - intros r. unfold ensure_container. by destruct (warningContainer r).
  - done.
Qed.

(** X3: a check never reports the field under edit as an existing
    medication.  The existing medications of its request are exactly the
    list of those entries of the snapshot, read from the form as it was,
    whose name differs from the requested name once both are lower-cased:
    the same entries, as many times, in snapshot order.  The edited row's
    own entry is in the snapshot and is not among them; the age is the
    form's. *)
Theorem request_excludes_edited_name (p p' : Page) (i : nat) (req : Request) :
  checkMedicationRealtime i p = (p', Some req) →
  existing_medications req =
    filter (λ m, toLowerCase (name m) ≠ toLowerCase (medication_name req))
           (getCurrentMedications p) ∧
  (∃ m, rows p !! i ≫= row_medication = Some m ∧
        m ∈ getCurrentMedications p ∧ name m = medication_name req ∧
        m ∉ existing_medications req) ∧
  age req = getPatientAge p.
Proof.
  intros (v & Hv & Hn & Hname & Hex & Hage)%checkMedicationRealtime_sends.
  rewrite Hex, Hname. split; [done|split; [|done]].
  destruct (rows p !! i) as [r|] eqn:Hr; [|done]. simpl in Hv.
  assert (∃ m, row_medication r = Some m ∧ name m = trim v) as (m & Hm & Hmn).
  { unfold row_medication. rewrite Hv, Hn. by eexists. }
  exists m. split; [exact Hm|]. split; [|split; [done|]].
  - apply list_elem_of_omap. exists r. split; [|done].
    by eapply list_elem_of_lookup_2.
  - intros [Hne _]%list_elem_of_filter. apply Hne. by rewrite Hmn.
Qed.

Lemma request_excludes_edited_name_witness :
  existing_medications
    {| medication_name := "warfarin";
       existing_medications := [{| name := "Aspirin"; doses_per_day := Num 2 |}];
       age := Num 70 |} =
    filter (λ m, toLowerCase (name m) ≠ toLowerCase "warfarin")
           (getCurrentMedications sample_page) ∧
  (∃ m, rows sample_page !! 0 ≫= row_medication = Some m ∧
        m ∈ getCurrentMedications sample_page ∧ name m = "warfarin" ∧
        m ∉ existing_medications
              {| medication_name := "warfarin";
                 existing_medications := [{| name := "Aspirin"; doses_per_day := Num 2 |}];
                 age := Num 70 |}) ∧
  Num 70 = getPatientAge sample_page.
Proof.
  apply (request_excludes_edited_name sample_page
           (checkMedicationRealtime 0 sample_page).1 0).
  reflexivity.
Defined.

Lemma lower_lower_char c : lower_char (lower_char c) = lower_char c.
Proof. by destruct c as [[] [] [] [] [] [] [] []]. Qed.

Lemma toLowerCase_idemp s : toLowerCase (toLowerCase s) = toLowerCase s.
Proof.
  unfold toLowerCase. induction s as [|c r IH]; simpl; [done|].
  by rewrite lower_lower_char, IH.
Qed.

(** X4: the same name spelled in another letter case is taken for the field
    under edit.  An entry of the snapshot whose name is the requested name
    in lower case, or, when the requested name is ASCII text, the requested
    name in upper case, is left out of the request's existing medications,
    whichever row it comes from. *)
Theorem request_drops_other_spellings (p p' : Page) (i : nat) (req : Request)
    (m : Medication) :
  checkMedicationRealtime i p = (p', Some req) →
  name m = toLowerCase (medication_name req) ∨
  (ascii_only (medication_name req) = true ∧
   name m = toUpperCase (medication_name req)) →
  m ∉ existing_medications req.
Proof.
  intros (v & _ & _ & Hname & Hex & _)%checkMedicationRealtime_sends Hm.
  rewrite Hex, <- Hname. intros [Hne _]%list_elem_of_filter. apply Hne.
  destruct Hm as [-> | [_ ->]].
  - apply toLowerCase_idemp.
  - apply toLowerCase_toUpperCase.
Qed.

Lemma request_drops_other_spellings_witness :
  {| name := "WARFARIN"; doses_per_day := Num 1 |} ∉
  existing_medications
    {| medication_name := "warfarin";
       existing_medications := [{| name := "Aspirin"; doses_per_day := Num 2 |}];
       age := Num 70 |}.
Proof.
  apply (request_drops_other_spellings sample_page
           (checkMedicationRealtime 0 sample_page).1 0 _
           {| name := "WARFARIN"; doses_per_day := Num 1 |}).
  - reflexivity.
  - right. split; reflexivity.
Defined.

(** ** What a check touches *)

(** X5: the first part of a check changes nothing but the surface of its own
    row: every other row, and the fields and classes of every row (so also a
    styling class left by an earlier answer), and the age inputs are as
    before. *)
Theorem check_touches_only_its_surface (p : Page) (i : nat) :
  let p' := (checkMedicationRealtime i p).1 in
  (∀ j, j ≠ i → rows p' !! j = rows p !! j) ∧
  nameInput <$> rows p' = nameInput <$> rows p ∧
  dosesInput <$> rows p' = dosesInput <$> rows p ∧
  classList <$> rows p' = classList <$> rows p ∧
  ageById p' = ageById p ∧ ageByName p' = ageByName p.
Proof.
  simpl.
  assert (∃ f, (checkMedicationRealtime i p).1 = update_row i f p ∧
               ∀ r, nameInput (f r) = nameInput r ∧ dosesInput (f r) = dosesInput r ∧
                    classList (f r) = classList r) as (f & -> & Hf).
  { unfold checkMedicationRealtime.
    destruct (rows p !! i ≫= nameInput) as [v|].
    - destruct (nonempty (trim v)); simpl;
        (eexists (λ r, map_container _ (ensure_container r)); split;
         [unfold update_row; simpl; by rewrite list_alter_alter_eq
         |intros r; unfold ensure_container; by destruct (warningContainer r)]).
    - exists id. split; [|done]. unfold update_row.
      rewrite list_alter_id by done. by destruct p. }
  split; [intros j Hj; by apply update_row_lookup_ne|].
  assert (∀ {A} (g : Row → A), (∀ r, g (f r) = g r) →
            g <$> rows (update_row i f p) = g <$> rows p) as Hg.
  { intros A g Hgf. unfold update_row. simpl. apply list_eq. intros j.
    rewrite !list_lookup_fmap. destruct (decide (i = j)) as [->|Hij].
    - rewrite list_lookup_alter_eq. destruct (rows p !! j); simpl; [|done].
      by rewrite Hgf.
    - by rewrite list_lookup_alter_ne. }
  repeat split; try apply Hg; intros r; apply Hf.
Qed.

(** X6: a check on a field that is not blank shows the loader before
    anything is awaited: its row's surface, created if the row had none,
    holds the loader and is visible, and a request is sent. *)
Theorem check_shows_loader (p : Page) (i : nat) (r : Row) (v : string) :
  rows p !! i = Some r →
  nameInput r = Some v →
  nonempty (trim v) = true →
  rows (checkMedicationRealtime i p).1 !! i =
    Some (set_container (Some {| innerHTML := Loader; display := "block" |}) r) ∧
  ∃ req, (checkMedicationRealtime i p).2 = Some req ∧ medication_name req = trim v.
Proof.
  intros Hr Hv Hn.
  assert (rows p !! i ≫= nameInput = Some v) as Hin by (by rewrite Hr).
  unfold checkMedicationRealtime. rewrite Hin, Hn. simpl. split; [|by eexists].
  rewrite !list_lookup_alter_eq, Hr. clear. by destruct r as [n d [c|] cl].
Qed.

Lemma check_shows_loader_witness :
  rows (checkMedicationRealtime 1 sample_page).1 !! 1 =
    Some (set_container (Some {| innerHTML := Loader; display := "block" |})
            (row_of "Aspirin " "2")) ∧
  ∃ req, (checkMedicationRealtime 1 sample_page).2 = Some req ∧
         medication_name req = trim "Aspirin ".
Proof.
  apply (check_shows_loader sample_page 1 (row_of "Aspirin " "2") "Aspirin ");
    reflexivity.
Defined.

(** ** A direct call and the pending debounced check *)

Lemma call_check_pending i s : pending_checks (call_check i s) = pending_checks s.
Proof.
  unfold pending_checks. by destruct (call_check_fields i s) as (-> & _).
Qed.

Lemma request_for_twice v l0 l1 l2 :
  request_for v l0 l1 → request_for v l1 l2 →
  if nonempty (trim v)
  then ∃ r1 r2, l2 = l0 ++ [r1; r2] ∧
                medication_name r1 = trim v ∧ medication_name r2 = trim v
  else l2 = l0.
Proof.
  unfold request_for. destruct (nonempty (trim v)).
  - intros (r1 & -> & H1) (r2 & -> & H2). exists r1, r2.
    by rewrite <- app_assoc.
  - by intros -> ->.
Qed.

(** X7: leaving the field does not cancel the debounced check armed by
    typing in it.  After an [input] event on a field, a [blur] of the same
    field within the 800ms, and then quiet, the check has been called twice
    on that field, and when the field is not blank two requests for the same
    name have been sent. *)
Theorem blur_keeps_debounced_check (p : Page) (tr : list (N * Event)) (i : nat)
    (v : string) (t t' T : N) :
  let s := run tr (boot p) in
  let s' := run [(t, UserInput i v); (t', Blur i); (T, Wait)] s in
  has_input i (page s) = true →
  (now s ≤ t)%N → (t ≤ t')%N → (t' < t + 800)%N → (t + 800 ≤ T)%N →
  calls s' = calls (advance t s) ++ [i; i] ∧
  if nonempty (trim v)
  then ∃ r1 r2, sent s' = sent (advance t s) ++ [r1; r2] ∧
                medication_name r1 = trim v ∧ medication_name r2 = trim v
  else sent s' = sent (advance t s).
Proof.
  intros s s' Hin Hnow Hle Hlt HT.
  assert (wf s) as Hwf by apply wf_reachable.
  destruct (step_input_armed s i t v Hwf Hin Hnow)
    as (Hwf1 & (_ & Hv & tm & Hp & Ha & Hd) & Hc1 & Hs1).
  set (s1 := step (t, UserInput i v) s) in *.
  destruct (advance_quiet t' s1 Hwf1) as (Hc2 & Hs2 & Hp2).
  { intros x Hx. rewrite Hp in Hx. apply list_elem_of_singleton in Hx as ->. lia. }
  assert (wf (advance t' s1)) as Hwf2 by (by apply wf_advance).
  assert (rows (page (advance t' s1)) !! i ≫= nameInput = Some v) as Hv2.
  { by rewrite names_lookup, advance_names, <- names_lookup. }
  set (s2 := step (t', Blur i) s1).
  assert (s2 = call_check i (advance t' s1)) as Hs2eq.
  { unfold s2, step. cbn [fst snd handle].
    by rewrite (has_input_of_value _ _ _ Hv2). }
  destruct (call_check_fields i (advance t' s1)) as (_ & _ & _ & _ & Hc3 & Hn3).
  pose proof (call_check_sent i (advance t' s1) v Hv2) as Hs3.
  assert (wf s2) as Hwf3 by (rewrite Hs2eq; by apply wf_call_check).
  destruct (advance_later T s2 tm i v Hwf3) as (_ & Hc4 & Hs4).
  { by rewrite Hs2eq, call_check_pending, Hp2. }
  { done. }
  { lia. }
  { by rewrite Hs2eq, names_lookup, Hn3, <- names_lookup. }
  change s' with (advance T s2). split.
  - rewrite Hc4, Hs2eq, Hc3, Hc2, Hc1. by rewrite <- app_assoc.
  - rewrite <- Hs1, <- Hs2. rewrite <- Hs2eq in Hs3.
    exact (request_for_twice v _ _ _ Hs3 Hs4).
Qed.

Lemma blur_keeps_debounced_check_witness :
  let s := run [] (boot sample_page) in
  let s' := run [(0%N, UserInput 0 "aspirin"); (300%N, Blur 0); (800%N, Wait)] s in
  calls s' = calls (advance 0 s) ++ [0; 0] ∧
  if nonempty (trim "aspirin")
  then ∃ r1 r2, sent s' = sent (advance 0 s) ++ [r1; r2] ∧
                medication_name r1 = trim "aspirin" ∧
                medication_name r2 = trim "aspirin"
  else sent s' = sent (advance 0 s).
Proof.
  apply (blur_keeps_debounced_check sample_page [] 0 "aspirin" 0%N 300%N 800%N).
  - reflexivity.
  - by vm_compute.
  - by vm_compute.
  - by vm_compute.
  - by vm_compute.
Defined.

(** ** The timer that hides the safe notice *)

Lemma respond_found k i s :
  wf s → (k, i) ∈ inflight s →
  ∃ j, list_find (λ c, c.1 = k) (inflight s) = Some (j, (k, i)).
Proof.
  intros Hwf Hin.
  destruct (list_find_elem_of (λ c, c.1 = k) (inflight s) (k, i) Hin eq_refl)
    as [[j c] Hfind].
  exists j. rewrite Hfind. apply list_find_Some in Hfind as (Hj & Hck & _).
  apply list_elem_of_lookup_2 in Hj.
  assert (c = (k, i)) as ->; [|done].
  apply (NoDup_fmap_eq fst (inflight s)); [apply Hwf|done|done|done].
Qed.

Lemma respond_unfold k i o r s :
  wf s → (k, i) ∈ inflight s → rows (page s) !! i = Some r →
  respond k o s =
  let s2 := set_page (update_row i (λ r, (resume_row o r).1) (page s))
              (set_inflight (filter (λ c, c.1 ≠ k) (inflight s)) s) in
  if (resume_row o r).2 then (setTimeout (Hide i) 2000 s2).2 else s2.
Proof.
  intros Hwf Hin Hr. unfold respond.
  destruct (respond_found k i s Hwf Hin) as [j ->]. by rewrite Hr.
Qed.

Lemma respond_pending k o s : pending_checks (respond k o s) = pending_checks s.
Proof.
  unfold respond. destruct (list_find _ (inflight s)) as [[j [k' i]]|]; [|done].
  destruct (rows (page s) !! i) as [r|]; [|done].
  destruct (resume_row o r).2; [|done].
  unfold pending_checks. simpl. rewrite filter_app. simpl. apply app_nil_r.
Qed.

Lemma respond_timers k o s tm : tm ∈ timers s → tm ∈ timers (respond k o s).
Proof.
  intros Htm. unfold respond.
  destruct (list_find _ (inflight s)) as [[j [k' i]]|]; [|done].
  destruct (rows (page s) !! i) as [r|]; [|done].
  destruct (resume_row o r).2; [|done]. simpl. apply elem_of_app. by left.
Qed.

Lemma fire_hide_row x s j i r :
  action x = Hide j → rows (page s) !! i = Some r →
  rows (page (fire x s)) !! i =
  Some (if decide (i = j) then map_container (set_display "none") r else r).
Proof.
  intros Ha Hr. unfold fire. rewrite Ha. cbn [page set_page set_now set_timers].
  destruct (decide (i = j)) as [->|Hij].
  - by rewrite update_row_lookup, Hr.
  - by rewrite update_row_lookup_ne.
Qed.

Lemma hidden_twice r :
  map_container (set_display "none") (map_container (set_display "none") r) =
  map_container (set_display "none") r.
Proof. by destruct r as [n d [c|] cl]. Qed.

Lemma pending_empty_hide s x :
  pending_checks s = [] → x ∈ timers s → ∃ j, action x = Hide j.
Proof.
  intros Hp Hx. destruct (is_later_cases x) as [(i & Ha & Hl)|(j & Ha & Hl)]; [|eauto].
  assert (x ∈ pending_checks s) as Hin by (by apply list_elem_of_filter).
  rewrite Hp in Hin. by apply elem_of_nil in Hin.
Qed.

(** With no debounced check pending, the passing of time only hides
    surfaces: a surface already hidden stays so. *)
Lemma fire_due_stays_hidden n t s i r :
  wf s → pending_checks s = [] →
  rows (page s) !! i = Some (map_container (set_display "none") r) →
  rows (page (fire_due n t s)) !! i = Some (map_container (set_display "none") r).
Proof.
  intros Hwf Hp Hr.
  apply (fire_due_ind
           (λ s', wf s' ∧ pending_checks s' = [] ∧
                  rows (page s') !! i = Some (map_container (set_display "none") r)));
    [|done].
  intros s' x (Hwf' & Hp' & Hr') [Hx _]%next_due_Some.
  destruct (pending_empty_hide s' x Hp' Hx) as [j Ha].
  destruct (fire_hide x s' j Hwf' Hx Ha) as (Hwf1 & _ & _ & _ & _ & Hp1 & _).
  split; [done|]. split; [congruence|].
  rewrite (fire_hide_row x s' j i _ Ha Hr').
  destruct (decide (i = j)); [|done]. by rewrite hidden_twice.
Qed.

(** A hide timer that is due fires, and leaves the surface of its row
    hidden. *)
Lemma fire_due_hides n t s i r tm :
  wf s → pending_checks s = [] →
  tm ∈ timers s → action tm = Hide i → (deadline tm ≤ t)%N →
  rows (page s) !! i = Some r →
  length (timers s) ≤ n →
  rows (page (fire_due n t s)) !! i = Some (map_container (set_display "none") r).
Proof.
  revert s. induction n as [|n IH]; intros s Hwf Hp Htm Ha Hd Hr Hlen.
  { destruct (timers s); [by apply elem_of_nil in Htm|simpl in Hlen; lia]. }
  simpl. destruct (next_due t (timers s)) as [x|] eqn:Hnext.
  2:{ pose proof (next_due_None t _ tm Hnext Htm). lia. }
  apply next_due_Some in Hnext as [Hx Hxd].
  destruct (pending_empty_hide s x Hp Hx) as [j Hxa].
  destruct (fire_hide x s j Hwf Hx Hxa) as (Hwf1 & _ & _ & _ & _ & Hp1 & _ & Hlen1).
  pose proof (fire_hide_row x s j i r Hxa Hr) as Hr1.
  destruct (decide (i = j)) as [->|Hij].
  - apply fire_due_stays_hidden; [done|congruence|done].
  - apply (IH (fire x s)); try done; [congruence| |lia].
    unfold fire. rewrite Hxa. cbn [timers set_page set_now set_timers].
    apply list_elem_of_filter. split; [|done]. intros Hid.
    assert (tm = x) as -> by (by apply (NoDup_fmap_eq timer_id (timers s)); [apply Hwf|..]).
    congruence.
Qed.

Lemma advance_hides t s i r tm :
  wf s → pending_checks s = [] →
  tm ∈ timers s → action tm = Hide i → (deadline tm ≤ t)%N →
  rows (page s) !! i = Some r →
  rows (page (advance t s)) !! i = Some (map_container (set_display "none") r).
Proof.
  intros. unfold advance. cbn [page set_now]. by eapply fire_due_hides.
Qed.

Lemma advance_keeps_timer t s tm :
  wf s → pending_checks s = [] → tm ∈ timers s → (t < deadline tm)%N →
  tm ∈ timers (advance t s).
Proof.
  intros Hwf Hp Htm Hd. unfold advance. cbn [timers set_now].
  apply (fire_due_ind
           (λ s', wf s' ∧ pending_checks s' = [] ∧ tm ∈ timers s')); [|done].
  intros s' x (Hwf' & Hp' & Htm') [Hx Hxd]%next_due_Some.
  destruct (pending_empty_hide s' x Hp' Hx) as [j Ha].
  destruct (fire_hide x s' j Hwf' Hx Ha) as (Hwf1 & _ & _ & _ & _ & Hp1 & _).
  split; [done|]. split; [congruence|].
  unfold fire. rewrite Ha. cbn [timers set_page set_now set_timers].
  apply list_elem_of_filter. split; [|done]. intros Hid.
  assert (tm = x) as -> by (by apply (NoDup_fmap_eq timer_id (timers s')); [apply Hwf'|..]).
  lia.
Qed.

Lemma advance_pending_empty t s :
  wf s → pending_checks s = [] → pending_checks (advance t s) = [].
Proof.
  intros Hwf Hp. destruct (advance_quiet t s Hwf) as (_ & _ & ->); [|done].
  rewrite Hp. intros x Hx. by apply elem_of_nil in Hx.
Qed.

Lemma resume_row_cards r c ws sf :
  warningContainer r = Some c → ws ≠ [] →
  Forall (λ w, is_Some (severity w)) ws →
  ∃ bs, Forall2 card_of ws bs ∧
        warningContainer (resume_row (answer ws sf) r).1 =
          Some {| innerHTML := Cards bs; display := "block" |} ∧
        filter (λ c, c ∈ tier_classes) (classList (resume_row (answer ws sf) r).1) =
          [tier_of (Some ws)] ∧
        (resume_row (answer ws sf) r).2 = false.
Proof.
  intros Hc Hne Hsev.
  destruct (displayWarnings_cards c ws sf Hne Hsev) as (bs & Hd & Hcards & _).
  exists bs. split; [done|].
  set (d := {| success := true; warnings := Some ws; safe := sf |}).
  assert (unrenderable d = false) as Hu.
  { simpl. apply not_true_iff_false. intros Hex%renderWarnings_Throw.
    destruct (renderWarnings_Ok ws Hsev) as (bs' & Hbs & _). congruence. }
  destruct (resume_row_success d r eq_refl Hu) as (c' & armed & Hd' & Hres).
  unfold answer. fold d. rewrite Hres. cbn [fst snd].
  unfold row_surface in Hd'. rewrite Hc in Hd'.
  change (displayWarnings c (Some ws) sf = Ok (c', armed)) in Hd'.
  rewrite Hd in Hd'. injection Hd' as <- <-.
  change (warnings d) with (Some ws).
  split; [|split; [apply tier_count_after_styling|done]].
  rewrite updateRowStyling_container. simpl. by rewrite Hc.
Qed.

Lemma respond_safe k i r c s :
  wf s → (k, i) ∈ inflight s → rows (page s) !! i = Some r →
  warningContainer r = Some c →
  ∃ r1 tm,
    rows (page (respond k (answer [] true) s)) !! i = Some r1 ∧
    warningContainer r1 = Some (set_innerHTML SafeNotice c) ∧
    filter (λ c, c ∈ tier_classes) (classList r1) = ["is-safe"] ∧
    tm ∈ timers (respond k (answer [] true) s) ∧
    action tm = Hide i ∧ deadline tm = (now s + 2000)%N.
Proof.
  intros Hwf Hin Hr Hc.
  assert (resume_row (answer [] true) r =
          (updateRowStyling (map_container (λ _, set_innerHTML SafeNotice c) r) (Some []),
           true)) as Hres.
  { unfold resume_row, resume_try, answer, row_surface. simpl. by rewrite Hc. }
  exists (resume_row (answer [] true) r).1. eexists.
  split; [by apply respond_row|].
  rewrite (respond_unfold k i _ r s Hwf Hin Hr). rewrite Hres. cbn [fst snd].
  split; [|split; [apply (tier_count_after_styling _ (Some []))|]].
  { rewrite updateRowStyling_container. simpl. by rewrite Hc. }
  split; [simpl; apply elem_of_app; right; constructor|done].
Qed.

(** X8: the notice of a safe answer goes away by itself.  When a safe answer
    with no warning arrives for a row, its surface holds the notice and the
    row is marked [is-safe]; 2000ms later, nothing else having happened and
    no debounced check being pending, the surface is hidden, the notice
    still in it, and the row is still marked [is-safe]. *)
Theorem safe_notice_hidden_after_2s (p : Page) (tr : list (N * Event))
    (k i : nat) (t T : N) :
  let s := run tr (boot p) in
  let s1 := run [(t, Respond k (answer [] true))] s in
  let s2 := run [(t, Respond k (answer [] true)); (T, Wait)] s in
  (k, i) ∈ inflight s →
  pending_checks s = [] →
  (now s ≤ t)%N → (t + 2000 ≤ T)%N →
  ∃ r1 r2 c,
    rows (page s1) !! i = Some r1 ∧
    warningContainer r1 = Some (set_innerHTML SafeNotice c) ∧
    rows (page s2) !! i = Some r2 ∧
    warningContainer r2 = Some {| innerHTML := SafeNotice; display := "none" |} ∧
    filter (λ c, c ∈ tier_classes) (classList r2) = ["is-safe"].
Proof.
  intros s s1 s2 Hin Hp Hnow HT.
  assert (wf s) as Hwf by apply wf_reachable.
  set (sa := advance t s).
  assert (wf sa) as Hwfa by (by apply wf_advance).
  assert ((k, i) ∈ inflight sa) as Hina by (by apply advance_inflight).
  destruct (wf_inflight_row sa Hwfa _ Hina) as (r & Hr & [c Hc]). cbn [snd] in Hr.
  destruct (respond_safe k i r c sa Hwfa Hina Hr Hc)
    as (r1 & tm & Hr1 & Hc1 & Hcl1 & Htm & Ha & Hd).
  set (sr := respond k (answer [] true) sa) in *.
  exists r1, (map_container (set_display "none") r1), c.
  split; [done|]. split; [done|]. split.
  - change s2 with (advance T sr).
    apply (advance_hides T sr i r1 tm); try done.
    + by apply wf_respond.
    + unfold sr. rewrite respond_pending. by apply advance_pending_empty.
    + rewrite Hd. unfold sa. rewrite advance_now by done. lia.
  - split; [|done]. simpl. by rewrite Hc1.
Qed.

Lemma safe_notice_hidden_after_2s_witness :
  let s := run [(0%N, Blur 0)] (boot sample_page) in
  let s1 := run [(100%N, Respond 0 (answer [] true))] s in
  let s2 := run [(100%N, Respond 0 (answer [] true)); (2100%N, Wait)] s in
  ∃ r1 r2 c,
    rows (page s1) !! 0 = Some r1 ∧
    warningContainer r1 = Some (set_innerHTML SafeNotice c) ∧
    rows (page s2) !! 0 = Some r2 ∧
    warningContainer r2 = Some {| innerHTML := SafeNotice; display := "none" |} ∧
    filter (λ c, c ∈ tier_classes) (classList r2) = ["is-safe"].
Proof.
  apply (safe_notice_hidden_after_2s sample_page [(0%N, Blur 0)] 0 0 100%N 2100%N).
  - vm_compute. repeat constructor.
  - reflexivity.
  - by vm_compute.
  - by vm_compute.
Defined.

(** X9: the timer that hides the safe notice is never cancelled, and hides
    whatever the surface holds when it fires.  When a safe answer for a row
    is followed, less than 2000ms later, by an answer with warnings for the
    same row, the cards are rendered and the row gets their styling class,
    but once the 2000ms are over the surface is hidden with the cards in
    it. *)
Theorem hide_timer_hides_later_warnings (p : Page) (tr : list (N * Event))
    (k1 k2 i : nat) (t t' T : N) (ws : list Warning) (sf : bool) :
  let s := run tr (boot p) in
  let s' := run [(t, Respond k1 (answer [] true));
                 (t', Respond k2 (answer ws sf)); (T, Wait)] s in
  (k1, i) ∈ inflight s →
  (k2, i) ∈ inflight s →
  k1 ≠ k2 →
  pending_checks s = [] →
  (now s ≤ t)%N → (t ≤ t')%N → (t' < t + 2000)%N → (t + 2000 ≤ T)%N →
  ws ≠ [] →
  Forall (λ w, is_Some (severity w)) ws →
  ∃ r bs,
    rows (page s') !! i = Some r ∧
    Forall2 card_of ws bs ∧
    warningContainer r = Some {| innerHTML := Cards bs; display := "none" |} ∧
    filter (λ c, c ∈ tier_classes) (classList r) = [tier_of (Some ws)].
Proof.
  intros s s' H1 H2 Hk Hp Hnow Hle Hlt HT Hne Hsev.
  assert (wf s) as Hwf by apply wf_reachable.
  set (sa := advance t s).
  assert (wf sa) as Hwfa by (by apply wf_advance).
  assert ((k1, i) ∈ inflight sa) as Hina by (by apply advance_inflight).
  destruct (wf_inflight_row sa Hwfa _ Hina) as (r & Hr & [c Hc]). cbn [snd] in Hr.
  destruct (respond_safe k1 i r c sa Hwfa Hina Hr Hc)
    as (_ & tm & _ & _ & _ & Htm & Ha & Hd).
  set (s1 := respond k1 (answer [] true) sa) in *.
  assert (wf s1) as Hwf1 by (by apply wf_respond).
  assert (pending_checks s1 = []) as Hp1.
  { unfold s1. rewrite respond_pending. by apply advance_pending_empty. }
  assert (deadline tm = (t + 2000)%N) as Hd'.
  { rewrite Hd. unfold sa. by rewrite advance_now. }
  set (sb := advance t' s1).
  assert (wf sb) as Hwfb by (by apply wf_advance).
  assert (pending_checks sb = []) as Hpb by (by apply advance_pending_empty).
  assert (tm ∈ timers sb) as Htmb by (apply advance_keeps_timer; try done; lia).
  assert ((k2, i) ∈ inflight sb) as Hinb.
  { apply advance_inflight. apply respond_inflight_other; [done|].
    by apply advance_inflight. }
  destruct (wf_inflight_row sb Hwfb _ Hinb) as (rb & Hrb & [cb Hcb]). cbn [snd] in Hrb.
  destruct (resume_row_cards rb cb ws sf Hcb Hne Hsev) as (bs & Hcards & Hc2 & Hcl2 & _).
  set (s2 := respond k2 (answer ws sf) sb).
  exists (map_container (set_display "none") (resume_row (answer ws sf) rb).1), bs.
  split; [|split; [done|split; [|done]]].
  - change s' with (advance T s2).
    apply (advance_hides T s2 i _ tm); try done.
    + by apply wf_respond.
    + unfold s2. by rewrite respond_pending.
    + by apply respond_timers.
    + lia.
    + by apply respond_row.
  - simpl. by rewrite Hc2.
Qed.

Lemma hide_timer_hides_later_warnings_witness :
  let s := run [(0%N, Blur 0); (10%N, Blur 0)] (boot sample_page) in
  let s' := run [(100%N, Respond 0 (answer [] true));
                 (500%N, Respond 1 (answer [warn_high] false)); (2100%N, Wait)] s in
  ∃ r bs,
    rows (page s') !! 0 = Some r ∧
    Forall2 card_of [warn_high] bs ∧
    warningContainer r = Some {| innerHTML := Cards bs; display := "none" |} ∧
    filter (λ c, c ∈ tier_classes) (classList r) = [tier_of (Some [warn_high])].
Proof.
  apply (hide_timer_hides_later_warnings sample_page [(0%N, Blur 0); (10%N, Blur 0)]
           0 1 0 100%N 500%N 2100%N [warn_high] false).
  - vm_compute. repeat constructor.
  - vm_compute. repeat constructor.
  - lia.
  - reflexivity.
  - by vm_compute.
  - by vm_compute.
  - by vm_compute.
  - by vm_compute.
  - discriminate.
  - repeat constructor; by eexists.
Defined.

(** X10: an answer changes the row of its check and no other.  Every other
    row is as before, the fields of all rows are as before, and nothing is
    sent or called. *)
Theorem answer_touches_only_its_row (p : Page) (tr : list (N * Event))
    (k i j : nat) (o : Outcome) :
  let s := run tr (boot p) in
  (k, i) ∈ inflight s →
  j ≠ i →
  rows (page (respond k o s)) !! j = rows (page s) !! j ∧
  names (page (respond k o s)) = names (page s) ∧
  sent (respond k o s) = sent s ∧
  calls (respond k o s) = calls s.
Proof.
  intros s Hin Hj.
  assert (wf s) as Hwf by apply wf_reachable.
  destruct (wf_inflight_row s Hwf _ Hin) as (r & Hr & _). cbn [snd] in Hr.
  rewrite (respond_unfold k i o r s Hwf Hin Hr). cbn zeta.
  assert (names (update_row i (λ r, (resume_row o r).1) (page s)) = names (page s)) as Hn.
  { apply names_update_row. intros r0. apply resume_row_keeps. }
  destruct (resume_row o r).2; cbn [page sent calls setTimeout snd set_page set_inflight].
  - split; [by apply update_row_lookup_ne|done].
  - split; [by apply update_row_lookup_ne|done].
Qed.

Lemma answer_touches_only_its_row_witness :
  let s := run [(0%N, Blur 0)] (boot sample_page) in
  rows (page (respond 0 (answer [warn_high] false) s)) !! 1 = rows (page s) !! 1 ∧
  names (page (respond 0 (answer [warn_high] false) s)) = names (page s) ∧
  sent (respond 0 (answer [warn_high] false) s) = sent s ∧
  calls (respond 0 (answer [warn_high] false) s) = calls s.
Proof.
  apply (answer_touches_only_its_row sample_page [(0%N, Blur 0)] 0 0 1
           (answer [warn_high] false)).
  - vm_compute. repeat constructor.
  - lia.
Defined.

(** ** Reading numbers *)

Lemma parse_digits_grows s : ∀ acc,
  (0 < acc)%Z → ∃ n, parse_digits 10 s (Some acc) = Some n ∧ (acc ≤ n)%Z.
Proof.
  induction s as [|c r IH]; intros acc Hacc; simpl; [exists acc; split; [done|lia]|].
  destruct (digit_value c) as [d|] eqn:Hd; [|exists acc; split; [done|lia]].
  destruct (d <? 10)%Z eqn:Hlt; [|exists acc; split; [done|lia]].
  assert (0 ≤ d)%Z as Hd0.
  { unfold digit_value in Hd. cbv zeta in Hd.
    destruct (_ && _) in Hd; [injection Hd as <-; apply Nat2Z.is_nonneg|].
    destruct (_ && _) in Hd; [injection Hd as <-; apply Nat2Z.is_nonneg|].
    destruct (_ && _) in Hd; [injection Hd as <-; apply Nat2Z.is_nonneg|done]. }
  destruct (IH (10 * acc + d)%Z ltac:(lia)) as (n & Hn & Hle).
  exists n. split; [done|lia].
Qed.








(** ** The suggestion widget *)

(** X12: the dropdown is open only after a successful answer with at least
    one suggestion, and then holds one item per suggestion, in the order
    delivered, each carrying the suggestion's name; after any other answer
    (no answer, unreadable body, no success flag, no list, an empty list) it
    is closed and empty, whatever it held before. *)
Theorem dropdown_after_answer (o : SuggestOutcome) (d : Dropdown) :
  (∃ l, o = SuggestBody true (Some l) ∧ l ≠ [] ∧
        className (search_resume o d) = "autocomplete-container active" ∧
        item_value <$> items (search_resume o d) = suggestion_name <$> l ∧
        item_text <$> items (search_resume o d) = suggestion_name <$> l ∧
        item_type <$> items (search_resume o d) =
          (λ sg, if_truthy (suggestion_type sg)) <$> l) ∨
  ((¬ ∃ l, o = SuggestBody true (Some l) ∧ l ≠ []) ∧
   search_resume o d = new_dropdown).
Proof.
  destruct o as [| |[] [[|sg l]|]].
  - right. split; [|done]. by intros (l' & Heq & _).
  - right. split; [|done]. by intros (l' & Heq & _).
  - right. split; [|done]. intros (l' & Heq & Hne). by injection Heq as <-.
  - left. exists (sg :: l). split; [done|]. split; [done|].
    unfold search_resume. simpl. split; [done|].
    rewrite <- !list_fmap_compose. done.
  - right. split; [|done]. by intros (l' & Heq & _).
  - right. split; [|done]. by intros (l' & Heq & _).
  - right. split; [|done]. by intros (l' & Heq & _).
  - right. split; [|done]. by intros (l' & Heq & _).
Qed.

Lemma select_item_state i it d s :
  has_input i (page s) = true →
  select_item i it (d, s) =
  (new_dropdown,
   call_check i
     (set_page (update_row i (set_nameInput (Some (item_value it))) (page s)) s)).
Proof. intros Hin. unfold select_item. cbn [fst snd]. by rewrite Hin. Qed.

Lemma set_name_value i v p :
  has_input i p = true →
  rows (update_row i (set_nameInput (Some v)) p) !! i ≫= nameInput = Some v.
Proof.
  intros Hin. rewrite update_row_lookup.
  destruct (has_input_row i p Hin) as (r & v0 & -> & _). done.
Qed.

(** X13: choosing a suggestion writes its name into the field, closes the
    dropdown and runs the check on the field at once: the check is called
    once, a request for the trimmed name is sent when the name is not blank,
    and no timer is armed or cleared, so that a debounced check left
    pending by typing stays pending. *)
Theorem select_item_checks_at_once (i : nat) (it : Item) (d : Dropdown) (s : State) :
  has_input i (page s) = true →
  let ds := select_item i it (d, s) in
  ds.1 = new_dropdown ∧
  names (page ds.2) = <[i := Some (item_value it)]> (names (page s)) ∧
  calls ds.2 = calls s ++ [i] ∧
  request_for (item_value it) (sent s) (sent ds.2) ∧
  timers ds.2 = timers s ∧ timeout ds.2 = timeout s.
Proof.
  intros Hin. simpl. rewrite (select_item_state i it d s Hin). cbn [fst snd].
  set (s1 := set_page _ s).
  destruct (call_check_fields i s1) as (Ht & Hto & _ & _ & Hc & Hn).
  split; [done|]. split; [|split; [done|split; [|done]]].
  - rewrite Hn. unfold s1, names, update_row. simpl.
    apply list_eq. intros j. rewrite list_lookup_fmap.
    destruct (decide (i = j)) as [->|Hij].
    + rewrite list_lookup_alter_eq.
      destruct (has_input_row j (page s) Hin) as (r & v0 & Hr & _).
      rewrite Hr. simpl. symmetry. apply list_lookup_insert_eq.
      rewrite length_fmap. by eapply lookup_lt_Some.
    + rewrite list_lookup_alter_ne, list_lookup_insert_ne by done.
      by rewrite list_lookup_fmap.
  - apply (call_check_sent i s1). by apply set_name_value.
Qed.

Lemma select_item_checks_at_once_witness :
  let ds := select_item 0 (suggestion_item {| suggestion_name := "warfarin";
                                             suggestion_type := Some "generic" |})
              (new_dropdown, boot sample_page) in
  ds.1 = new_dropdown ∧
  names (page ds.2) = <[0 := Some "warfarin"]> (names (page (boot sample_page))) ∧
  calls ds.2 = calls (boot sample_page) ++ [0] ∧
  request_for "warfarin" (sent (boot sample_page)) (sent ds.2) ∧
  timers ds.2 = timers (boot sample_page) ∧ timeout ds.2 = timeout (boot sample_page).
Proof.
  apply (select_item_checks_at_once 0
           (suggestion_item {| suggestion_name := "warfarin";
                               suggestion_type := Some "generic" |})
           new_dropdown (boot sample_page)).
  reflexivity.
Defined.

(** X14: choosing a suggestion does not cancel the debounced check armed by
    the typing that brought the suggestions up.  After an [input] event on a
    field, the choice of a suggestion for it within the 800ms, and then
    quiet, the check has been called twice on the field, and when the
    chosen name is not blank two requests for it have been sent. *)
Theorem select_keeps_debounced_check (p : Page) (tr : list (N * Event)) (i : nat)
    (v : string) (it : Item) (d : Dropdown) (t t' T : N) :
  let s := run tr (boot p) in
  let ds := select_step t' i it (d, step (t, UserInput i v) s) in
  let s' := step (T, Wait) ds.2 in
  has_input i (page s) = true →
  (now s ≤ t)%N → (t ≤ t')%N → (t' < t + 800)%N → (t + 800 ≤ T)%N →
  ds.1 = new_dropdown ∧
  calls s' = calls (advance t s) ++ [i; i] ∧
  if nonempty (trim (item_value it))
  then ∃ r1 r2, sent s' = sent (advance t s) ++ [r1; r2] ∧
                medication_name r1 = trim (item_value it) ∧
                medication_name r2 = trim (item_value it)
  else sent s' = sent (advance t s).
Proof.
  intros s ds s' Hin Hnow Hle Hlt HT.
  assert (wf s) as Hwf by apply wf_reachable.
  destruct (step_input_armed s i t v Hwf Hin Hnow)
    as (Hwf1 & (_ & Hv & tm & Hp & Ha & Hd) & Hc1 & Hs1).
  set (s1 := step (t, UserInput i v) s) in *.
  destruct (advance_quiet t' s1 Hwf1) as (Hc2 & Hs2 & Hp2).
  { intros x Hx. rewrite Hp in Hx. apply list_elem_of_singleton in Hx as ->. lia. }
  set (sa := advance t' s1) in *.
  assert (wf sa) as Hwfa by (by apply wf_advance).
  assert (has_input i (page sa) = true) as Hina.
  { apply (has_input_of_value _ _ v).
    unfold sa. by rewrite names_lookup, advance_names, <- names_lookup. }
  set (sb := set_page (update_row i (set_nameInput (Some (item_value it))) (page sa)) sa).
  assert (ds = (new_dropdown, call_check i sb)) as Hds.
  { unfold ds, select_step. cbn [fst snd]. fold sa. by apply select_item_state. }
  assert (wf sb) as Hwfb.
  { apply wf_update_row; [apply keeps_surface_set_nameInput|done]. }
  assert (rows (page sb) !! i ≫= nameInput = Some (item_value it)) as Hvb.
  { by apply set_name_value. }
  destruct (call_check_fields i sb) as (_ & _ & _ & _ & Hc3 & Hn3).
  pose proof (call_check_sent i sb _ Hvb) as Hs3.
  set (s2 := call_check i sb) in *.
  assert (wf s2) as Hwf2 by (by apply wf_call_check).
  destruct (advance_later T s2 tm i (item_value it) Hwf2) as (_ & Hc4 & Hs4).
  { unfold s2. rewrite call_check_pending.
    change (pending_checks sb) with (pending_checks sa). by rewrite Hp2. }
  { done. }
  { lia. }
  { by rewrite names_lookup, Hn3, <- names_lookup. }
  rewrite Hds. cbn [fst]. split; [done|].
  change s' with (step (T, Wait) ds.2). rewrite Hds. cbn [snd].
  change (step (T, Wait) s2) with (advance T s2). split.
  - rewrite Hc4, Hc3. change (calls sb) with (calls sa).
    rewrite Hc2, Hc1. by rewrite <- app_assoc.
  - rewrite <- Hs1, <- Hs2. change (sent sa) with (sent sb).
    exact (request_for_twice _ _ _ _ Hs3 Hs4).
Qed.

Lemma select_keeps_debounced_check_witness :
  let s := run [] (boot sample_page) in
  let it := suggestion_item {| suggestion_name := "warfarin"; suggestion_type := None |} in
  let ds := select_step 500%N 0 it (new_dropdown, step (0%N, UserInput 0 "war") s) in
  let s' := step (800%N, Wait) ds.2 in
  ds.1 = new_dropdown ∧
  calls s' = calls (advance 0 s) ++ [0; 0] ∧
  if nonempty (trim (item_value it))
  then ∃ r1 r2, sent s' = sent (advance 0 s) ++ [r1; r2] ∧
                medication_name r1 = trim (item_value it) ∧
                medication_name r2 = trim (item_value it)
  else sent s' = sent (advance 0 s).
Proof.
  apply (select_keeps_debounced_check sample_page [] 0 "war"
           (suggestion_item {| suggestion_name := "warfarin"; suggestion_type := None |})
           new_dropdown 0%N 500%N 800%N).
  - reflexivity.
  - by vm_compute.
  - by vm_compute.
  - by vm_compute.
  - by vm_compute.
Defined.

(** ** The widgets' timers *)

Lemma sooner_cases a b : sooner a b = a ∨ sooner a b = b.
Proof. unfold sooner. destruct (search_deadline b <? search_deadline a)%N; auto. Qed.

Lemma foldl_sooner_elem tm rest : foldl sooner tm rest ∈ tm :: rest.
Proof.
  revert tm. induction rest as [|x rest IH]; intros tm; simpl; [constructor|].
  specialize (IH (sooner tm x)). apply elem_of_cons in IH as [->|IH].
  - destruct (sooner_cases tm x) as [-> | ->]; repeat constructor.
  - by do 2 constructor.
Qed.

Lemma next_search_Some t ts tm :
  next_search t ts = Some tm → tm ∈ ts ∧ (search_deadline tm ≤ t)%N.
Proof.
  unfold next_search.
  destruct (filter _ ts) as [|x rest] eqn:Hf; [done|]. intros [= <-].
  pose proof (foldl_sooner_elem x rest) as Hin. rewrite <- Hf in Hin.
  apply list_elem_of_filter in Hin as [Hd Hin]. split; [done|].
  by apply N.leb_le.
Qed.

Lemma next_search_None t ts tm :
  next_search t ts = None → tm ∈ ts → (t < search_deadline tm)%N.
Proof.
  unfold next_search. destruct (filter _ ts) as [|x rest] eqn:Hf; [|done].
  intros _ Hin. destruct (search_deadline tm <=? t)%N eqn:Hd.
  - assert (tm ∈ filter (λ tm, (search_deadline tm <=? t)%N = true) ts) as Hin'
      by (by apply list_elem_of_filter).
    rewrite Hf in Hin'. by apply elem_of_nil in Hin'.
  - by apply N.leb_gt.
Qed.

Lemma insert_lookup_known {A} (l : list A) i j x y :
  l !! i = Some y → <[i:=x]> l !! j = if decide (i = j) then Some x else l !! j.
Proof.
  intros Hi. destruct (decide (i = j)) as [->|Hij].
  - apply list_lookup_insert_eq. by eapply lookup_lt_Some.
  - by apply list_lookup_insert_ne.
Qed.

Lemma swf_boot values : suggest_wf (suggest_boot values).
Proof.
  constructor; simpl.
  - constructor.
  - intros tm Hin. by apply elem_of_nil in Hin.
  - intros tm Hin. by apply elem_of_nil in Hin.
  - intros w wd n Hw Hn. rewrite list_lookup_fmap in Hw.
    destruct (values !! w); simplify_eq/=.
  - intros w1 w2 wd1 wd2 n Hw _ Hn _. rewrite list_lookup_fmap in Hw.
    destruct (values !! w1); simplify_eq/=.
Qed.

Lemma clear_search_elem o ts tm :
  tm ∈ clear_search o ts ↔ tm ∈ ts ∧ o ≠ Some (search_id tm).
Proof.
  destruct o as [n|]; simpl.
  - rewrite list_elem_of_filter. split; intros [H1 H2]; split; try done; congruence.
  - split; [intros ?; by split|by intros [? _]].
Qed.

Lemma clear_search_NoDup o ts :
  NoDup (search_id <$> ts) → NoDup (search_id <$> clear_search o ts).
Proof. destruct o; simpl; [apply NoDup_fmap_filter|done]. Qed.

Lemma swf_typed w v s : suggest_wf s → suggest_wf (typed w v s).
Proof.
  intros Hwf. unfold typed. destruct (widgets s !! w) as [wd|] eqn:Hw; [|done].
  set (wd' := set_widget_timeout (Some (next_search_id s)) (set_field_value v wd)).
  assert (∀ j, <[w:=wd']> (widgets s) !! j =
               if decide (w = j) then Some wd' else widgets s !! j) as Hlk.
  { intros j. by eapply insert_lookup_known. }
  destruct Hwf. constructor; simpl.
  - rewrite fmap_app. apply NoDup_app. split; [by apply clear_search_NoDup|].
    split; [|apply NoDup_singleton].
    intros x (tm & -> & [Hin _]%clear_search_elem)%list_elem_of_fmap Hx.
    simpl in Hx. apply list_elem_of_singleton in Hx.
    specialize (swf_fresh0 tm Hin). lia.
  - intros tm [[Hin _]%clear_search_elem|Hin]%elem_of_app.
    + specialize (swf_fresh0 tm Hin). lia.
    + apply list_elem_of_singleton in Hin as ->. simpl. lia.
  - intros tm [[Hin Hne]%clear_search_elem|Hin]%elem_of_app.
    + destruct (swf_owner0 tm Hin) as (wd0 & Hw0 & Ht0). rewrite Hlk.
      destruct (decide (w = search_widget tm)) as [->|]; [|by exists wd0].
      rewrite Hw in Hw0. injection Hw0 as <-. congruence.
    + apply list_elem_of_singleton in Hin as ->. simpl. rewrite Hlk.
      destruct (decide (w = w)); [|done]. by exists wd'.
  - intros j wdj n Hj Hn. rewrite Hlk in Hj.
    destruct (decide (w = j)) as [->|].
    + injection Hj as <-. simpl in Hn. injection Hn as <-. lia.
    + specialize (swf_held0 j wdj n Hj Hn). lia.
  - intros w1 w2 wd1 wd2 n H1 H2 Hn1 Hn2. rewrite Hlk in H1, H2.
    destruct (decide (w = w1)) as [->|], (decide (w1 = w2)) as [->|]; try done.
    + destruct (decide (w1 = w2)); [done|]. injection H1 as <-. simpl in Hn1.
      injection Hn1 as <-. specialize (swf_held0 w2 wd2 _ H2 Hn2). lia.
    + destruct (decide (w = w2)) as [->|].
      * injection H2 as <-. simpl in Hn2. injection Hn2 as <-.
        specialize (swf_held0 w1 wd1 _ H1 Hn1). lia.
      * exfalso. apply n1. by eapply swf_apart0.
Qed.

Lemma swf_transfer s s' :
  suggest_wf s →
  widget_timeout <$> widgets s' = widget_timeout <$> widgets s →
  next_search_id s' = next_search_id s →
  NoDup (search_id <$> search_timers s') →
  (∀ tm, tm ∈ search_timers s' → tm ∈ search_timers s) →
  suggest_wf s'.
Proof.
  intros [] Hto Hn Hnd Hsub.
  assert (∀ w wd', widgets s' !! w = Some wd' →
            ∃ wd, widgets s !! w = Some wd ∧ widget_timeout wd = widget_timeout wd')
    as Hback.
  { intros w wd' Hw. assert ((widget_timeout <$> widgets s) !! w =
                             Some (widget_timeout wd')) as Hl.
    { by rewrite <- Hto, list_lookup_fmap, Hw. }
    rewrite list_lookup_fmap in Hl. destruct (widgets s !! w) as [wd|]; [|done].
    exists wd. split; [done|]. by injection Hl. }
  assert (∀ w wd, widgets s !! w = Some wd →
            ∃ wd', widgets s' !! w = Some wd' ∧ widget_timeout wd' = widget_timeout wd)
    as Hforth.
  { intros w wd Hw. assert ((widget_timeout <$> widgets s') !! w =
                            Some (widget_timeout wd)) as Hl.
    { by rewrite Hto, list_lookup_fmap, Hw. }
    rewrite list_lookup_fmap in Hl. destruct (widgets s' !! w) as [wd'|]; [|done].
    exists wd'. split; [done|]. by injection Hl. }
  constructor.
  - done.
  - intros tm Hin. rewrite Hn. auto.
  - intros tm Hin. destruct (swf_owner0 tm (Hsub tm Hin)) as (wd & Hw & Ht).
    destruct (Hforth _ _ Hw) as (wd' & Hw' & Ht'). exists wd'. split; [done|congruence].
  - intros w wd' n Hw Ht. rewrite Hn. destruct (Hback _ _ Hw) as (wd & Hw0 & Ht0).
    apply (swf_held0 w wd); [done|congruence].
  - intros w1 w2 wd1 wd2 n H1 H2 Hn1 Hn2.
    destruct (Hback _ _ H1) as (wd1' & H1' & Ht1).
    destruct (Hback _ _ H2) as (wd2' & H2' & Ht2).
    apply (swf_apart0 w1 w2 wd1' wd2' n); congruence.
Qed.

Lemma fmap_insert_same {A B} (f : A → B) (l : list A) i x y :
  l !! i = Some y → f x = f y → f <$> <[i:=x]> l = f <$> l.
Proof.
  intros Hi Hf. apply list_eq. intros j. rewrite !list_lookup_fmap.
  rewrite (insert_lookup_known l i j x y Hi).
  destruct (decide (i = j)) as [->|]; [|done]. rewrite Hi. simpl. by rewrite Hf.
Qed.

Lemma fmap_alter_same {A B} (f : A → B) (g : A → A) (l : list A) i :
  (∀ x, f (g x) = f x) → f <$> alter g i l = f <$> l.
Proof.
  intros Hf. apply list_eq. intros j. rewrite !list_lookup_fmap.
  destruct (decide (i = j)) as [->|].
  - rewrite list_lookup_alter_eq. destruct (l !! j); simpl; [|done]. by rewrite Hf.
  - by rewrite list_lookup_alter_ne.
Qed.

Lemma fmap_imap_same {A B} (f : A → B) (g : nat → A → A) (l : list A) :
  (∀ i x, f (g i x) = f x) → f <$> imap g l = f <$> l.
Proof.
  intros Hf. apply list_eq. intros j. rewrite !list_lookup_fmap, list_lookup_imap.
  destruct (l !! j); simpl; [|done]. by rewrite Hf.
Qed.

(** Firing a timer, an answer and a click leave the fields and the
    [timeout] variables of all widgets as they are. *)
Lemma fire_search_widgets {B} (f : Widget → B) tm s :
  (∀ d wd, f (set_dropdown d wd) = f wd) →
  f <$> widgets (fire_search tm s) = f <$> widgets s.
Proof.
  intros Hf. unfold fire_search.
  destruct (widgets s !! search_widget tm) as [wd|] eqn:Hw; [|done].
  destruct (search (field_value wd) (dropdown wd)) as [d q]. simpl.
  by apply (fmap_insert_same f _ _ _ wd).
Qed.

Lemma fire_search_timers tm s :
  search_timers (fire_search tm s) =
  filter (λ x, search_id x ≠ search_id tm) (search_timers s) ∧
  next_search_id (fire_search tm s) = next_search_id s ∧
  clock (fire_search tm s) = N.max (clock s) (search_deadline tm).
Proof.
  unfold fire_search. destruct (widgets s !! search_widget tm) as [wd|]; [|done].
  by destruct (search (field_value wd) (dropdown wd)) as [d q].
Qed.

Lemma swf_fire tm s : suggest_wf s → suggest_wf (fire_search tm s).
Proof.
  intros Hwf. destruct (fire_search_timers tm s) as (Ht & Hn & _).
  apply (swf_transfer s); [done| |done|..].
  - by apply fire_search_widgets.
  - rewrite Ht. apply NoDup_fmap_filter, Hwf.
  - rewrite Ht. by intros x [_ Hx]%list_elem_of_filter.
Qed.

Lemma fire_search_fields tm s :
  field_value <$> widgets (fire_search tm s) = field_value <$> widgets s.
Proof. by apply fire_search_widgets. Qed.

Lemma fire_searches_ind (P : Suggester → Prop) t :
  (∀ s tm, P s → next_search t (search_timers s) = Some tm → P (fire_search tm s)) →
  ∀ n s, P s → P (fire_searches n t s).
Proof.
  intros Hstep n. induction n as [|n IH]; intros s Hs; simpl; [done|].
  destruct (next_search t (search_timers s)) as [tm|] eqn:Hd; [|done].
  apply IH. by apply Hstep.
Qed.

Lemma swf_fire_searches n t s : suggest_wf s → suggest_wf (fire_searches n t s).
Proof.
  apply fire_searches_ind. intros s' tm Hwf _. by apply swf_fire.
Qed.

Lemma swf_pass t s : suggest_wf s → suggest_wf (pass t s).
Proof.
  intros Hwf. pose proof (swf_fire_searches (length (search_timers s)) t s Hwf) as [].
  by constructor.
Qed.

Lemma swf_answered k o s : suggest_wf s → suggest_wf (answered k o s).
Proof.
  intros Hwf. unfold answered.
  destruct (list_find _ (awaited s)) as [[j [k' w]]|]; [|done].
  apply (swf_transfer s); try done; simpl; [|apply Hwf].
  by apply fmap_alter_same.
Qed.

Lemma swf_clicked target s : suggest_wf s → suggest_wf (clicked target s).
Proof.
  intros Hwf. apply (swf_transfer s); try done; simpl; [|apply Hwf].
  apply fmap_imap_same. intros i x. by destruct (decide (target = Some i)).
Qed.

Lemma swf_step te s : suggest_wf s → suggest_wf (suggest_step te s).
Proof.
  intros Hwf. unfold suggest_step. pose proof (swf_pass te.1 s Hwf) as Hp.
  destruct te.2 as [w v|k o|target|]; simpl.
  - by apply swf_typed.
  - by apply swf_answered.
  - by apply swf_clicked.
  - done.
Qed.

Lemma swf_run tr s : suggest_wf s → suggest_wf (suggest_run tr s).
Proof.
  revert s. induction tr as [|te tr IH]; intros s Hwf; [done|].
  simpl. by apply IH, swf_step.
Qed.

Lemma swf_reachable values tr : suggest_wf (suggest_run tr (suggest_boot values)).
Proof. apply swf_run, swf_boot. Qed.

Lemma field_lookup s s' w wd :
  field_value <$> widgets s' = field_value <$> widgets s →
  widgets s !! w = Some wd →
  ∃ wd', widgets s' !! w = Some wd' ∧ field_value wd' = field_value wd.
Proof.
  intros Hf Hw. assert ((field_value <$> widgets s') !! w = Some (field_value wd)) as Hl.
  { by rewrite Hf, list_lookup_fmap, Hw. }
  rewrite list_lookup_fmap in Hl. destruct (widgets s' !! w) as [wd'|]; [|done].
  exists wd'. split; [done|]. by injection Hl.
Qed.

Lemma searches_of_snoc (w : nat) (l : list (nat * string)) (x : nat * string) :
  snd <$> filter (λ y, y.1 = w) (l ++ [x]) =
  (snd <$> filter (λ y, y.1 = w) l) ++ (if decide (x.1 = w) then [x.2] else []).
Proof.
  rewrite filter_app, fmap_app. f_equal. rewrite filter_cons.
  by destruct (decide (x.1 = w)).
Qed.

Lemma timers_of_at_most_one w s x y :
  suggest_wf s → x ∈ timers_of w s → y ∈ timers_of w s → x = y.
Proof.
  intros Hwf [Hxw Hx]%list_elem_of_filter [Hyw Hy]%list_elem_of_filter.
  destruct (swf_owner s Hwf x Hx) as (wd1 & H1 & Ht1).
  destruct (swf_owner s Hwf y Hy) as (wd2 & H2 & Ht2).
  rewrite Hxw in H1. rewrite Hyw in H2. rewrite H1 in H2. injection H2 as <-.
  apply (NoDup_fmap_eq search_id (search_timers s)); [apply Hwf|done|done|congruence].
Qed.

(** The timer of another widget fires: nothing of widget [w] changes. *)
Lemma fire_search_other x s w :
  suggest_wf s → x ∈ search_timers s → search_widget x ≠ w →
  searches_of w (fire_search x s) = searches_of w s ∧
  timers_of w (fire_search x s) = timers_of w s.
Proof.
  intros Hwf Hx Hw. split.
  - unfold searches_of, fire_search.
    destruct (widgets s !! search_widget x) as [wd|]; [|done].
    destruct (search (field_value wd) (dropdown wd)) as [d q]. simpl.
    rewrite (searches_of_snoc w). simpl.
    destruct (decide (search_widget x = w)); [done|apply app_nil_r].
  - unfold timers_of. destruct (fire_search_timers x s) as (-> & _).
    apply filter_filter_absorb. intros y Hy Hyw Hid.
    assert (y = x) as -> by (by apply (NoDup_fmap_eq search_id (search_timers s));
                               [apply Hwf|..]).
    done.
Qed.

(** The timer of widget [w] fires: [search] is called with the field's
    value, and the widget has no timer left. *)
Lemma fire_search_own x s w wd :
  suggest_wf s → x ∈ search_timers s → search_widget x = w →
  widgets s !! w = Some wd →
  searches_of w (fire_search x s) = searches_of w s ++ [field_value wd] ∧
  timers_of w (fire_search x s) = [].
Proof.
  intros Hwf Hx Hxw Hw. split.
  - unfold searches_of, fire_search. rewrite Hxw, Hw.
    destruct (search (field_value wd) (dropdown wd)) as [d q]. simpl.
    rewrite (searches_of_snoc w). simpl. by destruct (decide (w = w)).
  - unfold timers_of. destruct (fire_search_timers x s) as (-> & _).
    apply filter_none. intros y [Hid Hy]%list_elem_of_filter Hyw. apply Hid.
    f_equal. apply (timers_of_at_most_one w s); [done|..];
      by apply list_elem_of_filter.
Qed.

Lemma fire_search_shrinks x s :
  x ∈ search_timers s →
  length (search_timers (fire_search x s)) < length (search_timers s).
Proof.
  intros Hx. destruct (fire_search_timers x s) as (-> & _).
  apply (length_filter_lt _ _ x); [done|]. by intros Hne.
Qed.

(** While the timer of widget [w] is not due, the passing of time calls no
    search for it. *)
Lemma fire_searches_quiet n t s w :
  suggest_wf s →
  (∀ tm, tm ∈ timers_of w s → (t < search_deadline tm)%N) →
  searches_of w (fire_searches n t s) = searches_of w s ∧
  timers_of w (fire_searches n t s) = timers_of w s.
Proof.
  intros Hwf Hq.
  assert (suggest_wf (fire_searches n t s) ∧
          searches_of w (fire_searches n t s) = searches_of w s ∧
          timers_of w (fire_searches n t s) = timers_of w s) as (_ & ? & ?); [|done].
  apply (fire_searches_ind
           (λ s', suggest_wf s' ∧ searches_of w s' = searches_of w s ∧
                  timers_of w s' = timers_of w s)); [|done].
  intros s' x (Hwf' & Hs & Ht) [Hx Hd]%next_search_Some.
  split; [by apply swf_fire|].
  destruct (decide (search_widget x = w)) as [Hxw|Hxw].
  - exfalso. assert (x ∈ timers_of w s) as Hin.
    { rewrite <- Ht. by apply list_elem_of_filter. }
    specialize (Hq x Hin). lia.
  - destruct (fire_search_other x s' w Hwf' Hx Hxw) as [-> ->]. done.
Qed.

(** Once the timer of widget [w] is due, the passing of time calls its
    search once, with the value the field holds. *)
Lemma fire_searches_due n t s w tm wd :
  suggest_wf s →
  timers_of w s = [tm] → (search_deadline tm ≤ t)%N →
  widgets s !! w = Some wd →
  length (search_timers s) ≤ n →
  searches_of w (fire_searches n t s) = searches_of w s ++ [field_value wd] ∧
  timers_of w (fire_searches n t s) = [].
Proof.
  revert s wd. induction n as [|n IH]; intros s wd Hwf Ht Hd Hw Hlen.
  { assert (tm ∈ timers_of w s) as Hin by (rewrite Ht; constructor).
    apply list_elem_of_filter in Hin as [_ Hin].
    destruct (search_timers s); [by apply elem_of_nil in Hin|simpl in Hlen; lia]. }
  assert (tm ∈ timers_of w s) as Htw by (rewrite Ht; constructor).
  assert (tm ∈ search_timers s) as Htm by (by apply list_elem_of_filter in Htw as [_ ?]).
  simpl. destruct (next_search t (search_timers s)) as [x|] eqn:Hnext.
  2:{ pose proof (next_search_None t _ tm Hnext Htm). lia. }
  apply next_search_Some in Hnext as [Hx Hxd].
  destruct (decide (search_widget x = w)) as [Hxw|Hxw].
  - destruct (fire_search_own x s w wd Hwf Hx Hxw Hw) as [Hs1 Ht1].
    destruct (fire_searches_quiet n t (fire_search x s) w) as [Hs2 Ht2].
    { by apply swf_fire. }
    { rewrite Ht1. intros y Hy. by apply elem_of_nil in Hy. }
    by rewrite Hs2, Ht2, Hs1, Ht1.
  - destruct (fire_search_other x s w Hwf Hx Hxw) as [Hs1 Ht1].
    destruct (field_lookup s (fire_search x s) w wd (fire_search_fields x s) Hw)
      as (wd' & Hw' & Hv').
    destruct (IH (fire_search x s) wd') as [Hs2 Ht2].
    + by apply swf_fire.
    + by rewrite Ht1.
    + done.
    + done.
    + pose proof (fire_search_shrinks x s Hx). lia.
    + by rewrite Hs2, Ht2, Hs1, Hv'.
Qed.

Lemma pass_fields t s :
  field_value <$> widgets (pass t s) = field_value <$> widgets s.
Proof.
  unfold pass. cbn [widgets].
  apply (fire_searches_ind
           (λ s', field_value <$> widgets s' = field_value <$> widgets s)); [|done].
  intros s' x Hs' _. by rewrite fire_search_fields.
Qed.

Lemma pass_clock t s : (clock s ≤ t)%N → clock (pass t s) = t.
Proof.
  intros Hle. unfold pass. cbn [clock].
  assert (clock (fire_searches (length (search_timers s)) t s) ≤ t)%N as Hn; [|lia].
  apply (fire_searches_ind (λ s', (clock s' ≤ t)%N)); [|done].
  intros s' x Hs' [_ Hd]%next_search_Some.
  destruct (fire_search_timers x s') as (_ & _ & ->). lia.
Qed.

Lemma pass_quiet t s w :
  suggest_wf s →
  (∀ tm, tm ∈ timers_of w s → (t < search_deadline tm)%N) →
  searches_of w (pass t s) = searches_of w s ∧
  timers_of w (pass t s) = timers_of w s.
Proof. intros Hwf Hq. by apply (fire_searches_quiet _ t s w). Qed.

Lemma pass_due t s w tm wd :
  suggest_wf s →
  timers_of w s = [tm] → (search_deadline tm ≤ t)%N →
  widgets s !! w = Some wd →
  searches_of w (pass t s) = searches_of w s ++ [field_value wd] ∧
  timers_of w (pass t s) = [].
Proof. intros Hwf Ht Hd Hw. by apply (fire_searches_due _ t s w tm wd). Qed.

Lemma typed_arms w v s wd :
  suggest_wf s → widgets s !! w = Some wd →
  timers_of w (typed w v s) =
    [{| search_id := next_search_id s; search_deadline := (clock s + 300)%N;
        search_widget := w |}] ∧
  searches (typed w v s) = searches s ∧
  awaited (typed w v s) = awaited s ∧
  clock (typed w v s) = clock s ∧
  widgets (typed w v s) !! w =
    Some (set_widget_timeout (Some (next_search_id s)) (set_field_value v wd)).
Proof.
  intros Hwf Hw. unfold typed. rewrite Hw. cbn. split; [|split; [done|split; [done|]]].
  - unfold timers_of. cbn. rewrite filter_app.
    rewrite (filter_none _ (clear_search _ _)).
    + rewrite filter_cons. by destruct (decide _).
    + intros tm [Hin Hne]%clear_search_elem Htw.
      destruct (swf_owner s Hwf tm Hin) as (wd0 & Hw0 & Ht0).
      rewrite Htw, Hw in Hw0. injection Hw0 as <-. congruence.
  - split; [done|]. apply list_lookup_insert_eq. by eapply lookup_lt_Some.
Qed.

Lemma typed_other w w' v s :
  suggest_wf s → w' ≠ w →
  timers_of w' (typed w v s) = timers_of w' s ∧
  searches (typed w v s) = searches s ∧
  widgets (typed w v s) !! w' = widgets s !! w'.
Proof.
  intros Hwf Hne. unfold typed. destruct (widgets s !! w) as [wd|] eqn:Hw; [|done].
  cbn. split; [|split; [done|by apply list_lookup_insert_ne]].
  unfold timers_of. cbn. rewrite filter_app, filter_cons. cbn [search_widget].
  destruct (decide (w = w')); [congruence|]. rewrite filter_nil, app_nil_r.
  destruct (widget_timeout wd) as [m|] eqn:Hn; [|done]. simpl.
  apply filter_filter_absorb. intros y Hy Hyw Hid.
  destruct (swf_owner s Hwf y Hy) as (wd0 & Hw0 & Ht0). rewrite Hyw in Hw0.
  apply Hne. apply (swf_apart s Hwf w' w wd0 wd m); congruence.
Qed.

Lemma step_typed_armed s w t v :
  suggest_wf s → is_Some (widgets s !! w) → (clock s ≤ t)%N →
  suggest_wf (suggest_step (t, Typed w v) s) ∧
  search_armed w t v (suggest_step (t, Typed w v) s) ∧
  searches_of w (suggest_step (t, Typed w v) s) = searches_of w (pass t s).
Proof.
  intros Hwf [wd Hw] Hclk. split; [by apply swf_step|].
  unfold suggest_step. cbn [fst snd suggest_handle].
  destruct (field_lookup s (pass t s) w wd (pass_fields t s) Hw) as (wd' & Hw' & _).
  destruct (typed_arms w v (pass t s) wd' (swf_pass t s Hwf) Hw')
    as (Ht & Hs & _ & Hc & Hwd).
  split; [|unfold searches_of; by rewrite Hs].
  split; [by rewrite Hc, pass_clock|]. split; [by eexists|].
  eexists. split; [done|]. cbn [search_deadline]. by rewrite pass_clock.
Qed.

Lemma search_armed_next s w t v t' v' :
  suggest_wf s → search_armed w t v s → (t ≤ t')%N → (t' < t + 300)%N →
  suggest_wf (suggest_step (t', Typed w v') s) ∧
  search_armed w t' v' (suggest_step (t', Typed w v') s) ∧
  searches_of w (suggest_step (t', Typed w v') s) = searches_of w s.
Proof.
  intros Hwf (Hc & (wd & Hw & Hv) & tm & Ht & Hd) Hle Hlt.
  destruct (step_typed_armed s w t' v' Hwf) as (Hwf1 & Harm & Hs).
  { by eexists. }
  { lia. }
  destruct (pass_quiet t' s w Hwf) as (Hs' & _).
  { intros x Hx. rewrite Ht in Hx. apply list_elem_of_singleton in Hx as ->. lia. }
  split; [done|]. split; [done|]. by rewrite Hs.
Qed.

Lemma search_armed_fire s w t v T :
  suggest_wf s → search_armed w t v s → (t + 300 ≤ T)%N →
  searches_of w (suggest_step (T, Idle) s) = searches_of w s ++ [v].
Proof.
  intros Hwf (Hc & (wd & Hw & Hv) & tm & Ht & Hd) Hle.
  unfold suggest_step. cbn [fst snd suggest_handle].
  destruct (pass_due T s w tm wd Hwf Ht) as [Hs _]; [lia|done|]. by rewrite Hs, Hv.
Qed.

Lemma search_burst_from_armed w b :
  ∀ s t v T,
    suggest_wf s → search_armed w t v s → brisk t b →
    ((final_input (t, v) b).1 + 300 ≤ T)%N →
    searches_of w (suggest_run (typed_on w b ++ [(T, Idle)]) s) =
    searches_of w s ++ [(final_input (t, v) b).2].
Proof.
  induction b as [|[t1 v1] b IH]; intros s t v T Hwf Harm Hr HT.
  - simpl in *. by apply (search_armed_fire s w t v T).
  - destruct Hr as (Hle & Hlt & Hr). simpl in Hle, Hlt, Hr.
    rewrite final_input_cons in *.
    destruct (search_armed_next s w t v t1 v1 Hwf Harm Hle Hlt) as (Hwf1 & Harm1 & Hs1).
    rewrite <- Hs1. exact (IH _ t1 v1 T Hwf1 Harm1 Hr HT).
Qed.

(** X15: each widget has a timer of its own: typing in one field does not
    cancel the search pending for another.  After an [input] event on one
    field, an [input] event on another field less than 300ms later, and
    then quiet, [search] has been called once more for each of the two
    fields, with the value typed in it. *)
Theorem typing_elsewhere_keeps_search (values : list string)
    (tr : list (N * SuggestEvent)) (a b : nat) (va vb : string) (t t' T : N) :
  let s := suggest_run tr (suggest_boot values) in
  let s1 := suggest_step (t, Typed a va) s in
  let s' := suggest_run [(t', Typed b vb); (T, Idle)] s1 in
  a ≠ b →
  is_Some (widgets s !! a) → is_Some (widgets s !! b) →
  (clock s ≤ t)%N → (t ≤ t')%N → (t' < t + 300)%N → (t' + 300 ≤ T)%N →
  searches_of a s' = searches_of a (pass t s) ++ [va] ∧
  searches_of b s' = searches_of b (pass t' s1) ++ [vb].
Proof.
  intros s s1 s' Hab Ha Hb Hclk Hle Hlt HT.
  assert (suggest_wf s) as Hwf by apply swf_reachable.
  destruct (step_typed_armed s a t va Hwf Ha Hclk)
    as (Hwf1 & (Hc1 & (wda & Hwa & Hva) & tma & Hta & Hda) & Hs1).
  fold s1 in Hwf1, Hc1, Hwa, Hta, Hs1.
  assert (is_Some (widgets s1 !! b)) as Hb1.
  { destruct Hb as [wdb Hwb].
    destruct (field_lookup s (pass t s) b wdb (pass_fields t s) Hwb) as (wd' & Hw' & _).
    destruct (typed_other a b va (pass t s) (swf_pass t s Hwf) (not_eq_sym Hab))
      as (_ & _ & Hlk).
    unfold s1, suggest_step. cbn [fst snd suggest_handle]. rewrite Hlk. by eexists. }
  destruct (step_typed_armed s1 b t' vb Hwf1 Hb1 ltac:(lia)) as (Hwf2 & Harmb & Hsb).
  set (s2 := suggest_step (t', Typed b vb) s1) in *.
  change s' with (suggest_step (T, Idle) s2). split.
  - destruct (pass_quiet t' s1 a Hwf1) as (Hsq & Htq).
    { intros x Hx. rewrite Hta in Hx. apply list_elem_of_singleton in Hx as ->. lia. }
    destruct (field_lookup s1 (pass t' s1) a wda (pass_fields t' s1) Hwa)
      as (wda' & Hwa' & Hva').
    destruct (typed_other b a vb (pass t' s1) (swf_pass t' s1 Hwf1) Hab)
      as (Hto & Hso & Hlk).
    assert (searches_of a s2 = searches_of a s1) as Hs2.
    { unfold s2, suggest_step. cbn [fst snd suggest_handle].
      unfold searches_of at 1. rewrite Hso. exact Hsq. }
    unfold suggest_step. cbn [fst snd suggest_handle].
    destruct (pass_due T s2 a tma wda' Hwf2) as [Hs _].
    + unfold s2, suggest_step. cbn [fst snd suggest_handle]. by rewrite Hto, Htq.
    + lia.
    + unfold s2, suggest_step. cbn [fst snd suggest_handle]. by rewrite Hlk.
    + by rewrite Hs, Hs2, Hs1, Hva', Hva.
  - rewrite (search_armed_fire s2 b t' vb T Hwf2 Harmb HT). by rewrite Hsb.
Qed.

Lemma typing_elsewhere_keeps_search_witness :
  let s := suggest_run [] (suggest_boot [""; ""]) in
  let s1 := suggest_step (0%N, Typed 0 "war") s in
  let s' := suggest_run [(100%N, Typed 1 "asp"); (400%N, Idle)] s1 in
  searches_of 0 s' = searches_of 0 (pass 0 s) ++ ["war"] ∧
  searches_of 1 s' = searches_of 1 (pass 100 s1) ++ ["asp"].
Proof.
  apply (typing_elsewhere_keeps_search [""; ""] [] 0 1 "war" "asp" 0%N 100%N 400%N).
  - lia.
  - by eexists.
  - by eexists.
  - by vm_compute.
  - by vm_compute.
  - by vm_compute.
  - by vm_compute.
Defined.

(** X16: after a burst of inputs on one field, each less than 300ms after
    the one before, followed by 300ms of quiet, [search] has been called
    exactly once more for that field, with the field's final value. *)
Theorem search_burst_one_call (values : list string) (tr : list (N * SuggestEvent))
    (w : nat) (tv0 : N * string) (b : list (N * string)) (T : N) :
  let s := suggest_run tr (suggest_boot values) in
  let s' := suggest_run (typed_on w (tv0 :: b) ++ [(T, Idle)]) s in
  is_Some (widgets s !! w) →
  (clock s ≤ tv0.1)%N →
  brisk tv0.1 b →
  ((final_input tv0 b).1 + 300 ≤ T)%N →
  searches_of w s' = searches_of w (pass tv0.1 s) ++ [(final_input tv0 b).2].
Proof.
  intros s s' Hw Hclk Hr HT. destruct tv0 as [t0 v0]. cbn [fst] in *.
  assert (suggest_wf s) as Hwf by apply swf_reachable.
  destruct (step_typed_armed s w t0 v0 Hwf Hw Hclk) as (Hwf1 & Harm & Hs).
  pose proof (search_burst_from_armed w b _ t0 v0 T Hwf1 Harm Hr HT) as Hb.
  rewrite Hs in Hb. exact Hb.
Qed.

Lemma search_burst_one_call_witness :
  let s := suggest_run [] (suggest_boot [""; ""]) in
  let s' := suggest_run (typed_on 0 ((0%N, "w") :: [(100%N, "wa"); (350%N, "war")])
                         ++ [(650%N, Idle)]) s in
  searches_of 0 s' =
  searches_of 0 (pass 0 s) ++ [(final_input (0%N, "w") [(100%N, "wa"); (350%N, "war")]).2].
Proof.
  apply (search_burst_one_call [""; ""] [] 0 (0%N, "w")
           [(100%N, "wa"); (350%N, "war")] 650%N).
  - by eexists.
  - by vm_compute.
  - repeat split; by vm_compute.
  - by vm_compute.
Defined.

Lemma awaited_of_snoc (w : nat) (l : list (nat * nat)) (x : nat * nat) :
  fst <$> filter (λ c, c.2 = w) (l ++ [x]) =
  (fst <$> filter (λ c, c.2 = w) l) ++ (if decide (x.2 = w) then [x.1] else []).
Proof.
  rewrite filter_app, fmap_app. f_equal. rewrite filter_cons.
  by destruct (decide (x.2 = w)).
Qed.

Lemma fire_search_queries x s k q :
  queries s !! k = Some q → queries (fire_search x s) !! k = Some q.
Proof.
  intros Hk. unfold fire_search.
  destruct (widgets s !! search_widget x) as [wd|]; [|done].
  destruct (search (field_value wd) (dropdown wd)) as [d [y|]]; simpl; [|done].
  by apply lookup_app_l_Some.
Qed.

Lemma fire_search_other_widget x s w :
  search_widget x ≠ w →
  widgets (fire_search x s) !! w = widgets s !! w ∧
  awaited_of w (fire_search x s) = awaited_of w s.
Proof.
  intros Hw. unfold awaited_of, fire_search.
  destruct (widgets s !! search_widget x) as [wd|]; [|done].
  destruct (search (field_value wd) (dropdown wd)) as [d [y|]]; simpl.
  - split; [by apply list_lookup_insert_ne|].
    rewrite awaited_of_snoc. simpl.
    destruct (decide (search_widget x = w)); [done|apply app_nil_r].
  - split; [by apply list_lookup_insert_ne|done].
Qed.

Lemma fire_search_own_widget x s w wd :
  search_widget x = w → widgets s !! w = Some wd →
  widgets (fire_search x s) !! w =
    Some (set_dropdown (search (field_value wd) (dropdown wd)).1 wd) ∧
  match (search (field_value wd) (dropdown wd)).2 with
  | Some q => awaited_of w (fire_search x s) = awaited_of w s ++ [length (queries s)] ∧
              queries (fire_search x s) !! length (queries s) = Some q
  | None => awaited_of w (fire_search x s) = awaited_of w s
  end.
Proof.
  intros Hxw Hw. unfold awaited_of, fire_search. rewrite Hxw, Hw.
  assert (w < length (widgets s)) as Hlt by (by eapply lookup_lt_Some).
  destruct (search (field_value wd) (dropdown wd)) as [d [y|]]; simpl.
  - split; [by apply list_lookup_insert_eq|]. split.
    + rewrite awaited_of_snoc. simpl. by destruct (decide (w = w)).
    + rewrite lookup_app_r by done. by rewrite Nat.sub_diag.
  - split; [by apply list_lookup_insert_eq|done].
Qed.

Lemma fire_searches_quiet_widget n t s w :
  suggest_wf s →
  (∀ tm, tm ∈ timers_of w s → (t < search_deadline tm)%N) →
  widgets (fire_searches n t s) !! w = widgets s !! w ∧
  awaited_of w (fire_searches n t s) = awaited_of w s ∧
  ∀ k q, queries s !! k = Some q → queries (fire_searches n t s) !! k = Some q.
Proof.
  intros Hwf Hq.
  assert (suggest_wf (fire_searches n t s) ∧
          timers_of w (fire_searches n t s) = timers_of w s ∧
          widgets (fire_searches n t s) !! w = widgets s !! w ∧
          awaited_of w (fire_searches n t s) = awaited_of w s ∧
          ∀ k q, queries s !! k = Some q →
                 queries (fire_searches n t s) !! k = Some q)
    as (_ & _ & ? & ? & ?); [|done].
  apply (fire_searches_ind
           (λ s', suggest_wf s' ∧ timers_of w s' = timers_of w s ∧
                  widgets s' !! w = widgets s !! w ∧
                  awaited_of w s' = awaited_of w s ∧
                  ∀ k q, queries s !! k = Some q → queries s' !! k = Some q));
    [|done].
  intros s' x (Hwf' & Ht & Hw & Ha & Hqs) [Hx Hd]%next_search_Some.
  split; [by apply swf_fire|].
  destruct (decide (search_widget x = w)) as [Hxw|Hxw].
  - exfalso. assert (x ∈ timers_of w s) as Hin.
    { rewrite <- Ht. by apply list_elem_of_filter. }
    specialize (Hq x Hin). lia.
  - destruct (fire_search_other x s' w Hwf' Hx Hxw) as [_ ->].
    destruct (fire_search_other_widget x s' w Hxw) as [-> ->].
    split; [done|]. split; [done|]. split; [done|].
    intros k q Hk. by apply fire_search_queries, Hqs.
Qed.

Lemma fire_searches_due_widget n t s w tm wd :
  suggest_wf s →
  timers_of w s = [tm] → (search_deadline tm ≤ t)%N →
  widgets s !! w = Some wd →
  length (search_timers s) ≤ n →
  widgets (fire_searches n t s) !! w =
    Some (set_dropdown (search (field_value wd) (dropdown wd)).1 wd) ∧
  match (search (field_value wd) (dropdown wd)).2 with
  | Some q => ∃ k, awaited_of w (fire_searches n t s) = awaited_of w s ++ [k] ∧
                   queries (fire_searches n t s) !! k = Some q
  | None => awaited_of w (fire_searches n t s) = awaited_of w s
  end.
Proof.
  revert s. induction n as [|n IH]; intros s Hwf Ht Hd Hw Hlen.
  { assert (tm ∈ timers_of w s) as Hin by (rewrite Ht; constructor).
    apply list_elem_of_filter in Hin as [_ Hin].
    destruct (search_timers s); [by apply elem_of_nil in Hin|simpl in Hlen; lia]. }
  assert (tm ∈ timers_of w s) as Htw by (rewrite Ht; constructor).
  assert (tm ∈ search_timers s) as Htm by (by apply list_elem_of_filter in Htw as [_ ?]).
  simpl. destruct (next_search t (search_timers s)) as [x|] eqn:Hnext.
  2:{ pose proof (next_search_None t _ tm Hnext Htm). lia. }
  apply next_search_Some in Hnext as [Hx Hxd].
  destruct (decide (search_widget x = w)) as [Hxw|Hxw].
  - destruct (fire_search_own x s w wd Hwf Hx Hxw Hw) as [_ Ht1].
    destruct (fire_search_own_widget x s w wd Hxw Hw) as [Hw1 Ha1].
    destruct (fire_searches_quiet_widget n t (fire_search x s) w)
      as (Hw2 & Ha2 & Hq2).
    { by apply swf_fire. }
    { rewrite Ht1. intros y Hy. by apply elem_of_nil in Hy. }
    split; [by rewrite Hw2|].
    destruct (search (field_value wd) (dropdown wd)).2 as [q|].
    + destruct Ha1 as [Ha1 Hq1]. exists (length (queries s)).
      split; [by rewrite Ha2|by apply Hq2].
    + by rewrite Ha2.
  - destruct (fire_search_other x s w Hwf Hx Hxw) as [_ Ht1].
    destruct (fire_search_other_widget x s w Hxw) as [Hw1 Ha1].
    destruct (IH (fire_search x s)) as [Hw2 Ha2].
    + by apply swf_fire.
    + by rewrite Ht1.
    + done.
    + by rewrite Hw1.
    + pose proof (fire_search_shrinks x s Hx). lia.
    + split; [done|]. by rewrite <- Ha1.
Qed.

(** X17: what the search of a field does once the typing has stopped for
    300ms.  When the field holds fewer than two characters, the dropdown of
    its widget is closed and emptied and no request is made for it; when it
    holds more, one request is made, asking about the field's value, and the
    dropdown is left as it was until the answer comes. *)
Theorem search_after_typing (values : list string) (tr : list (N * SuggestEvent))
    (w : nat) (v : string) (t T : N) :
  let s := suggest_run tr (suggest_boot values) in
  let s0 := pass t s in
  let s' := suggest_run [(t, Typed w v); (T, Idle)] s in
  is_Some (widgets s !! w) →
  (clock s ≤ t)%N → (t + 300 ≤ T)%N →
  ∃ wd0 wd',
    widgets s0 !! w = Some wd0 ∧ widgets s' !! w = Some wd' ∧
    field_value wd' = v ∧
    if (String.length v <? 2)%nat
    then dropdown wd' = new_dropdown ∧ awaited_of w s' = awaited_of w s0
    else dropdown wd' = dropdown wd0 ∧
         ∃ k, awaited_of w s' = awaited_of w s0 ++ [k] ∧ queries s' !! k = Some v.
Proof.
  intros s s0 s' [wd Hw] Hclk HT.
  assert (suggest_wf s) as Hwf by apply swf_reachable.
  destruct (field_lookup s s0 w wd (pass_fields t s) Hw) as (wd0 & Hw0 & _).
  assert (suggest_wf s0) as Hwf0 by (by apply swf_pass).
  destruct (typed_arms w v s0 wd0 Hwf0 Hw0) as (Ht & _ & Ha & Hc & Hw1).
  set (s1 := typed w v s0) in *.
  assert (suggest_wf s1) as Hwf1 by (by apply swf_typed).
  set (wd1 := set_widget_timeout (Some (next_search_id s0)) (set_field_value v wd0)) in *.
  destruct (fire_searches_due_widget (length (search_timers s1)) T s1 w _ wd1
              Hwf1 Ht) as [Hw2 Ha2]; [|done|done|].
  { cbn [search_deadline]. unfold s0. rewrite pass_clock by done. lia. }
  exists wd0. eexists. split; [done|]. split; [exact Hw2|]. split; [done|].
  assert (awaited_of w s1 = awaited_of w s0) as Ha1.
  { unfold awaited_of. by rewrite Ha. }
  change (field_value wd1) with v in *. change (dropdown wd1) with (dropdown wd0) in *.
  unfold search in *. destruct (String.length v <? 2)%nat; cbn [fst snd] in *.
  - split; [done|]. rewrite <- Ha1. exact Ha2.
  - split; [done|]. destruct Ha2 as (k & Hk & Hq). exists k.
    rewrite <- Ha1. exact (conj Hk Hq).
Qed.

Lemma search_after_typing_witness :
  let s := suggest_run [] (suggest_boot ["x"]) in
  let s0 := pass 0 s in
  let s' := suggest_run [(0%N, Typed 0 "wa"); (300%N, Idle)] s in
  ∃ wd0 wd',
    widgets s0 !! 0 = Some wd0 ∧ widgets s' !! 0 = Some wd' ∧
    field_value wd' = "wa" ∧
    if (String.length "wa" <? 2)%nat
    then dropdown wd' = new_dropdown ∧ awaited_of 0 s' = awaited_of 0 s0
    else dropdown wd' = dropdown wd0 ∧
         ∃ k, awaited_of 0 s' = awaited_of 0 s0 ++ [k] ∧ queries s' !! k = Some "wa".
Proof.
  apply (search_after_typing ["x"] [] 0 "wa" 0%N 300%N).
  - by eexists.
  - by vm_compute.
  - by vm_compute.
Defined.

(** ** Answers to searches *)

Lemma search_resume_ignores o d d' : search_resume o d = search_resume o d'.
Proof. by destruct o as [| |[] [[|sg l]|]]. Qed.

Lemma typed_widgets_length w v s : length (widgets (typed w v s)) = length (widgets s).
Proof.
  unfold typed. destruct (widgets s !! w); [|done]. simpl. apply length_insert.
Qed.

Lemma fire_search_widgets_length x s :
  length (widgets (fire_search x s)) = length (widgets s).
Proof.
  pose proof (fire_search_fields x s) as H.
  apply (f_equal length) in H. by rewrite !length_fmap in H.
Qed.

Lemma awf_boot values : awaited_wf (suggest_boot values).
Proof. split; [constructor|]. intros c Hc. by apply elem_of_nil in Hc. Qed.

Lemma awf_typed w v s : awaited_wf s → awaited_wf (typed w v s).
Proof.
  intros [Hnd Hb]. split.
  - unfold typed. by destruct (widgets s !! w).
  - intros c Hc. rewrite typed_widgets_length.
    unfold typed in *. destruct (widgets s !! w); by apply Hb.
Qed.

Lemma awf_fire x s : awaited_wf s → awaited_wf (fire_search x s).
Proof.
  intros [Hnd Hb].
  pose proof (fire_search_widgets_length x s) as Hlen. revert Hlen.
  unfold awaited_wf, fire_search.
  destruct (widgets s !! search_widget x) as [wd|] eqn:Hw; [|done].
  destruct (search (field_value wd) (dropdown wd)) as [d [q|]]; simpl; intros Hlen.
  - split.
    + rewrite fmap_app. apply NoDup_app. split; [done|]. split; [|apply NoDup_singleton].
      intros k (c & -> & Hc)%list_elem_of_fmap Hk. simpl in Hk.
      apply list_elem_of_singleton in Hk. destruct (Hb c Hc). lia.
    + rewrite length_app. simpl. intros c [Hc|Hc]%elem_of_app.
      * destruct (Hb c Hc). lia.
      * apply list_elem_of_singleton in Hc as ->. simpl.
        apply lookup_lt_Some in Hw. lia.
  - split; [done|]. intros c Hc. destruct (Hb c Hc). lia.
Qed.

Lemma awf_pass t s : awaited_wf s → awaited_wf (pass t s).
Proof.
  intros Hwf.
  assert (awaited_wf (fire_searches (length (search_timers s)) t s)) as H; [|exact H].
  apply (fire_searches_ind awaited_wf); [|done].
  intros s' x Hs' _. by apply awf_fire.
Qed.

Lemma awf_answered k o s : awaited_wf s → awaited_wf (answered k o s).
Proof.
  intros [Hnd Hb]. unfold answered.
  destruct (list_find _ (awaited s)) as [[j [k' w]]|]; [|done].
  split; simpl.
  - by apply NoDup_fmap_filter.
  - intros c [_ Hc]%list_elem_of_filter. rewrite length_alter. by apply Hb.
Qed.

Lemma awf_clicked target s : awaited_wf s → awaited_wf (clicked target s).
Proof.
  intros [Hnd Hb]. split; [done|]. intros c Hc. simpl. rewrite length_imap.
  by apply Hb.
Qed.

Lemma awf_step te s : awaited_wf s → awaited_wf (suggest_step te s).
Proof.
  intros Hwf. unfold suggest_step. pose proof (awf_pass te.1 s Hwf) as Hp.
  destruct te.2 as [w v|k o|target|]; simpl.
  - by apply awf_typed.
  - by apply awf_answered.
  - by apply awf_clicked.
  - done.
Qed.

Lemma awf_reachable values tr : awaited_wf (suggest_run tr (suggest_boot values)).
Proof.
  assert (∀ s, awaited_wf s → awaited_wf (suggest_run tr s)) as H.
  { induction tr as [|te tr IH]; intros s Hwf; [done|]. simpl. by apply IH, awf_step. }
  apply H, awf_boot.
Qed.

Lemma fire_search_awaited x s c : c ∈ awaited s → c ∈ awaited (fire_search x s).
Proof.
  intros Hc. unfold fire_search.
  destruct (widgets s !! search_widget x) as [wd|]; [|done].
  destruct (search (field_value wd) (dropdown wd)) as [d [q|]]; simpl; [|done].
  apply elem_of_app. by left.
Qed.

Lemma pass_awaited t s c : c ∈ awaited s → c ∈ awaited (pass t s).
Proof.
  intros Hc.
  assert (c ∈ awaited (fire_searches (length (search_timers s)) t s)) as H; [|exact H].
  apply (fire_searches_ind (λ s', c ∈ awaited s')); [|done].
  intros s' x Hs' _. by apply fire_search_awaited.
Qed.

Lemma answered_awaited_other k k' w o s :
  k ≠ k' → (k, w) ∈ awaited s → (k, w) ∈ awaited (answered k' o s).
Proof.
  intros Hk Hin. unfold answered.
  destruct (list_find _ (awaited s)) as [[j [k0 w0]]|]; [|done]. simpl.
  by apply list_elem_of_filter.
Qed.

Lemma answered_dropdown k w o s :
  awaited_wf s → (k, w) ∈ awaited s →
  ∃ wd, widgets (answered k o s) !! w = Some wd ∧
        ∀ d, dropdown wd = search_resume o d.
Proof.
  intros [Hnd Hb] Hin. unfold answered.
  destruct (list_find_elem_of (λ c, c.1 = k) (awaited s) (k, w) Hin eq_refl)
    as [[j c] Hfind].
  rewrite Hfind. apply list_find_Some in Hfind as (Hj & Hck & _).
  apply list_elem_of_lookup_2 in Hj.
  assert (c = (k, w)) as -> by (by apply (NoDup_fmap_eq fst (awaited s))).
  simpl. destruct (Hb _ Hin) as [_ Hw]. simpl in Hw.
  apply lookup_lt_is_Some_2 in Hw as [wd Hwd].
  eexists. rewrite list_lookup_alter_eq, Hwd. split; [done|].
  intros d. apply search_resume_ignores.
Qed.

(** X18: the answers to searches are shown in the order they arrive, with no
    check of which query is the newest.  With two searches awaited for a
    widget, when the answer of the earlier one arrives after the answer of
    the later one, the dropdown ends up as the earlier answer makes it: open
    with its suggestions, or closed. *)
Theorem late_suggestions_shown (values : list string) (tr : list (N * SuggestEvent))
    (k1 k2 w : nat) (t t' : N) (o1 o2 : SuggestOutcome) :
  let s := suggest_run tr (suggest_boot values) in
  let s' := suggest_run [(t, Answered k2 o2); (t', Answered k1 o1)] s in
  (k1, w) ∈ awaited s →
  (k2, w) ∈ awaited s →
  k1 < k2 →
  ∃ wd, widgets s' !! w = Some wd ∧ ∀ d, dropdown wd = search_resume o1 d.
Proof.
  intros s s' H1 H2 Hlt.
  assert (awaited_wf s) as Hwf by apply awf_reachable.
  set (s2 := suggest_step (t, Answered k2 o2) s).
  assert (awaited_wf (pass t' s2)) as Hwf3 by (by apply awf_pass, awf_step).
  change s' with (answered k1 o1 (pass t' s2)).
  apply answered_dropdown; [done|].
  apply pass_awaited. unfold s2, suggest_step. cbn [fst snd suggest_handle].
  apply answered_awaited_other; [lia|]. by apply pass_awaited.
Qed.

Lemma late_suggestions_shown_witness :
  let s := suggest_run [(0%N, Typed 0 "wa"); (300%N, Typed 0 "warf"); (600%N, Idle)]
             (suggest_boot [""]) in
  let s' := suggest_run
              [(700%N, Answered 1 (SuggestBody true
                                     (Some [{| suggestion_name := "warfarin";
                                               suggestion_type := None |}])));
               (800%N, Answered 0 (SuggestBody true
                                     (Some [{| suggestion_name := "water pill";
                                               suggestion_type := None |}])))] s in
  ∃ wd, widgets s' !! 0 = Some wd ∧
        ∀ d, dropdown wd =
             search_resume (SuggestBody true
                              (Some [{| suggestion_name := "water pill";
                                        suggestion_type := None |}])) d.
Proof.
  apply (late_suggestions_shown [""]
           [(0%N, Typed 0 "wa"); (300%N, Typed 0 "warf"); (600%N, Idle)]
           0 1 0 700%N 800%N).
  - vm_compute. repeat constructor.
  - vm_compute. repeat constructor.
  - lia.
Defined.

(** ** The check called several times in a row *)

Lemma iter_call_check n i s v :
  rows (page s) !! i ≫= nameInput = Some v →
  rows (page (Nat.iter n (call_check i) s)) !! i ≫= nameInput = Some v ∧
  calls (Nat.iter n (call_check i) s) = calls s ++ replicate n i ∧
  if nonempty (trim v)
  then ∃ reqs, sent (Nat.iter n (call_check i) s) = sent s ++ reqs ∧
               length reqs = n ∧
               Forall (λ r, medication_name r = trim v) reqs
  else sent (Nat.iter n (call_check i) s) = sent s.
Proof.
  intros Hv. induction n as [|n (Hvn & Hc & Hs)]; simpl.
  - split; [done|]. split; [by rewrite app_nil_r|].
    destruct (nonempty (trim v)); [|done]. exists []. by rewrite app_nil_r.
  - set (sn := Nat.iter n (call_check i) s) in *.
    destruct (call_check_fields i sn) as (_ & _ & _ & _ & Hc1 & Hn1).
    pose proof (call_check_sent i sn v Hvn) as Hs1. unfold request_for in Hs1.
    split; [by rewrite names_lookup, Hn1, <- names_lookup|]. split.
    + rewrite Hc1, Hc, <- app_assoc. f_equal.
      change [i] with (replicate 1 i). rewrite <- replicate_add.
      by rewrite Nat.add_1_r.
    + destruct (nonempty (trim v)); [|congruence].
      destruct Hs as (reqs & Hreqs & Hlen & Hall). destruct Hs1 as (r & Hr & Hname).
      exists (reqs ++ [r]). rewrite Hr, Hreqs, <- app_assoc. split; [done|].
      split; [rewrite length_app; simpl; lia|].
      apply Forall_app. split; [done|]. by constructor.
Qed.


(** * Listeners and closures *)

(** ** Timers of the closures *)

Lemma sooner_later_cases a b : sooner_later a b = a ∨ sooner_later a b = b.
Proof. unfold sooner_later. destruct (later_deadline b <? later_deadline a)%N; auto. Qed.

Lemma foldl_sooner_later_elem tm rest : foldl sooner_later tm rest ∈ tm :: rest.
Proof.
  revert tm. induction rest as [|x rest IH]; intros tm; simpl; [constructor|].
  specialize (IH (sooner_later tm x)). apply elem_of_cons in IH as [->|IH].
  - destruct (sooner_later_cases tm x) as [-> | ->]; repeat constructor.
  - by do 2 constructor.
Qed.

Lemma next_later_Some t ts tm :
  next_later t ts = Some tm → tm ∈ ts ∧ (later_deadline tm ≤ t)%N.
Proof.
  unfold next_later.
  destruct (filter _ ts) as [|x rest] eqn:Hf; [done|]. intros [= <-].
  pose proof (foldl_sooner_later_elem x rest) as Hin. rewrite <- Hf in Hin.
  apply list_elem_of_filter in Hin as [Hd Hin]. split; [done|].
  by apply N.leb_le.
Qed.

Lemma next_later_None t ts tm :
  next_later t ts = None → tm ∈ ts → (t < later_deadline tm)%N.
Proof.
  unfold next_later. destruct (filter _ ts) as [|x rest] eqn:Hf; [|done].
  intros _ Hin. destruct (later_deadline tm <=? t)%N eqn:Hd.
  - assert (tm ∈ filter (λ tm, (later_deadline tm <=? t)%N = true) ts) as Hin'
      by (by apply list_elem_of_filter).
    rewrite Hf in Hin'. by apply elem_of_nil in Hin'.
  - by apply N.leb_gt.
Qed.

Lemma clear_later_elem o ts tm :
  tm ∈ clear_later o ts ↔ tm ∈ ts ∧ o ≠ Some (later_id tm).
Proof.
  destruct o as [n|]; simpl.
  - rewrite list_elem_of_filter. split; intros [H1 H2]; split; try done; congruence.
  - split; [intros ?; by split|by intros [? _]].
Qed.

Lemma clear_later_NoDup o ts :
  NoDup (later_id <$> ts) → NoDup (later_id <$> clear_later o ts).
Proof. destruct o; simpl; [apply NoDup_fmap_filter|done]. Qed.

Lemma snoc_None_lookup (l : list (option nat)) c n :
  (l ++ [None]) !! c = Some (Some n) → l !! c = Some (Some n).
Proof.
  intros [H|[_ H]]%lookup_app_Some; [done|].
  destruct (c - length l) as [|k]; simpl in H; [done|].
  by rewrite lookup_nil in H.
Qed.

(** ** The invariant of the form *)

Lemma fwf_initialize s : form_wf s → form_wf (form_initialize s).
Proof.
  intros []. constructor; simpl.
  - done.
  - done.
  - intros tm Hin. apply lookup_app_l_Some. auto.
  - intros c n Hc%snoc_None_lookup. eauto.
  - intros c1 c2 n H1%snoc_None_lookup H2%snoc_None_lookup. eauto.
  - intros tm Hin. rewrite list_lookup_fmap.
    destruct (fwf_input0 tm Hin) as [nm ->]. by eexists.
  - intros i nm' c Hi Hc. rewrite list_lookup_fmap in Hi.
    destruct (name_inputs s !! i) as [nm|] eqn:Hnm; [|done].
    injection Hi as <-. simpl in Hc. rewrite length_app. simpl.
    apply elem_of_app in Hc as [Hc|Hc].
    + specialize (fwf_listeners0 i nm c Hnm Hc). lia.
    + apply list_elem_of_singleton in Hc as ->. lia.
Qed.

Lemma fwf_load values : form_wf (form_load values).
Proof.
  apply fwf_initialize. constructor; simpl.
  - constructor.
  - intros tm Hin. by apply elem_of_nil in Hin.
  - intros tm Hin. by apply elem_of_nil in Hin.
  - intros c n Hc. by rewrite lookup_nil in Hc.
  - intros c1 c2 n Hc. by rewrite lookup_nil in Hc.
  - intros tm Hin. by apply elem_of_nil in Hin.
  - intros i nm c Hi Hc. rewrite list_lookup_fmap in Hi.
    destruct (values !! i); [|done]. injection Hi as <-.
    by apply elem_of_nil in Hc.
Qed.

Lemma fwf_add_row v s : form_wf s → form_wf (add_row v s).
Proof.
  intros []. constructor; simpl; try done.
  - intros tm Hin. destruct (fwf_input0 tm Hin) as [nm Hnm].
    exists nm. by apply lookup_app_l_Some.
  - intros i nm c [Hi|[_ Hi]]%lookup_app_Some Hc; [eauto|].
    destruct (i - length (name_inputs s)) as [|k]; simpl in Hi.
    + injection Hi as <-. by apply elem_of_nil in Hc.
    + by rewrite lookup_nil in Hi.
Qed.

Lemma fwf_executedFunction c i s :
  form_wf s → is_Some (name_inputs s !! i) → form_wf (executedFunction c i s).
Proof.
  intros Hwf Hi. unfold executedFunction.
  destruct (closure_timeouts s !! c) as [o|] eqn:Hc; [|done].
  assert (∀ j, <[c:=Some (next_later_id s)]> (closure_timeouts s) !! j =
               if decide (c = j) then Some (Some (next_later_id s))
               else closure_timeouts s !! j) as Hlk.
  { intros j. by eapply insert_lookup_known. }
  destruct Hwf. constructor; simpl.
  - rewrite fmap_app. apply NoDup_app. split; [by apply clear_later_NoDup|].
    split; [|apply NoDup_singleton].
    intros x (tm & -> & [Hin _]%clear_later_elem)%list_elem_of_fmap Hx.
    simpl in Hx. apply list_elem_of_singleton in Hx.
    specialize (fwf_fresh0 tm Hin). lia.
  - intros tm [[Hin _]%clear_later_elem|Hin]%elem_of_app.
    + specialize (fwf_fresh0 tm Hin). lia.
    + apply list_elem_of_singleton in Hin as ->. simpl. lia.
  - intros tm [[Hin Hne]%clear_later_elem|Hin]%elem_of_app.
    + pose proof (fwf_owner0 tm Hin) as Ho. rewrite Hlk.
      destruct (decide (c = later_closure tm)) as [->|]; [|done].
      rewrite Hc in Ho. injection Ho as ->. done.
    + apply list_elem_of_singleton in Hin as ->. simpl. rewrite Hlk.
      by destruct (decide (c = c)).
  - intros j n Hj. rewrite Hlk in Hj.
    destruct (decide (c = j)) as [->|].
    + injection Hj as <-. lia.
    + specialize (fwf_held0 j n Hj). lia.
  - intros c1 c2 n H1 H2. rewrite Hlk in H1, H2.
    destruct (decide (c = c1)) as [E1|N1], (decide (c = c2)) as [E2|N2].
    + congruence.
    + injection H1 as <-. specialize (fwf_held0 c2 _ H2). lia.
    + injection H2 as <-. specialize (fwf_held0 c1 _ H1). lia.
    + by eapply fwf_apart0.
  - intros tm [[Hin _]%clear_later_elem|Hin]%elem_of_app; [auto|].
    by apply list_elem_of_singleton in Hin as ->.
  - intros j nm c' Hj Hc'. rewrite length_insert. eauto.
Qed.

(** A state with the same inputs, closures and next id, and no timer that
    was not pending, is as well formed. *)
Lemma fwf_transfer s s' :
  form_wf s →
  listeners <$> name_inputs s' = listeners <$> name_inputs s →
  closure_timeouts s' = closure_timeouts s →
  next_later_id s' = next_later_id s →
  NoDup (later_id <$> later_timers s') →
  (∀ tm, tm ∈ later_timers s' → tm ∈ later_timers s) →
  form_wf s'.
Proof.
  intros [] Hl Hto Hn Hnd Hsub.
  assert (∀ i, listeners <$> name_inputs s' !! i = listeners <$> name_inputs s !! i)
    as Hlk.
  { intros i. by rewrite <- !list_lookup_fmap, Hl. }
  constructor.
  - done.
  - intros tm Hin. rewrite Hn. auto.
  - intros tm Hin. rewrite Hto. auto.
  - intros c n. rewrite Hto, Hn. apply fwf_held0.
  - intros c1 c2 n. rewrite Hto. apply fwf_apart0.
  - intros tm Hin. destruct (fwf_input0 tm (Hsub tm Hin)) as [nm Hnm].
    specialize (Hlk (later_input tm)). rewrite Hnm in Hlk.
    destruct (name_inputs s' !! later_input tm); [by eexists|done].
  - intros i nm' c Hi Hc. rewrite Hto. specialize (Hlk i). rewrite Hi in Hlk.
    destruct (name_inputs s !! i) as [nm|] eqn:Hnm; [|done].
    simpl in Hlk. injection Hlk as Hlk. apply (fwf_listeners0 i nm c Hnm).
    by rewrite <- Hlk.
Qed.

Lemma record_check_fields from i s :
  form_now (record_check from i s) = form_now s ∧
  name_inputs (record_check from i s) = name_inputs s ∧
  closure_timeouts (record_check from i s) = closure_timeouts s ∧
  later_timers (record_check from i s) = later_timers s ∧
  next_later_id (record_check from i s) = next_later_id s.
Proof. unfold record_check. by destruct (name_inputs s !! i). Qed.

Lemma record_check_calls from i s nm :
  name_inputs s !! i = Some nm →
  check_calls (record_check from i s) =
  check_calls s ++ [{| call_from := from; call_input := i;
                       call_value := input_value nm |}].
Proof. intros Hi. unfold record_check. by rewrite Hi. Qed.

Lemma fwf_record_check from i s : form_wf s → form_wf (record_check from i s).
Proof.
  intros Hwf. destruct (record_check_fields from i s) as (_ & Hn & Hc & Ht & Hid).
  apply (fwf_transfer s); [done|by rewrite Hn|done|done|rewrite Ht; apply Hwf|].
  by rewrite Ht.
Qed.

Lemma run_later_fields tm s :
  form_now (run_later tm s) = N.max (form_now s) (later_deadline tm) ∧
  name_inputs (run_later tm s) = name_inputs s ∧
  closure_timeouts (run_later tm s) = closure_timeouts s ∧
  next_later_id (run_later tm s) = next_later_id s.
Proof.
  unfold run_later.
  destruct (record_check_fields (FromLater (later_closure tm)) (later_input tm)
    {| form_now := N.max (form_now s) (later_deadline tm);
       name_inputs := name_inputs s;
       closure_timeouts := closure_timeouts s;
       later_timers :=
         match closure_timeouts s !! later_closure tm with
         | Some id => clear_later id
                        (filter (λ x, later_id x ≠ later_id tm) (later_timers s))
         | None => filter (λ x, later_id x ≠ later_id tm) (later_timers s)
         end;
       next_later_id := next_later_id s;
       check_calls := check_calls s |}) as (-> & -> & -> & _ & ->).
  done.
Qed.

(** The [clearTimeout] of [later] finds its own timer gone already. *)
Lemma run_later_timers tm s :
  form_wf s → tm ∈ later_timers s →
  later_timers (run_later tm s) =
  filter (λ x, later_id x ≠ later_id tm) (later_timers s).
Proof.
  intros Hwf Hin. unfold run_later.
  match goal with
  | |- later_timers (record_check ?f ?i ?s0) = _ =>
      destruct (record_check_fields f i s0) as (_ & _ & _ & -> & _)
  end.
  simpl. rewrite (fwf_owner s Hwf tm Hin). simpl.
  apply filter_filter_absorb. done.
Qed.

Lemma run_later_calls tm s nm :
  name_inputs s !! later_input tm = Some nm →
  check_calls (run_later tm s) =
  check_calls s ++ [{| call_from := FromLater (later_closure tm);
                       call_input := later_input tm;
                       call_value := input_value nm |}].
Proof. intros Hi. unfold run_later. by rewrite (record_check_calls _ _ _ nm). Qed.

Lemma fwf_run_later tm s :
  form_wf s → tm ∈ later_timers s → form_wf (run_later tm s).
Proof.
  intros Hwf Hin. destruct (run_later_fields tm s) as (_ & Hn & Hc & Hid).
  pose proof (run_later_timers tm s Hwf Hin) as Ht.
  apply (fwf_transfer s); [done|by rewrite Hn|done|done|..].
  - rewrite Ht. apply NoDup_fmap_filter, Hwf.
  - rewrite Ht. by intros x [_ Hx]%list_elem_of_filter.
Qed.

Lemma fire_laters_ind (P : Form → Prop) t :
  (∀ s tm, P s → next_later t (later_timers s) = Some tm → P (run_later tm s)) →
  ∀ n s, P s → P (fire_laters n t s).
Proof.
  intros Hstep n. induction n as [|n IH]; intros s Hs; simpl; [done|].
  destruct (next_later t (later_timers s)) as [tm|] eqn:Hd; [|done].
  apply IH. by apply Hstep.
Qed.

Lemma fwf_fire_laters n t s : form_wf s → form_wf (fire_laters n t s).
Proof.
  apply fire_laters_ind. intros s' tm Hwf [Hin _]%next_later_Some.
  by apply fwf_run_later.
Qed.

Lemma fwf_form_advance t s : form_wf s → form_wf (form_advance t s).
Proof.
  intros Hwf. pose proof (fwf_fire_laters (length (later_timers s)) t s Hwf) as [].
  by constructor.
Qed.

(** Time that passes changes neither the inputs nor the number of
    closures. *)
Lemma form_advance_inputs t s :
  name_inputs (form_advance t s) = name_inputs s ∧
  length (closure_timeouts (form_advance t s)) = length (closure_timeouts s).
Proof.
  unfold form_advance. cbn [name_inputs closure_timeouts].
  apply (fire_laters_ind
           (λ s', name_inputs s' = name_inputs s ∧
                  length (closure_timeouts s') = length (closure_timeouts s)));
    [|done].
  intros s' x [Hn Hc] _. destruct (run_later_fields x s') as (_ & -> & -> & _).
  done.
Qed.

Lemma form_advance_now t s : (form_now s ≤ t)%N → form_now (form_advance t s) = t.
Proof.
  intros Hle. unfold form_advance. cbn [form_now].
  assert (form_now (fire_laters (length (later_timers s)) t s) ≤ t)%N as Hn; [|lia].
  apply (fire_laters_ind (λ s', (form_now s' ≤ t)%N)); [|done].
  intros s' x Hs' [_ Hd]%next_later_Some.
  destruct (run_later_fields x s') as (-> & _). lia.
Qed.

(** ** One closure, one timer *)

Lemma laters_of_at_most_one c s x y :
  form_wf s → x ∈ laters_of c s → y ∈ laters_of c s → x = y.
Proof.
  intros Hwf [Hxc Hx]%list_elem_of_filter [Hyc Hy]%list_elem_of_filter.
  pose proof (fwf_owner s Hwf x Hx) as H1.
  pose proof (fwf_owner s Hwf y Hy) as H2.
  rewrite Hxc in H1. rewrite Hyc in H2.
  apply (NoDup_fmap_eq later_id (later_timers s)); [apply Hwf|done|done|congruence].
Qed.

Lemma laters_of_length c s : form_wf s → length (laters_of c s) ≤ 1.
Proof.
  intros Hwf.
  assert (NoDup (later_id <$> laters_of c s)) as Hnd.
  { apply NoDup_fmap_filter, Hwf. }
  pose proof (laters_of_at_most_one c s) as Hone.
  destruct (laters_of c s) as [|a [|b l]]; simpl; [lia|lia|].
  exfalso. rewrite !fmap_cons in Hnd. apply NoDup_cons in Hnd as [Hab _].
  apply Hab. rewrite (Hone a b Hwf); repeat constructor.
Qed.

(** The debounced check of closure [c] is called: the closure's pending
    timer, whichever input it was for, gives way to one for input [i]. *)
Lemma executedFunction_own c i s :
  form_wf s → c < length (closure_timeouts s) →
  ∃ tm, laters_of c (executedFunction c i s) = [tm] ∧
        later_input tm = i ∧ later_deadline tm = (form_now s + 800)%N.
Proof.
  intros Hwf Hc. unfold executedFunction.
  destruct (closure_timeouts s !! c) as [o|] eqn:Ho.
  2:{ apply lookup_ge_None in Ho. lia. }
  exists {| later_id := next_later_id s; later_deadline := (form_now s + 800)%N;
            later_closure := c; later_input := i |}.
  unfold laters_of. cbn [later_timers]. rewrite filter_app.
  split; [|done].
  rewrite (filter_none _ (clear_later o (later_timers s))).
  - rewrite filter_cons. simpl. by destruct (decide (c = c)).
  - intros x [Hx Hne]%clear_later_elem Hxc.
    pose proof (fwf_owner s Hwf x Hx) as Hown. rewrite Hxc, Ho in Hown.
    injection Hown as ->. done.
Qed.

(** The timers of the other closures stay. *)
Lemma executedFunction_other c c' i s :
  form_wf s → c' ≠ c →
  laters_of c' (executedFunction c i s) = laters_of c' s.
Proof.
  intros Hwf Hne. unfold executedFunction.
  destruct (closure_timeouts s !! c) as [o|] eqn:Ho; [|done].
  unfold laters_of. cbn [later_timers]. rewrite filter_app.
  rewrite (filter_cons _ _ []). simpl.
  destruct (decide (c = c')); [congruence|]. rewrite app_nil_r.
  destruct o as [k|]; simpl; [|done].
  apply filter_filter_absorb. intros x Hx Hxc Hid.
  pose proof (fwf_owner s Hwf x Hx) as Hown. rewrite Hxc, Hid in Hown.
  apply Hne. by apply (fwf_apart s Hwf c' c k).
Qed.

Lemma executedFunction_fields c i s :
  form_now (executedFunction c i s) = form_now s ∧
  name_inputs (executedFunction c i s) = name_inputs s ∧
  check_calls (executedFunction c i s) = check_calls s ∧
  length (closure_timeouts (executedFunction c i s)) = length (closure_timeouts s).
Proof.
  unfold executedFunction. destruct (closure_timeouts s !! c); [|done].
  simpl. by rewrite length_insert.
Qed.

(** The [input] listeners of an input run one after the other. *)
Lemma executed_all i cs : ∀ s,
  form_wf s → is_Some (name_inputs s !! i) →
  (∀ c, c ∈ cs → c < length (closure_timeouts s)) →
  let s' := foldl (λ s c, executedFunction c i s) s cs in
  form_wf s' ∧
  form_now s' = form_now s ∧
  name_inputs s' = name_inputs s ∧
  check_calls s' = check_calls s ∧
  length (closure_timeouts s') = length (closure_timeouts s) ∧
  (∀ c, c ∈ cs →
        ∃ tm, laters_of c s' = [tm] ∧ later_input tm = i ∧
              later_deadline tm = (form_now s + 800)%N) ∧
  (∀ c, c ∉ cs → laters_of c s' = laters_of c s).
Proof.
  induction cs as [|c0 cs IH] using rev_ind; intros s Hwf Hi Hlen.
  { simpl. repeat (split; [done|]). split; [|done].
    intros c Hc. by apply elem_of_nil in Hc. }
  cbn zeta. rewrite foldl_app. cbn [foldl].
  destruct (IH s Hwf Hi) as (Hwf1 & Hn1 & Hi1 & Hc1 & Hl1 & Hin1 & Hout1).
  { intros c Hc. apply Hlen. apply elem_of_app. by left. }
  cbn zeta in Hwf1, Hn1, Hi1, Hc1, Hl1, Hin1, Hout1.
  set (s1 := foldl (λ s c, executedFunction c i s) s cs) in *.
  destruct (executedFunction_fields c0 i s1) as (Hn2 & Hi2 & Hc2 & Hl2).
  split; [apply fwf_executedFunction; [done|by rewrite Hi1]|].
  split; [congruence|]. split; [congruence|]. split; [congruence|].
  split; [congruence|]. split.
  - intros c Hc. destruct (decide (c = c0)) as [->|Hne].
    + destruct (executedFunction_own c0 i s1 Hwf1) as (tm & Ht & Hti & Htd).
      { rewrite Hl1. apply Hlen. apply elem_of_app. right. constructor. }
      exists tm. split; [done|]. split; [done|]. by rewrite Htd, Hn1.
    + rewrite (executedFunction_other c0 c i s1 Hwf1 Hne). apply Hin1.
      apply elem_of_app in Hc as [Hc|Hc]; [done|].
      by apply list_elem_of_singleton in Hc.
  - intros c Hc. rewrite executedFunction_other; [|done|].
    + apply Hout1. intros Hin. apply Hc. apply elem_of_app. by left.
    + intros ->. apply Hc. apply elem_of_app. right. constructor.
Qed.

Lemma fwf_set_input_value i v nm s :
  form_wf s → name_inputs s !! i = Some nm →
  form_wf {| form_now := form_now s;
             name_inputs := <[i := set_input_value v nm]> (name_inputs s);
             closure_timeouts := closure_timeouts s;
             later_timers := later_timers s;
             next_later_id := next_later_id s;
             check_calls := check_calls s |}.
Proof.
  intros Hwf Hi. apply (fwf_transfer s); try done; simpl; [|apply Hwf].
  by apply (fmap_insert_same listeners _ _ _ nm).
Qed.

(** An [input] event on input [i]: every closure listening on it has one
    pending timer, for input [i], due 800ms later; the other closures keep
    their timers; the check is not called. *)
Lemma input_event_arms i v s nm :
  form_wf s → name_inputs s !! i = Some nm →
  let s' := input_event i v s in
  form_wf s' ∧
  form_now s' = form_now s ∧
  name_inputs s' = <[i := set_input_value v nm]> (name_inputs s) ∧
  check_calls s' = check_calls s ∧
  length (closure_timeouts s') = length (closure_timeouts s) ∧
  (∀ c, c ∈ listeners nm →
        ∃ tm, laters_of c s' = [tm] ∧ later_input tm = i ∧
              later_deadline tm = (form_now s + 800)%N) ∧
  (∀ c, c ∉ listeners nm → laters_of c s' = laters_of c s).
Proof.
  intros Hwf Hi. cbn zeta. unfold input_event. rewrite Hi.
  pose proof (fwf_set_input_value i v nm s Hwf Hi) as Hwf0.
  apply (executed_all i (listeners nm) _ Hwf0).
  - simpl. rewrite list_lookup_insert_eq; [by eexists|]. by eapply lookup_lt_Some.
  - intros c Hc. simpl. by apply (fwf_listeners s Hwf i nm).
Qed.

Lemma fwf_input_event i v s : form_wf s → form_wf (input_event i v s).
Proof.
  intros Hwf. destruct (name_inputs s !! i) as [nm|] eqn:Hi.
  - by destruct (input_event_arms i v s nm Hwf Hi) as (? & _).
  - unfold input_event. by rewrite Hi.
Qed.

(** The [blur] listeners of an input run one after the other: the check is
    called once for each. *)
Lemma blur_all {A} i nm (l : list A) : ∀ s,
  name_inputs s !! i = Some nm →
  let s' := foldl (λ s _, record_check FromBlur i s) s l in
  form_now s' = form_now s ∧
  name_inputs s' = name_inputs s ∧
  closure_timeouts s' = closure_timeouts s ∧
  later_timers s' = later_timers s ∧
  next_later_id s' = next_later_id s ∧
  check_calls s' =
    check_calls s ++
    replicate (length l) {| call_from := FromBlur; call_input := i;
                            call_value := input_value nm |}.
Proof.
  induction l as [|a l IH]; intros s Hi.
  { simpl. by rewrite app_nil_r. }
  cbn zeta. cbn [foldl].
  destruct (record_check_fields FromBlur i s) as (Hn & Hin & Hc & Ht & Hid).
  destruct (IH (record_check FromBlur i s)) as (Hn' & Hin' & Hc' & Ht' & Hid' & Hcalls).
  { by rewrite Hin. }
  cbn zeta in Hn', Hin', Hc', Ht', Hid', Hcalls.
  rewrite Hn', Hin', Hc', Ht', Hid', Hcalls, (record_check_calls _ _ _ nm Hi).
  repeat (split; [done|]). by rewrite <- app_assoc.
Qed.

Lemma blur_event_fields i s :
  form_now (blur_event i s) = form_now s ∧
  name_inputs (blur_event i s) = name_inputs s ∧
  closure_timeouts (blur_event i s) = closure_timeouts s ∧
  later_timers (blur_event i s) = later_timers s ∧
  next_later_id (blur_event i s) = next_later_id s.
Proof.
  unfold blur_event. destruct (name_inputs s !! i) as [nm|] eqn:Hi; [|done].
  by destruct (blur_all i nm (listeners nm) s Hi) as (? & ? & ? & ? & ? & _).
Qed.

Lemma fwf_blur_event i s : form_wf s → form_wf (blur_event i s).
Proof.
  intros Hwf. destruct (blur_event_fields i s) as (_ & Hn & Hc & Ht & Hid).
  apply (fwf_transfer s); [done|by rewrite Hn|done|done|rewrite Ht; apply Hwf|].
  by rewrite Ht.
Qed.

Lemma fwf_form_step te s : form_wf s → form_wf (form_step te s).
Proof.
  intros Hwf. unfold form_step. pose proof (fwf_form_advance te.1 s Hwf) as Hp.
  destruct te.2 as [|v|i v|i|]; simpl.
  - by apply fwf_initialize.
  - by apply fwf_add_row.
  - by apply fwf_input_event.
  - by apply fwf_blur_event.
  - done.
Qed.

Lemma fwf_form_run tr s : form_wf s → form_wf (form_run tr s).
Proof.
  revert s. induction tr as [|te tr IH]; intros s Hwf; [done|].
  simpl. by apply IH, fwf_form_step.
Qed.

Lemma fwf_reachable values tr : form_wf (form_run tr (form_load values)).
Proof. apply fwf_form_run, fwf_load. Qed.

(** ** Timers of the closures firing *)

Lemma calls_by_later_snoc c l x :
  filter (λ y, by_later c y = true) (l ++ [x]) =
  filter (λ y, by_later c y = true) l ++ (if by_later c x then [x] else []).
Proof.
  rewrite filter_app. f_equal. rewrite filter_cons.
  destruct (by_later c x); by destruct (decide _).
Qed.

(** The timer of another closure fires: nothing of closure [c] changes. *)
Lemma run_later_other x s c :
  form_wf s → x ∈ later_timers s → later_closure x ≠ c →
  calls_by_later c (run_later x s) = calls_by_later c s ∧
  laters_of c (run_later x s) = laters_of c s.
Proof.
  intros Hwf Hx Hc. split.
  - destruct (fwf_input s Hwf x Hx) as [nm Hnm]. unfold calls_by_later.
    rewrite (run_later_calls x s nm Hnm), calls_by_later_snoc.
    unfold by_later. simpl. rewrite bool_decide_false by done. apply app_nil_r.
  - unfold laters_of. rewrite (run_later_timers x s Hwf Hx).
    apply filter_filter_absorb. intros y Hy Hyc Hid.
    assert (y = x) as -> by (by apply (NoDup_fmap_eq later_id (later_timers s));
                               [apply Hwf|..]).
    done.
Qed.

(** The timer of closure [c] fires: the check is called on the timer's
    input, with the value it holds, and the closure has no timer left. *)
Lemma run_later_own x s c nm :
  form_wf s → x ∈ later_timers s → later_closure x = c →
  name_inputs s !! later_input x = Some nm →
  calls_by_later c (run_later x s) =
    calls_by_later c s ++ [{| call_from := FromLater c;
                              call_input := later_input x;
                              call_value := input_value nm |}] ∧
  laters_of c (run_later x s) = [].
Proof.
  intros Hwf Hx Hc Hnm. split.
  - unfold calls_by_later. rewrite (run_later_calls x s nm Hnm), calls_by_later_snoc.
    unfold by_later. simpl. rewrite Hc. by rewrite bool_decide_true.
  - unfold laters_of. rewrite (run_later_timers x s Hwf Hx).
    apply filter_none. intros y [Hid Hy]%list_elem_of_filter Hyc. apply Hid.
    f_equal. apply (laters_of_at_most_one c s); [done|..];
      by apply list_elem_of_filter.
Qed.

Lemma run_later_shrinks x s :
  form_wf s → x ∈ later_timers s →
  length (later_timers (run_later x s)) < length (later_timers s).
Proof.
  intros Hwf Hx. rewrite (run_later_timers x s Hwf Hx).
  apply (length_filter_lt _ _ x); [done|]. by intros Hne.
Qed.

(** While the timer of closure [c] is not due, the passing of time calls no
    check for it. *)
Lemma fire_laters_quiet n t s c :
  form_wf s →
  (∀ tm, tm ∈ laters_of c s → (t < later_deadline tm)%N) →
  calls_by_later c (fire_laters n t s) = calls_by_later c s ∧
  laters_of c (fire_laters n t s) = laters_of c s.
Proof.
  intros Hwf Hq.
  assert (form_wf (fire_laters n t s) ∧
          calls_by_later c (fire_laters n t s) = calls_by_later c s ∧
          laters_of c (fire_laters n t s) = laters_of c s) as (_ & ? & ?); [|done].
  apply (fire_laters_ind
           (λ s', form_wf s' ∧ calls_by_later c s' = calls_by_later c s ∧
                  laters_of c s' = laters_of c s)); [|done].
  intros s' x (Hwf' & Hs & Ht) [Hx Hd]%next_later_Some.
  split; [by apply fwf_run_later|].
  destruct (decide (later_closure x = c)) as [Hxc|Hxc].
  - exfalso. assert (x ∈ laters_of c s) as Hin.
    { rewrite <- Ht. by apply list_elem_of_filter. }
    specialize (Hq x Hin). lia.
  - destruct (run_later_other x s' c Hwf' Hx Hxc) as [-> ->]. done.
Qed.

(** Once the timer of closure [c] is due, the passing of time calls the
    check once for it, on the timer's input. *)
Lemma fire_laters_due n t s c tm nm :
  form_wf s →
  laters_of c s = [tm] → (later_deadline tm ≤ t)%N →
  name_inputs s !! later_input tm = Some nm →
  length (later_timers s) ≤ n →
  calls_by_later c (fire_laters n t s) =
    calls_by_later c s ++ [{| call_from := FromLater c;
                              call_input := later_input tm;
                              call_value := input_value nm |}] ∧
  laters_of c (fire_laters n t s) = [].
Proof.
  revert s. induction n as [|n IH]; intros s Hwf Ht Hd Hnm Hlen.
  { assert (tm ∈ laters_of c s) as Hin by (rewrite Ht; constructor).
    apply list_elem_of_filter in Hin as [_ Hin].
    destruct (later_timers s); [by apply elem_of_nil in Hin|simpl in Hlen; lia]. }
  assert (tm ∈ laters_of c s) as Htc by (rewrite Ht; constructor).
  assert (tm ∈ later_timers s) as Htm by (by apply list_elem_of_filter in Htc as [_ ?]).
  simpl. destruct (next_later t (later_timers s)) as [x|] eqn:Hnext.
  2:{ pose proof (next_later_None t _ tm Hnext Htm). lia. }
  apply next_later_Some in Hnext as [Hx Hxd].
  destruct (decide (later_closure x = c)) as [Hxc|Hxc].
  - assert (x = tm) as ->.
    { apply (laters_of_at_most_one c s); [done| |done]. by apply list_elem_of_filter. }
    destruct (run_later_own tm s c nm Hwf Hx Hxc Hnm) as [Hs1 Ht1].
    destruct (fire_laters_quiet n t (run_later tm s) c) as [Hs2 Ht2].
    { by apply fwf_run_later. }
    { rewrite Ht1. intros y Hy. by apply elem_of_nil in Hy. }
    by rewrite Hs2, Ht2, Hs1, Ht1.
  - destruct (run_later_other x s c Hwf Hx Hxc) as [Hs1 Ht1].
    destruct (run_later_fields x s) as (_ & Hn1 & _).
    destruct (IH (run_later x s)) as [Hs2 Ht2].
    + by apply fwf_run_later.
    + by rewrite Ht1.
    + done.
    + by rewrite Hn1.
    + pose proof (run_later_shrinks x s Hwf Hx). lia.
    + by rewrite Hs2, Ht2, Hs1.
Qed.

Lemma form_advance_due t s c tm nm :
  form_wf s →
  laters_of c s = [tm] → (later_deadline tm ≤ t)%N →
  name_inputs s !! later_input tm = Some nm →
  calls_by_later c (form_advance t s) =
    calls_by_later c s ++ [{| call_from := FromLater c;
                              call_input := later_input tm;
                              call_value := input_value nm |}] ∧
  laters_of c (form_advance t s) = [].
Proof. intros Hwf Ht Hd Hnm. by apply (fire_laters_due _ t s c tm nm). Qed.

(** ** The listeners of an input *)

Lemma executed_all_inputs i cs : ∀ s,
  name_inputs (foldl (λ s c, executedFunction c i s) s cs) = name_inputs s ∧
  length (closure_timeouts (foldl (λ s c, executedFunction c i s) s cs)) =
    length (closure_timeouts s).
Proof.
  induction cs as [|c cs IH]; intros s; [done|]. cbn [foldl].
  destruct (IH (executedFunction c i s)) as [-> ->].
  by destruct (executedFunction_fields c i s) as (_ & -> & _ & ->).
Qed.

Lemma input_event_listeners i v s :
  listeners <$> name_inputs (input_event i v s) = listeners <$> name_inputs s ∧
  length (closure_timeouts (input_event i v s)) = length (closure_timeouts s).
Proof.
  unfold input_event. destruct (name_inputs s !! i) as [nm|] eqn:Hi; [|done].
  match goal with
  | |- context [foldl ?f ?s0 ?cs] =>
      destruct (executed_all_inputs i cs s0) as [-> ->]
  end.
  simpl. split; [|done]. by apply (fmap_insert_same listeners _ _ _ nm).
Qed.

(** An input of the document at load carries the listeners of every run of
    [initializeMedicationChecker], that of the load first. *)
Lemma listeners_run tr : ∀ s i k,
  (listeners <$> name_inputs s) !! i = Some (seq 0 k) →
  length (closure_timeouts s) = k →
  (listeners <$> name_inputs (form_run tr s)) !! i =
    Some (seq 0 (k + reinitializations tr)) ∧
  length (closure_timeouts (form_run tr s)) = k + reinitializations tr.
Proof.
  induction tr as [|[t e] tr IH]; intros s i k Hi Hk.
  { unfold reinitializations. simpl. by rewrite Nat.add_0_r. }
  cbn [form_run foldl].
  change (foldl (λ s te, form_step te s) (form_step (t, e) s) tr)
    with (form_run tr (form_step (t, e) s)).
  destruct (form_advance_inputs t s) as [Hn Hc].
  unfold reinitializations. rewrite filter_cons. cbn [snd].
  unfold form_step. cbn [fst snd].
  revert Hn Hc. generalize (form_advance t s). intros sa Hn Hc.
  destruct e as [|v|j v|j|]; cbn [form_handle is_reinitialized].
  - destruct (decide (true = true)); [|done]. cbn [length].
    destruct (IH (form_initialize sa) i (S k)) as [H1 H2].
    { cbn [form_initialize name_inputs].
      rewrite <- list_fmap_compose, list_lookup_fmap, Hn.
      rewrite list_lookup_fmap in Hi.
      destruct (name_inputs s !! i) as [nm|]; [|done].
      cbn [fmap option_fmap option_map] in Hi. injection Hi as Hi.
      cbn [fmap option_fmap option_map compose add_listener listeners].
      by rewrite Hi, Hc, Hk, seq_S. }
    { cbn [form_initialize closure_timeouts]. rewrite length_app, Hc. simpl. lia. }
    fold (reinitializations tr). rewrite <- Nat.add_succ_comm. done.
  - destruct (decide (false = true)); [done|]. apply IH; [|by simpl; rewrite Hc].
    simpl. rewrite fmap_app, Hn. by apply lookup_app_l_Some.
  - destruct (decide (false = true)); [done|].
    destruct (input_event_listeners j v sa) as [Hl Hlen].
    apply IH; [by rewrite Hl, Hn|by rewrite Hlen, Hc].
  - destruct (decide (false = true)); [done|].
    destruct (blur_event_fields j sa) as (_ & Hl & Hto & _).
    apply IH; [by rewrite Hl, Hn|by rewrite Hto, Hc].
  - destruct (decide (false = true)); [done|].
    apply IH; [by rewrite Hn|by rewrite Hc].
Qed.

Lemma listeners_loaded values tr i :
  i < length values →
  ∃ nm, name_inputs (form_run tr (form_load values)) !! i = Some nm ∧
        listeners nm = seq 0 (S (reinitializations tr)).
Proof.
  intros Hi. destruct (lookup_lt_is_Some_2 values i Hi) as [v Hv].
  destruct (listeners_run tr (form_load values) i 1) as [Hl _].
  { simpl. rewrite <- list_fmap_compose, list_lookup_fmap, list_lookup_fmap, Hv.
    done. }
  { done. }
  rewrite list_lookup_fmap in Hl.
  destruct (name_inputs (form_run tr (form_load values)) !! i) as [nm|]; [|done].
  exists nm. split; [done|]. simpl in Hl. by injection Hl.
Qed.

(** ** The shared timer *)

(** C5 (as stated): it is not so that at most one debounced check is
    pending across the whole form at any time.  A row is added and
    [reinitializeMedicationChecker] is called, as its comment asks; the
    inputs present at load then carry the [input] listeners of two runs,
    each with a closure and a timer of its own, and one [input] event on
    such a field leaves two debounced checks pending. *)
Lemma reinitialised_two_checks_pending : ¬ one_check_pending_form_wide.
Proof.
  intros H.
  specialize (H ["warfarin"]
                [(0%N, RowAdded ""); (0%N, Reinitialized); (10%N, Edited 0 "warfarin 5")]).
  vm_compute in H. lia.
Qed.

(** C5 (amended): the debounced check made by a run of
    [initializeMedicationChecker] is shared, through the single timer of its
    closure, by all the name inputs the run has put its listeners on, and
    the run at load puts them on every name input of the document.  So at
    most one debounced check of a closure is pending at any time.  An
    [input] event on a field leaves, for every closure listening on it,
    that field's check as the closure's only pending one, due 800ms later,
    whichever field the closure's pending check was for; and when that
    timer fires the closure's check runs once, on the field edited last,
    with the value it holds, and nothing of the closure is left pending. *)
Theorem one_check_pending_per_closure (values : list string)
    (tr : list (N * FormEvent)) (c i : nat) (nm : NameInput) (v : string)
    (t T : N) :
  let s := form_run tr (form_load values) in
  let s1 := form_step (t, Edited i v) s in
  let s2 := form_step (T, Elapsed) s1 in
  (∀ c', length (laters_of c' s) ≤ 1) ∧
  (∀ j, j < length values →
        ∃ nm', name_inputs s !! j = Some nm' ∧ 0 ∈ listeners nm') ∧
  (name_inputs s !! i = Some nm → c ∈ listeners nm →
   (form_now s ≤ t)%N → (t + 800 ≤ T)%N →
   (∃ tm, laters_of c s1 = [tm] ∧ later_input tm = i ∧
          later_deadline tm = (t + 800)%N) ∧
   calls_by_later c s2 =
     calls_by_later c s1 ++
     [{| call_from := FromLater c; call_input := i; call_value := v |}] ∧
   laters_of c s2 = []).
Proof.
  intros s s1 s2. pose proof (fwf_reachable values tr) as Hwf. fold s in Hwf.
  split; [intros c'; by apply laters_of_length|]. split.
  { intros j Hj. destruct (listeners_loaded values tr j Hj) as (nm' & Hnm & Hl).
    exists nm'. split; [done|]. rewrite Hl. simpl. constructor. }
  intros Hi Hc Hnow HT.
  set (sa := form_advance t s).
  assert (form_wf sa) as Hwfa by (by apply fwf_form_advance).
  destruct (form_advance_inputs t s) as [Hna _]. fold sa in Hna.
  pose proof (form_advance_now t s Hnow) as Hta. fold sa in Hta.
  assert (name_inputs sa !! i = Some nm) as Hia by (by rewrite Hna).
  destruct (input_event_arms i v sa nm Hwfa Hia)
    as (Hwf1 & Hn1 & Hin1 & _ & _ & Harm & _).
  cbn zeta in Hwf1, Hn1, Hin1, Harm.
  change (input_event i v sa) with s1 in Hwf1, Hn1, Hin1, Harm.
  destruct (Harm c Hc) as (tm & Htm & Hti & Htd). rewrite Hta in Htd.
  split; [by exists tm|].
  assert (name_inputs s1 !! later_input tm = Some (set_input_value v nm)) as Hv1.
  { rewrite Hin1, Hti. apply list_lookup_insert_eq. by eapply lookup_lt_Some. }
  destruct (form_advance_due T s1 c tm (set_input_value v nm) Hwf1 Htm) as [Hcalls Hnone];
    [lia|done|].
  rewrite Hti in Hcalls. done.
Qed.

Lemma one_check_pending_per_closure_witness :
  let s := form_run [(0%N, RowAdded ""); (0%N, Reinitialized); (100%N, Edited 1 "asp")]
                    (form_load ["warfarin"; "aspirin"]) in
  let s1 := form_step (500%N, Edited 0 "warfarin 5") s in
  let s2 := form_step (1300%N, Elapsed) s1 in
  (∃ tm, laters_of 0 s1 = [tm] ∧ later_input tm = 0 ∧
         later_deadline tm = (500 + 800)%N) ∧
  calls_by_later 0 s2 =
    calls_by_later 0 s1 ++
    [{| call_from := FromLater 0; call_input := 0; call_value := "warfarin 5" |}] ∧
  laters_of 0 s2 = [].
Proof.
  apply (proj2 (proj2 (one_check_pending_per_closure
           ["warfarin"; "aspirin"]
           [(0%N, RowAdded ""); (0%N, Reinitialized); (100%N, Edited 1 "asp")]
           0 0 {| input_value := "warfarin"; listeners := [0; 1] |}
           "warfarin 5" 500%N 1300%N))).
  - reflexivity.
  - repeat constructor.
  - by vm_compute.
  - by vm_compute.
Defined.

(** ** Listeners added again *)

(** X19: listeners added again by a re-initialisation all run.  On a name
    input that was in the document at load, every run of
    [initializeMedicationChecker] has put a [blur] listener, the load and
    each [reinitializeMedicationChecker] since, whatever else has happened
    on the form; one [blur] of the input then calls the check once for
    each run, on that input with the value it holds, and leaves the pending
    debounced checks as they are. *)
Theorem reinitialised_blur_checks_again (values : list string)
    (tr : list (N * FormEvent)) (i : nat) :
  let s := form_run tr (form_load values) in
  i < length values →
  ∃ nm, name_inputs s !! i = Some nm ∧
        listeners nm = seq 0 (S (reinitializations tr)) ∧
        check_calls (blur_event i s) =
          check_calls s ++
          replicate (S (reinitializations tr))
                    {| call_from := FromBlur; call_input := i;
                       call_value := input_value nm |} ∧
        later_timers (blur_event i s) = later_timers s.
Proof.
  intros s Hi. destruct (listeners_loaded values tr i Hi) as (nm & Hnm & Hl).
  fold s in Hnm. exists nm. split; [done|]. split; [done|].
  unfold blur_event. rewrite Hnm.
  destruct (blur_all i nm (listeners nm) s Hnm) as (_ & _ & _ & Ht & _ & Hcalls).
  cbn zeta in Ht, Hcalls. rewrite Hcalls, Ht, Hl, length_seq. done.
Qed.

Lemma reinitialised_blur_checks_again_witness :
  let s := form_run [(0%N, RowAdded ""); (0%N, Reinitialized); (100%N, Edited 0 "war")]
                    (form_load ["warfarin"; "aspirin"]) in
  ∃ nm, name_inputs s !! 0 = Some nm ∧
        listeners nm = seq 0 2 ∧
        check_calls (blur_event 0 s) =
          check_calls s ++
          replicate 2 {| call_from := FromBlur; call_input := 0;
                         call_value := input_value nm |} ∧
        later_timers (blur_event 0 s) = later_timers s.
Proof.
  apply (reinitialised_blur_checks_again ["warfarin"; "aspirin"]
           [(0%N, RowAdded ""); (0%N, Reinitialized); (100%N, Edited 0 "war")] 0).
  simpl. lia.
Defined.
